(** * Linux module finder of sentry-native: a shallow embedding

    The development follows [src/modulefinder/sentry_modulefinder_linux.c].
    Unsigned 64-bit quantities ([uint64_t], and [size_t] / [uintptr_t] on the
    LP64 Linux targets) are integers in [Z] with the wrap-around of every
    arithmetic operation written out through [u64].  A C string is the list
    of the characters that precede its terminating NUL. *)

From Stdlib Require Import ZArith Bool Ascii String Lia.
From stdpp Require Import base list strings.

Local Open Scope Z_scope.

(** ** Machine integers *)

Definition UINT64_MAX : Z := 2 ^ 64 - 1.

Definition u64 (z : Z) : Z := z mod 2 ^ 64.
Definition u32 (z : Z) : Z := z mod 2 ^ 32.
Definition u16 (z : Z) : Z := z mod 2 ^ 16.
Definition u8 (z : Z) : Z := z mod 2 ^ 8.

(** Conversion of an integer to [int32_t] (two's complement, as gcc and
    clang define the out-of-range case). *)
Definition to_int32 (z : Z) : Z :=
  let w := z mod 2 ^ 32 in
  if w <? 2 ^ 31 then w else w - 2 ^ 32.

Definition MIN (a b : Z) : Z := if a <? b then a else b.

Definition MAX_MAPPINGS : nat := 5.

(** ** Data model *)

(** Modelled from the spec: [sentry_slice_t] is declared in sentry_string.h,
    which is not part of the sources at hand; a slice is a borrowed pointer
    with a length.  The pointer is kept as the C string it points to, [None]
    being [NULL]. *)
Record sentry_slice_t : Type := mk_slice {
  slice_ptr : option (list ascii);
  slice_len : nat
}.

(** Modelled from the spec: the three structures below are declared in
    sentry_modulefinder_linux.h, which is not part of the sources at hand
    (MappedRegion [{fileOffset, size, mappedAddress}], ParsedMapLine and
    Module of the data model). *)
Record sentry_mapped_region_t : Type := mk_region {
  region_offset : Z;
  region_size : Z;
  region_addr : Z
}.

Record sentry_parsed_module_t : Type := mk_parsed {
  parsed_start : Z;
  parsed_end : Z;
  parsed_offset : Z;
  parsed_permissions : list ascii;
  parsed_file : sentry_slice_t
}.

Record sentry_module_t : Type := mk_module {
  module_file : sentry_slice_t;
  module_mappings : list sentry_mapped_region_t;
  module_num_mappings : nat
}.

Definition null_slice : sentry_slice_t := mk_slice None 0.
Definition zero_region : sentry_mapped_region_t := mk_region 0 0 0.

(** [sentry_module_t last_module = { 0 }] and the [memset] to zero. *)
Definition zero_module : sentry_module_t :=
  mk_module null_slice (replicate MAX_MAPPINGS zero_region) 0.

(** The regions a module stores: the first [num_mappings] array entries. *)
Definition stored_regions (module : sentry_module_t)
  : list sentry_mapped_region_t :=
  take (module_num_mappings module) (module_mappings module).

(** ** Address translation *)

(** The body of the [for] loop of [sentry__module_get_addr], the loop state
    being [addr] and [addr_end]; [None] is the [NULL] result. *)
Fixpoint get_addr_loop (mappings : list sentry_mapped_region_t)
    (addr addr_end start_offset size : Z) : option Z :=
  match mappings with
  | [] => None
  | mapping :: rest =>
      if negb (addr =? 0) && (addr_end <? region_addr mapping) then None
      else
        let addr_end := u64 (region_addr mapping + region_size mapping) in
        let addr :=
          if (region_offset mapping <=? start_offset)
             && (start_offset
                 <? u64 (region_offset mapping + region_size mapping))
          then u64 (u64 (start_offset - region_offset mapping)
                    + region_addr mapping)
          else addr in
        if negb (addr =? 0) && (u64 (addr + size) <=? addr_end)
        then Some addr
        else get_addr_loop rest addr addr_end start_offset size
  end.

Definition sentry__module_get_addr (module : sentry_module_t)
    (start_offset size : Z) : option Z :=
  get_addr_loop (stored_regions module) 0 UINT64_MAX start_offset size.

(** ** Coalescing of mapping fragments *)

(** The merge test of [sentry__module_mapping_push]. *)
Definition contiguous_with (last_mapping : sentry_mapped_region_t)
    (parsed : sentry_parsed_module_t) : bool :=
  (u64 (region_addr last_mapping + region_size last_mapping)
   =? parsed_start parsed)
  && (u64 (region_offset last_mapping + region_size last_mapping)
      =? parsed_offset parsed).

(** The region a fragment is stored as when it opens a new entry. *)
Definition region_of_parsed (parsed : sentry_parsed_module_t)
  : sentry_mapped_region_t :=
  mk_region (parsed_offset parsed)
            (u64 (parsed_end parsed - parsed_start parsed))
            (parsed_start parsed).

(** The second [if] of [sentry__module_mapping_push]: a new entry, when
    there is room for one. *)
Definition push_new_entry (module : sentry_module_t)
    (parsed : sentry_parsed_module_t) : sentry_module_t :=
  let n := module_num_mappings module in
  if (n <? MAX_MAPPINGS)%nat
  then mk_module (module_file module)
                 (<[n := region_of_parsed parsed]> (module_mappings module))
                 (S n)
  else module.

(** [last_mapping->size += size]. *)
Definition grow_region (last_mapping : sentry_mapped_region_t) (size : Z)
  : sentry_mapped_region_t :=
  mk_region (region_offset last_mapping)
            (u64 (region_size last_mapping + size))
            (region_addr last_mapping).

Definition sentry__module_mapping_push (module : sentry_module_t)
    (parsed : sentry_parsed_module_t) : sentry_module_t :=
  let size := u64 (parsed_end parsed - parsed_start parsed) in
  let n := module_num_mappings module in
  if (0 <? n)%nat then
    match module_mappings module !! (n - 1)%nat with
    | Some last_mapping =>
        if contiguous_with last_mapping parsed
        then mk_module (module_file module)
                       (<[(n - 1)%nat := grow_region last_mapping size]>
                          (module_mappings module))
                       n
        else push_new_entry module parsed
    | None => push_new_entry module parsed
    end
  else push_new_entry module parsed.

(** ** The scanner of one memory-map line *)

(** The conversions of [sscanf] that the format
    ["%lx-%lx %4c %lx %hhx:%hhx %lu %n"] uses, as the GNU C library (2.36)
    carries them out.  A numeric conversion skips white space and takes an
    optional sign; for [%x] a leading [0] that an [x] follows is read as the
    base prefix, the [0] counting as a digit already read, so that [0x]
    without a further digit is the number 0; then comes the longest run of
    digits, and the conversion fails when no digit at all was read.  The
    digits go through [strtoul].  [%4c] takes up to four characters, fewer
    only where the input ends.  A white-space directive skips any white
    space, also none and also newlines. *)

Definition NUL : ascii := "000"%char.
Definition NL : ascii := "010"%char.

Definition char_code (c : ascii) : Z := Z.of_N (N_of_ascii c).

(** [isspace] in the C locale: space, and the controls 9 to 13. *)
Definition isspace (c : ascii) : bool :=
  let n := char_code c in
  (n =? 32) || ((9 <=? n) && (n <=? 13)).

Definition dec_digit (c : ascii) : option Z :=
  let n := char_code c in
  if (48 <=? n) && (n <=? 57) then Some (n - 48) else None.

Definition hex_digit (c : ascii) : option Z :=
  let n := char_code c in
  if (48 <=? n) && (n <=? 57) then Some (n - 48)
  else if (97 <=? n) && (n <=? 102) then Some (n - 87)
  else if (65 <=? n) && (n <=? 70) then Some (n - 55)
  else None.

Fixpoint skip_space (s : list ascii) : list ascii :=
  match s with
  | c :: t => if isspace c then skip_space t else s
  | [] => []
  end.

(** The longest run of digits, accumulated most significant digit first. *)
Fixpoint scan_digits (digit : ascii -> option Z) (base acc : Z)
    (s : list ascii) : Z * list ascii :=
  match s with
  | c :: t =>
      match digit c with
      | Some d => scan_digits digit base (acc * base + d) t
      | None => (acc, s)
      end
  | [] => (acc, [])
  end.

Definition scan_sign (s : list ascii) : bool * list ascii :=
  match s with
  | c :: t =>
      if Ascii.eqb c "-" then (true, t)
      else if Ascii.eqb c "+" then (false, t)
      else (false, s)
  | [] => (false, [])
  end.

(** The base prefix: what follows a leading [0x] or [0X], if there is
    one. *)
Definition skip_0x (s : list ascii) : option (list ascii) :=
  match s with
  | c0 :: c1 :: t =>
      if Ascii.eqb c0 "0" && (Ascii.eqb c1 "x" || Ascii.eqb c1 "X")
      then Some t else None
  | _ => None
  end.

(** The value [strtoul] gives the digits read: [max] when they overflow,
    whatever the sign; otherwise their value, negated in the unsigned type
    under a minus sign. *)
Definition strtoul_value (max : Z) (neg : bool) (v : Z) : Z :=
  if max <? v then max
  else if neg then (- v) mod (max + 1) else v.

Definition scan_number (digit : ascii -> option Z) (base : Z) (prefix : bool)
    (max : Z) (s : list ascii) : option (Z * list ascii) :=
  let s := skip_space s in
  let '(neg, s) := scan_sign s in
  match (if prefix then skip_0x s else None) with
  | Some t =>
      let '(v, rest) := scan_digits digit base 0 t in
      Some (strtoul_value max neg v, rest)
  | None =>
      match s with
      | c :: _ =>
          match digit c with
          | Some _ =>
              let '(v, rest) := scan_digits digit base 0 s in
              Some (strtoul_value max neg v, rest)
          | None => None
          end
      | [] => None
      end
  end.

(** [%lx] into a [uint64_t], [%hhx] into a [uint8_t], [%lu] into a
    [uint64_t]. *)
Definition scan_x64 : list ascii -> option (Z * list ascii) :=
  scan_number hex_digit 16 true UINT64_MAX.
Definition scan_hhx (s : list ascii) : option (Z * list ascii) :=
  match scan_number hex_digit 16 true UINT64_MAX s with
  | Some (v, rest) => Some (u8 v, rest)
  | None => None
  end.
Definition scan_u64 : list ascii -> option (Z * list ascii) :=
  scan_number dec_digit 10 false UINT64_MAX.

(** An ordinary character of the format. *)
Definition scan_literal (c : ascii) (s : list ascii) : option (list ascii) :=
  match s with
  | c' :: t => if Ascii.eqb c' c then Some t else None
  | [] => None
  end.

(** [%4c]: the next four characters, white space included, or those that
    are left when the input ends before the fourth; none at all is a
    failure. *)
Definition scan_4c (s : list ascii) : option (list ascii * list ascii) :=
  match s with
  | [] => None
  | _ :: _ => Some (take 4 s, drop 4 s)
  end.

Definition set_start (m : sentry_parsed_module_t) (v : Z) :=
  mk_parsed v (parsed_end m) (parsed_offset m) (parsed_permissions m)
            (parsed_file m).
Definition set_end (m : sentry_parsed_module_t) (v : Z) :=
  mk_parsed (parsed_start m) v (parsed_offset m) (parsed_permissions m)
            (parsed_file m).
Definition set_offset (m : sentry_parsed_module_t) (v : Z) :=
  mk_parsed (parsed_start m) (parsed_end m) v (parsed_permissions m)
            (parsed_file m).
(** [%4c] writes the characters it has taken to the front of
    [permissions] and leaves the rest of the array, [permissions[4]] in
    every case. *)
Definition set_permissions (m : sentry_parsed_module_t) (p : list ascii) :=
  mk_parsed (parsed_start m) (parsed_end m) (parsed_offset m)
            (p ++ drop (length p) (parsed_permissions m)) (parsed_file m).
Definition set_file (m : sentry_parsed_module_t) (f : sentry_slice_t) :=
  mk_parsed (parsed_start m) (parsed_end m) (parsed_offset m)
            (parsed_permissions m) f.

(** [sentry_parsed_module_t module = { 0 }]. *)
Definition zero_parsed : sentry_parsed_module_t :=
  mk_parsed 0 0 0 (replicate 5 NUL) null_slice.

(** The [sscanf] call: the number of conversions stored ([-1] is [EOF]),
    the structure as far as it was filled, and the count [%n] stored in
    [consumed] (left at its initial 0 when [%n] is not reached). *)
Definition sscanf_maps_line (line : list ascii)
    (module : sentry_parsed_module_t)
  : Z * sentry_parsed_module_t * nat :=
  match scan_x64 line with
  | None => (match skip_space line with [] => -1 | _ => 0 end, module, 0%nat)
  | Some (v_start, s) =>
  let module := set_start module v_start in
  match scan_literal "-" s with
  | None => (1, module, 0%nat)
  | Some s =>
  match scan_x64 s with
  | None => (1, module, 0%nat)
  | Some (v_end, s) =>
  let module := set_end module v_end in
  match scan_4c (skip_space s) with
  | None => (2, module, 0%nat)
  | Some (perms, s) =>
  let module := set_permissions module perms in
  match scan_x64 (skip_space s) with
  | None => (3, module, 0%nat)
  | Some (v_offset, s) =>
  let module := set_offset module v_offset in
  match scan_hhx (skip_space s) with
  | None => (4, module, 0%nat)
  | Some (_, s) =>
  match scan_literal ":" s with
  | None => (5, module, 0%nat)
  | Some s =>
  match scan_hhx s with
  | None => (5, module, 0%nat)
  | Some (_, s) =>
  match scan_u64 (skip_space s) with
  | None => (6, module, 0%nat)
  | Some (_, s) =>
      let s := skip_space s in
      (7, module, (length line - length s)%nat)
  end end end end end end end end end.

(** [strchr] for a character other than NUL: the index of its first
    occurrence. *)
Fixpoint strchr (s : list ascii) (c : ascii) : option nat :=
  match s with
  | [] => None
  | c' :: t => if Ascii.eqb c' c then Some 0%nat
               else option_map S (strchr t c)
  end.

Definition char_at (s : list ascii) (i : nat) : ascii := nth i s NUL.

Definition sentry__procmaps_parse_module_line (line : list ascii)
    (module : sentry_parsed_module_t) : Z * sentry_parsed_module_t :=
  let '(n, module, consumed) := sscanf_maps_line line module in
  if n <? 7 then (0, module)
  else
    let line' := drop consumed line in
    let nl := strchr line' NL in
    if (0 <? consumed)%nat && Ascii.eqb (char_at line (consumed - 1)) NL
    then (Z.of_nat consumed, set_file module (mk_slice None 0))
    else
      match nl with
      | Some k =>
          (Z.of_nat consumed + Z.of_nat k + 1,
           set_file module (mk_slice (Some line') k))
      | None =>
          (Z.of_nat consumed + Z.of_nat (length line'),
           set_file module (mk_slice (Some line') (length line')))
      end.

(** ** Process memory and the ELF structures read from it *)

(** The byte order of the machine the process runs on. *)
Inductive byte_order : Type := LittleEndian | BigEndian.

(** The address space of the process: the byte at every address.  Addresses
    are 64-bit values; a sum of addresses that passes [2 ^ 64] wraps
    around. *)
Definition memory : Type := Z -> Z.

Set Warnings "-register-all".

(** The structured values of the SDK.

    Modelled from the spec: the value tree, the UUID type and the hex-string
    encoder live in sentry_value.c and sentry_uuid.c, outside the sources at
    hand; they are used through "set field" and "append" only.  An address,
    a UUID and a hex string keep the bytes they are made from. *)
Inductive sentry_value_t : Type :=
  | VNull
  | VInt32 (v : Z)
  | VString (s : list ascii)
  | VAddr (a : Z)
  | VUuid (bytes : list Z)
  | VList (frozen : bool) (items : list sentry_value_t)
  | VObject (frozen : bool) (fields : list (list ascii * sentry_value_t)).

Definition sentry_value_new_null : sentry_value_t := VNull.
Definition sentry_value_new_list : sentry_value_t := VList false [].
Definition sentry_value_new_object : sentry_value_t := VObject false [].
Definition sentry_value_new_string (s : list ascii) : sentry_value_t :=
  VString s.
Definition sentry_value_new_int32 (v : Z) : sentry_value_t := VInt32 v.
Definition sentry__value_new_addr (a : Z) : sentry_value_t := VAddr a.
Definition sentry__value_new_uuid (bytes : list Z) : sentry_value_t :=
  VUuid bytes.

Definition sentry_value_is_null (v : sentry_value_t) : bool :=
  match v with VNull => true | _ => false end.

Definition list_ascii_eqb (a b : list ascii) : bool :=
  String.eqb (string_of_list_ascii a) (string_of_list_ascii b).

Fixpoint set_field (fields : list (list ascii * sentry_value_t))
    (k : list ascii) (v : sentry_value_t)
  : list (list ascii * sentry_value_t) :=
  match fields with
  | [] => [(k, v)]
  | (k', v') :: rest =>
      if list_ascii_eqb k' k then (k, v) :: rest
      else (k', v') :: set_field rest k v
  end.

(** A frozen value, or one that is not an object, is left as it is. *)
Definition sentry_value_set_by_key (value : sentry_value_t) (k : list ascii)
    (v : sentry_value_t) : sentry_value_t :=
  match value with
  | VObject false fields => VObject false (set_field fields k v)
  | _ => value
  end.

Fixpoint get_field (fields : list (list ascii * sentry_value_t))
    (k : list ascii) : sentry_value_t :=
  match fields with
  | [] => VNull
  | (k', v') :: rest => if list_ascii_eqb k' k then v' else get_field rest k
  end.

Definition sentry_value_get_by_key (value : sentry_value_t) (k : list ascii)
  : sentry_value_t :=
  match value with
  | VObject _ fields => get_field fields k
  | _ => VNull
  end.

Definition sentry_value_append (value v : sentry_value_t) : sentry_value_t :=
  match value with
  | VList false items => VList false (items ++ [v])
  | _ => value
  end.

Fixpoint sentry_value_freeze (value : sentry_value_t) : sentry_value_t :=
  match value with
  | VList _ items => VList true (List.map sentry_value_freeze items)
  | VObject _ fields =>
      VObject true
        (List.map (fun kv => (fst kv, sentry_value_freeze (snd kv))) fields)
  | _ => value
  end.

Definition hex_char (d : Z) : ascii :=
  ascii_of_N (Z.to_N (if d <? 10 then 48 + d else 87 + d)).

(** Two lower-case hex digits a byte. *)
Definition hex_encode (bytes : list Z) : list ascii :=
  flat_map (fun b => [hex_char (b / 16); hex_char (b mod 16)]) bytes.

Definition sentry__value_new_hexstring (bytes : list Z) : sentry_value_t :=
  VString (hex_encode bytes).

Definition str (s : string) : list ascii := list_ascii_of_string s.

(** The constants of [elf.h] the module finder uses. *)
Definition EI_NIDENT : Z := 16.
Definition EI_CLASS : Z := 4.
Definition ELFCLASS64 : Z := 2.
Definition ELFMAG0 : Z := 127.
Definition ELFMAG1 : Z := 69.
Definition ELFMAG2 : Z := 76.
Definition ELFMAG3 : Z := 70.
Definition PT_NOTE : Z := 4.
Definition NT_GNU_BUILD_ID : Z := 3.
Definition SHT_PROGBITS : Z := 1.
Definition sizeof_Elf64_Ehdr : Z := 64.
Definition sizeof_Elf32_Ehdr : Z := 52.
Definition sizeof_Elf64_Nhdr : Z := 12.

Inductive elf_class : Type := ELF64 | ELF32.

Definition nil_uuid : list Z := replicate 16 0.

Definition xor_into (uuid : list Z) (i : nat) (b : Z) : list Z :=
  alter (fun x => Z.lxor x b) (i mod 16)%nat uuid.

Section Memory.

Variable host : byte_order.
Variable mem : memory.

(** The byte at an address, the address being taken as a 64-bit value. *)
Definition load8 (a : Z) : Z := u8 (mem (u64 a)).

Definition load16 (a : Z) : Z :=
  match host with
  | LittleEndian => load8 a + 2 ^ 8 * load8 (a + 1)
  | BigEndian => 2 ^ 8 * load8 a + load8 (a + 1)
  end.

Definition load32 (a : Z) : Z :=
  match host with
  | LittleEndian => load16 a + 2 ^ 16 * load16 (a + 2)
  | BigEndian => 2 ^ 16 * load16 a + load16 (a + 2)
  end.

Definition load64 (a : Z) : Z :=
  match host with
  | LittleEndian => load32 a + 2 ^ 32 * load32 (a + 4)
  | BigEndian => 2 ^ 32 * load32 a + load32 (a + 4)
  end.

(** The [n] bytes from address [a] on. *)
Definition read_bytes (a : Z) (n : nat) : list Z :=
  List.map (fun i => load8 (a + Z.of_nat i)) (seq 0 n).

(** [void align(size_t alignment, void **offset)]; the addition is one of
    [size_t] values.  Both calls pass an alignment of 4 or 8; what is said
    about [align] is said for a positive alignment, the remainder by 0
    having no value in C. *)
Definition align (alignment offset : Z) : Z :=
  let diff := offset mod alignment in
  if negb (diff =? 0) then u64 (offset + (alignment - diff)) else offset.

(** The fields of [Elf64_Nhdr]. *)
Definition n_namesz (note : Z) : Z := load32 note.
Definition n_descsz (note : Z) : Z := load32 (note + 4).
Definition n_type (note : Z) : Z := load32 (note + 8).

(** A bound on what one turn of the note scan adds to its pointer: the
    header, two 32-bit sizes and the padding of two alignments. *)
Definition note_reach : Z := 2 ^ 33 + 32.

(** The [while] loop of [get_code_id_from_notes], the additions to the
    pointer [offset] being taken modulo [2 ^ 64].  A turn adds the 12 bytes
    of a note header at least and less than [note_reach] bytes; as long as
    that does not pass the end of the address space, [offset] moves forward,
    and [fuel] turns are enough once [fuel] exceeds [end_ - offset]. *)
Fixpoint notes_loop (fuel : nat) (alignment offset end_ : Z)
  : option (Z * Z) :=
  match fuel with
  | O => None
  | S fuel =>
      if offset <? end_ then
        let note := offset in
        let offset := u64 (offset + sizeof_Elf64_Nhdr) in
        let offset := u64 (offset + n_namesz note) in
        let offset := align alignment offset in
        if n_type note =? NT_GNU_BUILD_ID
        then Some (offset, n_descsz note)
        else
          let offset := u64 (offset + n_descsz note) in
          let offset := align alignment offset in
          notes_loop fuel alignment offset end_
      else None
  end.

(** The result is the pointer to the descriptor with [*size_out], or [None]
    for [NULL] (and [*size_out = 0]).  The scan is given more turns than the
    segment has bytes, which is all it takes for a segment that ends
    [note_reach] bytes below the end of the address space; a scan whose
    pointer has wrapped around and that goes on beyond these turns is cut
    off. *)
Definition get_code_id_from_notes (alignment start end_ : Z)
  : option (Z * Z) :=
  let go alignment :=
    notes_loop (S (Z.to_nat (end_ - start))) alignment start end_ in
  if alignment <? 4 then go 4
  else if negb (alignment =? 4) && negb (alignment =? 8) then None
  else go alignment.

Definition is_elf_module (module : sentry_module_t) : bool :=
  match sentry__module_get_addr module 0 EI_NIDENT with
  | None => false
  | Some e_ident =>
      (load8 (e_ident + 0) =? ELFMAG0) && (load8 (e_ident + 1) =? ELFMAG1)
      && (load8 (e_ident + 2) =? ELFMAG2) && (load8 (e_ident + 3) =? ELFMAG3)
  end.

(** The fields of [Elf64_Ehdr] / [Elf32_Ehdr], [Elf64_Phdr] / [Elf32_Phdr]
    and [Elf64_Shdr] / [Elf32_Shdr], at the offsets of the ELF ABI. *)
Definition e_phoff (c : elf_class) (elf : Z) : Z :=
  match c with ELF64 => load64 (elf + 32) | ELF32 => load32 (elf + 28) end.
Definition e_shoff (c : elf_class) (elf : Z) : Z :=
  match c with ELF64 => load64 (elf + 40) | ELF32 => load32 (elf + 32) end.
Definition e_phentsize (c : elf_class) (elf : Z) : Z :=
  match c with ELF64 => load16 (elf + 54) | ELF32 => load16 (elf + 42) end.
Definition e_phnum (c : elf_class) (elf : Z) : Z :=
  match c with ELF64 => load16 (elf + 56) | ELF32 => load16 (elf + 44) end.
Definition e_shentsize (c : elf_class) (elf : Z) : Z :=
  match c with ELF64 => load16 (elf + 58) | ELF32 => load16 (elf + 46) end.
Definition e_shnum (c : elf_class) (elf : Z) : Z :=
  match c with ELF64 => load16 (elf + 60) | ELF32 => load16 (elf + 48) end.
Definition e_shstrndx (c : elf_class) (elf : Z) : Z :=
  match c with ELF64 => load16 (elf + 62) | ELF32 => load16 (elf + 50) end.

Definition p_type (c : elf_class) (header : Z) : Z := load32 header.
Definition p_offset (c : elf_class) (header : Z) : Z :=
  match c with ELF64 => load64 (header + 8) | ELF32 => load32 (header + 4) end.
Definition p_filesz (c : elf_class) (header : Z) : Z :=
  match c with
  | ELF64 => load64 (header + 32) | ELF32 => load32 (header + 16)
  end.
Definition p_align (c : elf_class) (header : Z) : Z :=
  match c with
  | ELF64 => load64 (header + 48) | ELF32 => load32 (header + 28)
  end.

Definition sh_name (c : elf_class) (header : Z) : Z := load32 header.
Definition sh_type (c : elf_class) (header : Z) : Z := load32 (header + 4).
Definition sh_offset (c : elf_class) (header : Z) : Z :=
  match c with
  | ELF64 => load64 (header + 24) | ELF32 => load32 (header + 16)
  end.
Definition sh_size (c : elf_class) (header : Z) : Z :=
  match c with
  | ELF64 => load64 (header + 32) | ELF32 => load32 (header + 20)
  end.
Definition sh_entsize (c : elf_class) (header : Z) : Z :=
  match c with
  | ELF64 => load64 (header + 56) | ELF32 => load32 (header + 36)
  end.

(** [table + entsize * i], the offset of entry [i] of a header table.  The
    product of the promoted 16-bit size and the [int] index is an [int]; in
    the 64-bit structures it is widened and added to a 64-bit offset, in the
    32-bit ones it is added to a 32-bit offset in [unsigned int]. *)
Definition table_entry (c : elf_class) (table entsize i : Z) : Z :=
  match c with
  | ELF64 => u64 (table + to_int32 (entsize * i))
  | ELF32 => u32 (table + to_int32 (entsize * i))
  end.

(** ** The build id of a module *)

(** The [for] loop over the program headers in [get_code_id_from_elf], for
    the indices at hand; [None] is the [NULL] result, reached through [fail] or
    at the end of the loop. *)
Fixpoint phdr_loop (c : elf_class) (module : sentry_module_t) (elf : Z)
    (indices : list nat) : option (Z * Z) :=
  match indices with
  | [] => None
  | i :: rest =>
      match sentry__module_get_addr module
              (table_entry c (e_phoff c elf) (e_phentsize c elf) (Z.of_nat i))
              (e_phentsize c elf) with
      | None => None
      | Some header =>
          if negb (p_type c header =? PT_NOTE) then
            phdr_loop c module elf rest
          else
            match sentry__module_get_addr module (p_offset c header)
                    (p_filesz c header) with
            | None => None
            | Some segment_addr =>
                match get_code_id_from_notes (p_align c header) segment_addr
                        (u64 (segment_addr + p_filesz c header)) with
                | Some code_id => Some code_id
                | None => phdr_loop c module elf rest
                end
            end
      end
  end.

Definition get_code_id_from_elf (module : sentry_module_t)
  : option (Z * Z) :=
  match sentry__module_get_addr module 0 EI_NIDENT with
  | None => None
  | Some e_ident =>
      if load8 (e_ident + EI_CLASS) =? ELFCLASS64 then
        match sentry__module_get_addr module 0 sizeof_Elf64_Ehdr with
        | None => None
        | Some elf =>
            phdr_loop ELF64 module elf (seq 0 (Z.to_nat (e_phnum ELF64 elf)))
        end
      else
        match sentry__module_get_addr module 0 sizeof_Elf32_Ehdr with
        | None => None
        | Some elf =>
            phdr_loop ELF32 module elf (seq 0 (Z.to_nat (e_phnum ELF32 elf)))
        end
  end.

(** [strcmp(name, ".text") == 0] for a string in memory: the five
    characters and the NUL after them. *)
Definition is_dot_text (name : Z) : bool :=
  bool_decide (read_bytes name 6 = [46; 116; 101; 120; 116; 0]).

(** The [for] loop over the section headers in
    [get_code_id_from_text_fallback].  The outer [None] is the jump to
    [fail]; otherwise the result is [text] with [text_size], which are
    [NULL] and 0 when no section is taken. *)
Fixpoint shdr_loop (c : elf_class) (module : sentry_module_t)
    (elf names : Z) (indices : list nat) : option (Z * Z) :=
  match indices with
  | [] => Some (0, 0)
  | i :: rest =>
      match sentry__module_get_addr module
              (table_entry c (e_shoff c elf) (e_shentsize c elf) (Z.of_nat i))
              (e_shentsize c elf) with
      | None => None
      | Some header =>
          let name := names + sh_name c header in
          if (sh_type c header =? SHT_PROGBITS) && is_dot_text name then
            match sentry__module_get_addr module (sh_offset c header)
                    (sh_size c header) with
            | None => None
            | Some text => Some (text, sh_size c header)
            end
          else shdr_loop c module elf names rest
      end
  end.

(** The header walk of [get_code_id_from_text_fallback], up to the
    declaration of [uuid].  Both branches translate the ELF header with
    [sizeof(Elf64_Ehdr)]. *)
Definition locate_text (module : sentry_module_t) : option (Z * Z) :=
  match sentry__module_get_addr module 0 EI_NIDENT with
  | None => None
  | Some e_ident =>
      let c := if load8 (e_ident + EI_CLASS) =? ELFCLASS64
               then ELF64 else ELF32 in
      match sentry__module_get_addr module 0 sizeof_Elf64_Ehdr with
      | None => None
      | Some elf =>
          match sentry__module_get_addr module
                  (table_entry c (e_shoff c elf) (e_shentsize c elf)
                     (e_shstrndx c elf))
                  (e_shentsize c elf) with
          | None => None
          | Some strheader =>
              match sentry__module_get_addr module (sh_offset c strheader)
                      (sh_entsize c strheader) with
              | None => None
              | Some names =>
                  shdr_loop c module elf names
                    (seq 0 (Z.to_nat (e_shnum c elf)))
              end
          end
      end
  end.

(** [for (size_t i = 0; i < max; i++) uuid.bytes[i % 16] ^= text[i];] *)
Definition xor_fold_text (text : Z) (max : nat) (uuid : list Z) : list Z :=
  fold_left (fun uuid i => xor_into uuid i (load8 (text + Z.of_nat i)))
            (seq 0 max) uuid.

Definition get_code_id_from_text_fallback (module : sentry_module_t)
  : list Z :=
  match locate_text module with
  | None => nil_uuid
  | Some (text, text_size) =>
      let max := MIN text_size 4096 in
      xor_fold_text text (Z.to_nat max) nil_uuid
  end.

(** [memcpy(uuid.bytes, code_id, n)] into a 16-byte array. *)
Definition memcpy_uuid (uuid : list Z) (code_id : Z) (n : nat) : list Z :=
  read_bytes code_id n ++ drop n uuid.

(** The 16 bytes of [uuid] in [sentry__procmaps_read_ids_from_elf] when the
    byte flipping starts. *)
Definition selected_uuid (module : sentry_module_t) : list Z :=
  match get_code_id_from_elf module with
  | Some (code_id, code_id_size) =>
      memcpy_uuid nil_uuid code_id (Z.to_nat (MIN code_id_size 16))
  | None => get_code_id_from_text_fallback module
  end.

(** A 16- or 32-bit object of the host seen as bytes, and back. *)
Definition bytes_to_host (bs : list Z) : Z :=
  match host with
  | LittleEndian => fold_right (fun b acc => b + 2 ^ 8 * acc) 0 bs
  | BigEndian => fold_left (fun acc b => 2 ^ 8 * acc + b) bs 0
  end.

Fixpoint le_bytes (n : nat) (v : Z) : list Z :=
  match n with
  | O => []
  | S n => v mod 2 ^ 8 :: le_bytes n (v / 2 ^ 8)
  end.

Definition host_to_bytes (n : nat) (v : Z) : list Z :=
  match host with
  | LittleEndian => le_bytes n v
  | BigEndian => rev (le_bytes n v)
  end.

(** [htonl] and [htons]: the bytes of the value are reversed on a
    little-endian host and kept on a big-endian one. *)
Definition hton (n : nat) (v : Z) : Z :=
  match host with
  | LittleEndian =>
      fold_left (fun acc b => 2 ^ 8 * acc + b) (le_bytes n v) 0
  | BigEndian => v
  end.
Definition htonl : Z -> Z := hton 4.
Definition htons : Z -> Z := hton 2.

(** The [n]-byte object at index [at_] of [uuid], read in host order,
    passed through [hton] and written back. *)
Definition flip_field (uuid : list Z) (at_ n : nat) : list Z :=
  let v := bytes_to_host (take n (drop at_ uuid)) in
  take at_ uuid ++ host_to_bytes n (hton n v) ++ drop (at_ + n) uuid.

Definition flip_uuid (uuid : list Z) : list Z :=
  let uuid := flip_field uuid 0 4 in
  let uuid := flip_field uuid 4 2 in
  flip_field uuid 6 2.

(** The function returns [true] in every case; the model keeps the value
    it has filled. *)
Definition sentry__procmaps_read_ids_from_elf (value : sentry_value_t)
    (module : sentry_module_t) : sentry_value_t :=
  let value :=
    match get_code_id_from_elf module with
    | Some (code_id, code_id_size) =>
        sentry_value_set_by_key value (str "code_id")
          (sentry__value_new_hexstring
             (read_bytes code_id (Z.to_nat code_id_size)))
    | None => value
    end in
  sentry_value_set_by_key value (str "debug_id")
    (sentry__value_new_uuid (flip_uuid (selected_uuid module))).

Definition slice_chars (s : sentry_slice_t) : list ascii :=
  take (slice_len s) (default [] (slice_ptr s)).

(** Modelled from the spec: [sentry__slice_to_owned] and [sentry__slice_eq]
    are defined in sentry_string.h, outside the sources at hand: the copy of
    the characters of a slice, and the equality of two slices as sequences
    of characters. *)
Definition sentry__slice_to_owned (s : sentry_slice_t) : list ascii :=
  slice_chars s.
Definition sentry__slice_eq (a b : sentry_slice_t) : bool :=
  (slice_len a =? slice_len b)%nat
  && list_ascii_eqb (slice_chars a) (slice_chars b).

Definition mapping_at (module : sentry_module_t) (i : nat)
  : sentry_mapped_region_t :=
  default zero_region (module_mappings module !! i).

Definition sentry__procmaps_module_to_value (module : sentry_module_t)
  : sentry_value_t :=
  if negb (is_elf_module module) then sentry_value_new_null
  else
    let mod_val := sentry_value_new_object in
    let mod_val := sentry_value_set_by_key mod_val (str "type")
                     (sentry_value_new_string (str "elf")) in
    let mod_val := sentry_value_set_by_key mod_val (str "image_addr")
                     (sentry__value_new_addr
                        (region_addr (mapping_at module 0))) in
    let last_mapping :=
      mapping_at module (module_num_mappings module - 1) in
    let mod_val := sentry_value_set_by_key mod_val (str "image_size")
                     (sentry_value_new_int32
                        (to_int32 (u64 (region_offset last_mapping
                                        + region_size last_mapping)))) in
    let mod_val := sentry_value_set_by_key mod_val (str "code_file")
                     (sentry_value_new_string
                        (sentry__slice_to_owned (module_file module))) in
    sentry__procmaps_read_ids_from_elf mod_val module.

Definition try_append_module (modules : sentry_value_t)
    (module : sentry_module_t) : sentry_value_t :=
  match slice_ptr (module_file module) with
  | None => modules
  | Some _ =>
      let mod_val := sentry__procmaps_module_to_value module in
      if negb (sentry_value_is_null mod_val)
      then sentry_value_append modules mod_val
      else modules
  end.

End Memory.

(** ** One enumeration pass *)

Definition LINUX_GATE : sentry_slice_t :=
  mk_slice (Some (str "linux-gate.so")) 13.

Definition AT_NULL : Z := 0.
Definition AT_SYSINFO_EHDR : Z := 33.

(** The [while] loop of [get_linux_vdso] over the entries [(a_type, a_val)]
    that [read] delivers whole. *)
Fixpoint auxv_loop (entries : list (Z * Z)) : Z :=
  match entries with
  | [] => 0
  | (a_type, a_val) :: rest =>
      if negb (a_type =? AT_NULL) then
        if a_type =? AT_SYSINFO_EHDR then u64 a_val else auxv_loop rest
      else 0
  end.

(** [auxv] is [None] when /proc/self/auxv cannot be opened. *)
Definition get_linux_vdso (auxv : option (list (Z * Z))) : Z :=
  match auxv with
  | None => 0
  | Some entries => auxv_loop entries
  end.

(** The filter of [load_modules] on a parsed line: [None] is [continue],
    otherwise the line goes on with the path it is given. *)
Definition filter_line (module : sentry_parsed_module_t) (linux_vdso : Z)
  : option sentry_parsed_module_t :=
  let file := parsed_file module in
  let ptr := default [] (slice_ptr file) in
  let len := slice_len file in
  if negb (parsed_start module =? 0) && (parsed_start module =? linux_vdso)
  then Some (set_file module LINUX_GATE)
  else if (parsed_start module =? 0)
          || (len =? 0)%nat
          || negb (Ascii.eqb (char_at (parsed_permissions module) 0) "r")
          || Ascii.eqb (char_at ptr (len - 1)) ")"
          || match strchr ptr "/" with
             | None => true
             | Some slash => (len <? slash)%nat
             end
          || ((5 <=? len)%nat && list_ascii_eqb (str "/dev/") (take 5 ptr))
  then None
  else Some module.

Definition set_module_file (m : sentry_module_t) (f : sentry_slice_t)
  : sentry_module_t :=
  mk_module f (module_mappings m) (module_num_mappings m).

Section Enumeration.

Variable host : byte_order.
Variable mem : memory.

(** What one turn of the loop of [load_modules] does with a line that was
    parsed, on the list [modules] and on [last_module]. *)
Definition load_step (linux_vdso : Z)
    (st : sentry_value_t * sentry_module_t)
    (module : sentry_parsed_module_t) : sentry_value_t * sentry_module_t :=
  match filter_line module linux_vdso with
  | None => st
  | Some module =>
      let '(modules, last_module) := st in
      let '(modules, last_module) :=
        if (0 <? slice_len (module_file last_module))%nat
           && negb (sentry__slice_eq (module_file last_module)
                      (parsed_file module))
        then (try_append_module host mem modules last_module, zero_module)
        else (modules, last_module) in
      let last_module := set_module_file last_module (parsed_file module) in
      (modules, sentry__module_mapping_push last_module module)
  end.

(** The [while (true)] loop; a turn either stops or moves [current_line]
    forward, so that [fuel] turns are enough once [fuel] exceeds the length
    of [current_line]. *)
Fixpoint load_loop (fuel : nat) (linux_vdso : Z) (current_line : list ascii)
    (st : sentry_value_t * sentry_module_t)
  : sentry_value_t * sentry_module_t :=
  match fuel with
  | O => st
  | S fuel =>
      let '(read, module) :=
        sentry__procmaps_parse_module_line current_line zero_parsed in
      if read =? 0 then st
      else load_loop fuel linux_vdso (drop (Z.to_nat read) current_line)
             (load_step linux_vdso st module)
  end.

(** [maps] is the text read from /proc/self/maps, [None] when the file
    cannot be opened or the buffer cannot be built. *)
Definition load_modules (maps : option (list ascii))
    (auxv : option (list (Z * Z))) (modules : sentry_value_t)
  : sentry_value_t :=
  match maps with
  | None => modules
  | Some contents =>
      let linux_vdso := get_linux_vdso auxv in
      let '(modules, last_module) :=
        load_loop (S (length contents)) linux_vdso contents
                  (modules, zero_module) in
      try_append_module host mem modules last_module
  end.

End Enumeration.

(** ** Reading the memory map *)

(** What one call of [read] on /proc/self/maps gives the loop at the head
    of [load_modules]: [n > 0] bytes, which the string builder takes or, out
    of memory, refuses; [n < 0] with [EAGAIN] or [EINTR]; or anything else
    ([n = 0], or [n < 0] with another error).

    Modelled from the spec: the string builder lives in sentry_string.c,
    outside the sources at hand; [sentry__stringbuilder_append_buf] appends
    the bytes or reports a failure, and [sentry__stringbuilder_into_string]
    gives the text collected. *)
Inductive read_result : Type :=
  | ReadData (chunk : list ascii) (append_fails : bool)
  | ReadRetry
  | ReadEnd.

(** The [while (true)] loop over the results of the calls of [read], [sb]
    being the text collected so far; a file that gives nothing more is at
    its end.  [None] is the [return] after a failed append. *)
Fixpoint read_loop (script : list read_result) (sb : list ascii)
  : option (list ascii) :=
  match script with
  | [] => Some sb
  | ReadRetry :: rest => read_loop rest sb
  | ReadEnd :: _ => Some sb
  | ReadData chunk append_fails :: rest =>
      if append_fails then None else read_loop rest (sb ++ chunk)
  end.

(** [file] is [None] when /proc/self/maps cannot be opened. *)
Definition read_maps (file : option (list read_result))
  : option (list ascii) :=
  match file with
  | None => None
  | Some script => read_loop script []
  end.

(** [load_modules] from the calls of [read] on. *)
Definition load_modules_from_file (host : byte_order) (mem : memory)
    (file : option (list read_result)) (auxv : option (list (Z * Z)))
    (modules : sentry_value_t) : sentry_value_t :=
  load_modules host mem (read_maps file) auxv modules.

Definition is_retry (r : read_result) : bool :=
  match r with ReadRetry => true | _ => false end.

(** ** The module cache *)

(** What a build reads from the process it runs in. *)
Record process_t : Type := mk_process {
  proc_host : byte_order;
  proc_mem : memory;
  proc_maps : option (list ascii);
  proc_auxv : option (list (Z * Z))
}.

(** The globals [g_initialized] and [g_modules]. *)
Record cache_t : Type := mk_cache {
  g_initialized : bool;
  g_modules : sentry_value_t
}.

(** [static bool g_initialized = false] and
    [static sentry_value_t g_modules = { 0 }]: the cache starts with the
    value whose bits are all zero.  Which value that is lies with
    sentry_value.c, outside the sources at hand, so it is left open: it is
    the parameter [zero_value] of what is said about the cache. *)
Definition initial_cache (zero_value : sentry_value_t) : cache_t :=
  mk_cache false zero_value.

(** The list a build makes. *)
Definition build_modules (p : process_t) : sentry_value_t :=
  sentry_value_freeze
    (load_modules (proc_host p) (proc_mem p) (proc_maps p) (proc_auxv p)
                  sentry_value_new_list).

(** Both functions run with [g_mutex] held; a call is one step on the
    globals.  [sentry_get_modules_list] gives the new globals and the value
    it returns. *)
Definition sentry_get_modules_list (p : process_t) (c : cache_t)
  : cache_t * sentry_value_t :=
  let c := if negb (g_initialized c)
           then mk_cache true (build_modules p)
           else c in
  (c, g_modules c).

Definition sentry_clear_modulecache (c : cache_t) : cache_t :=
  mk_cache false sentry_value_new_null.

(** ** What the properties speak about *)

(** A file offset lies in the file-offset range of a region. *)
Definition in_file_range (r : sentry_mapped_region_t) (off : Z) : Prop :=
  region_offset r <= off < region_offset r + region_size r.

(** An address lies in the mapped range of a region. *)
Definition in_mapped_range (r : sentry_mapped_region_t) (x : Z) : Prop :=
  region_addr r <= x < region_addr r + region_size r.

(** Every address of the [size] bytes from [a] on lies in some region of
    the list. *)
Definition range_mapped (regions : list sentry_mapped_region_t)
    (a size : Z) : Prop :=
  forall x, a <= x < a + size ->
    exists r, r ∈ regions /\ in_mapped_range r x.

(** The fields of a region are 64-bit values, and the region does not
    run over the end of the address space. *)
Definition region_wf (r : sentry_mapped_region_t) : Prop :=
  0 <= region_offset r < 2 ^ 64 /\ 0 <= region_size r < 2 ^ 64
  /\ 0 <= region_addr r /\ region_addr r + region_size r < 2 ^ 64.

(** The state of the loop of [sentry__module_get_addr]: either no candidate
    yet, or a candidate that some region gave, with everything from it up to
    [addr_end] mapped. *)
Definition translate_inv (all : list sentry_mapped_region_t)
    (start_offset addr addr_end : Z) : Prop :=
  addr = 0
  \/ ((exists r, r ∈ all /\ in_file_range r start_offset
                 /\ addr = start_offset - region_offset r + region_addr r)
      /\ (forall x, addr <= x < addr_end ->
            exists r, r ∈ all /\ in_mapped_range r x)).

(** The array of a module has [MAX_MAPPINGS] entries, of which at most
    all are in use. *)
Definition module_wf (module : sentry_module_t) : Prop :=
  length (module_mappings module) = MAX_MAPPINGS
  /\ (module_num_mappings module <= MAX_MAPPINGS)%nat.

(** The stored regions after a merge: the last one has grown by the size
    of the fragment, and has kept its offset and its address. *)
Definition merged_regions (module : sentry_module_t)
    (last_mapping : sentry_mapped_region_t)
    (parsed : sentry_parsed_module_t) : list sentry_mapped_region_t :=
  <[(length (stored_regions module) - 1)%nat :=
      mk_region (region_offset last_mapping)
                (u64 (region_size last_mapping
                      + u64 (parsed_end parsed - parsed_start parsed)))
                (region_addr last_mapping)]>
    (stored_regions module).

(** No fragment of the list continues the region an earlier one opens. *)
Fixpoint non_mergeable (fragments : list sentry_parsed_module_t) : bool :=
  match fragments with
  | [] => true
  | f :: rest =>
      forallb (fun g => negb (contiguous_with (region_of_parsed f) g)) rest
      && non_mergeable rest
  end.

(** A module of one region, 4096 bytes of the file mapped at 0x7f0000000000,
    and a request whose size makes the end of the range wrap around. *)
Definition wrap_module : sentry_module_t :=
  mk_module null_slice
    (mk_region 0 4096 139637976727552 :: replicate 4 zero_region) 1.
Definition wrap_offset : Z := 2048.
Definition wrap_size : Z := 2 ^ 64 - 16.

(** Sample data: a library of which one region is stored, fragments of
    it, and six fragments that lie apart from one another. *)
Definition sample_file : sentry_slice_t :=
  mk_slice (Some (str "/lib/libsample.so")) 17.
Definition fragment (start end_ offset : Z) : sentry_parsed_module_t :=
  mk_parsed start end_ offset (str "r-xp" ++ [NUL]) sample_file.
Definition one_region_module : sentry_module_t :=
  mk_module sample_file
    (mk_region 0 4096 65536 :: replicate 4 zero_region) 1.
Definition six_fragments : list sentry_parsed_module_t :=
  [fragment 65536 69632 0; fragment 131072 135168 8192;
   fragment 196608 200704 16384; fragment 262144 266240 24576;
   fragment 327680 331776 32768; fragment 393216 397312 40960].
Definition five_region_module : sentry_module_t :=
  fold_left sentry__module_mapping_push (take 5 six_fragments) zero_module.

(** A memory image: the bytes of [image] from address [base] on, zero
    elsewhere. *)
Definition image_at (base : Z) (image : list Z) : memory :=
  fun a => if base <=? a then nth (Z.to_nat (a - base)) image 0 else 0.

Definition zeros (n : nat) : list Z := replicate n 0.

(** A 64-bit ELF image of 156 bytes: the header, one program header of
    type [PT_NOTE] and, at offset 120, a GNU build-id note whose descriptor
    is the 20 bytes 1, 2, ..., 20. *)
Definition note_image : list Z :=
  [127; 69; 76; 70; 2] ++ zeros 27 ++ le_bytes 8 64 ++ zeros 14
  ++ le_bytes 2 56 ++ le_bytes 2 1 ++ zeros 6
  ++ le_bytes 4 4 ++ zeros 4 ++ le_bytes 8 120 ++ zeros 16
  ++ le_bytes 8 36 ++ zeros 8 ++ le_bytes 8 4
  ++ le_bytes 4 4 ++ le_bytes 4 20 ++ le_bytes 4 3 ++ [71; 78; 85; 0]
  ++ List.map Z.of_nat (seq 1 20).

Definition note_memory : memory := image_at 65536 note_image.

(** A 64-bit ELF image of 220 bytes without program headers: the header,
    two section headers at offset 64 (the string table and [.text]), the
    section names at offset 192 and, at offset 200, the 20 bytes
    1, 2, ..., 20 of [.text]. *)
Definition text_image : list Z :=
  [127; 69; 76; 70; 2] ++ zeros 35 ++ le_bytes 8 64 ++ zeros 10
  ++ le_bytes 2 64 ++ le_bytes 2 2 ++ le_bytes 2 0
  ++ le_bytes 4 0 ++ le_bytes 4 3 ++ zeros 16 ++ le_bytes 8 192
  ++ le_bytes 8 8 ++ zeros 16 ++ le_bytes 8 8
  ++ le_bytes 4 1 ++ le_bytes 4 1 ++ zeros 16 ++ le_bytes 8 200
  ++ le_bytes 8 20 ++ zeros 24
  ++ [0; 46; 116; 101; 120; 116; 0; 0]
  ++ List.map Z.of_nat (seq 1 20).

Definition text_memory : memory := image_at 65536 text_image.

(** The value of a sequence of bytes, least and most significant byte
    first. *)
Definition le_value (bs : list Z) : Z :=
  fold_right (fun b acc => b + 2 ^ 8 * acc) 0 bs.
Definition be_value (bs : list Z) : Z :=
  fold_left (fun acc b => 2 ^ 8 * acc + b) bs 0.

(** A byte. *)
Definition is_byte (b : Z) : Prop := 0 <= b < 2 ^ 8.

(** The debug id of a code id as the specification words it: the first 16
    bytes, filled up with zeros, bytes 0-3 reversed, bytes 4-5 reversed,
    bytes 6-7 reversed, bytes 8-15 as they are. *)
Definition pad16 (code_id : list Z) : list Z :=
  take 16 (code_id ++ replicate 16 0).
Definition debug_id_of_code_id (code_id : list Z) : list Z :=
  let p := pad16 code_id in
  rev (take 4 p) ++ rev (take 2 (drop 4 p)) ++ rev (take 2 (drop 6 p))
  ++ drop 8 p.

(** The fallback identity as the specification words it: an accumulator of
    16 zero bytes into which byte [i] of the bytes is XORed at position
    [i mod 16]. *)
Definition xor_fold_bytes (bytes : list Z) : list Z :=
  fold_left (fun acc ib => xor_into acc (fst ib) (snd ib))
            (zip (seq 0 (length bytes)) bytes) nil_uuid.


(** The bytes of the [.text] section that the fallback folds: the first
    [min(size, 4096)] bytes of the section the header walk takes, none when
    it takes no section or gives up. *)
Definition text_bytes (host : byte_order) (mem : memory)
    (module : sentry_module_t) : list Z :=
  match locate_text host mem module with
  | None => []
  | Some (text, text_size) =>
      read_bytes mem text (Z.to_nat (MIN text_size 4096))
  end.

(** A list that can still be appended to, and a frozen one. *)
Definition is_open_list (v : sentry_value_t) : bool :=
  match v with VList false _ => true | _ => false end.
Definition is_frozen_list (v : sentry_value_t) : bool :=
  match v with VList true _ => true | _ => false end.

(** The states of the cache that calls of the two functions lead to, from
    the initial state on. *)
Inductive cache_reachable (zero_value : sentry_value_t) : cache_t -> Prop :=
  | reach_initial : cache_reachable zero_value (initial_cache zero_value)
  | reach_get (p : process_t) (c : cache_t) :
      cache_reachable zero_value c ->
      cache_reachable zero_value (fst (sentry_get_modules_list p c))
  | reach_clear (c : cache_t) :
      cache_reachable zero_value c ->
      cache_reachable zero_value (sentry_clear_modulecache c).

(** A process whose memory map shows the image [note_image] as one file. *)
Definition sample_process : process_t :=
  mk_process LittleEndian note_memory
    (Some (str "10000-11000 r-xp 00000000 08:01 42 /lib/libsample.so
"))
    None.
(** The same process after its memory map has changed. *)
Definition changed_process : process_t :=
  mk_process LittleEndian note_memory None None.

(** The filter on a line as the specification words it, for a line that
    is not the vDSO: the line is discarded when its start address is zero,
    its path is empty, its first permission character is not [r], its path
    ends in [)], holds no [/] or begins with [/dev/]. *)
Definition line_discarded (module : sentry_parsed_module_t) : bool :=
  let path := slice_chars (parsed_file module) in
  (parsed_start module =? 0)
  || bool_decide (path = [])
  || negb (Ascii.eqb (char_at (parsed_permissions module) 0) "r")
  || bool_decide (last path = Some ")"%char)
  || bool_decide ("/"%char ∉ path)
  || bool_decide (take 5 path = str "/dev/").

Definition filter_line_spec (module : sentry_parsed_module_t)
    (linux_vdso : Z) : option sentry_parsed_module_t :=
  if bool_decide (parsed_start module <> 0
                  /\ parsed_start module = linux_vdso)
  then Some (set_file module LINUX_GATE)
  else if line_discarded module then None
  else Some module.

(** The path of a parsed line: absent, or a slice of the buffer that is
    followed by the newline or by the end of the buffer. *)
Definition path_shape (file : sentry_slice_t) : Prop :=
  file = mk_slice None 0
  \/ exists rest k,
       file = mk_slice (Some rest) k
       /\ (k <= length rest)%nat
       /\ (char_at rest k = NL \/ char_at rest k = NUL).

(** ** The text of a memory-map line *)

(** The value of a run of digits. *)
Definition digits_value (digit : ascii -> option Z) (base : Z)
    (ds : list ascii) : Z :=
  fold_left (fun acc c => acc * base + default 0 (digit c)) ds 0.
Definition hex_value : list ascii -> Z := digits_value hex_digit 16.

(** A run of digits: not empty, digits throughout. *)
Definition digit_run (digit : ascii -> option Z) (ds : list ascii) : Prop :=
  ds <> [] /\ Forall (fun c => is_Some (digit c)) ds.

(** The fields of a line as text:
    [start-end perms offset major:minor inode], the padding and the path. *)
Record map_line_t : Type := mk_map_line {
  f_start : list ascii;
  f_end : list ascii;
  f_perms : list ascii;
  f_offset : list ascii;
  f_major : list ascii;
  f_minor : list ascii;
  f_inode : list ascii;
  f_pad : list ascii;
  f_path : list ascii
}.

(** The line up to the inode. *)
Definition line_fields (l : map_line_t) : list ascii :=
  f_start l ++ "-"%char :: f_end l ++ " "%char :: f_perms l
  ++ " "%char :: f_offset l ++ " "%char :: f_major l
  ++ ":"%char :: f_minor l ++ " "%char :: f_inode l.

(** The whole line, with its newline. *)
Definition line_text (l : map_line_t) : list ascii :=
  line_fields l ++ f_pad l ++ f_path l ++ [NL].

(** A well-formed line: hexadecimal addresses and offset that fit 64 bits,
    four permission characters, hexadecimal device numbers, a decimal inode,
    blanks as padding, and a path, if there is one, that is set off by
    padding, does not start with white space and holds no newline. *)
Definition well_formed_line (l : map_line_t) : Prop :=
  digit_run hex_digit (f_start l) /\ hex_value (f_start l) <= UINT64_MAX
  /\ digit_run hex_digit (f_end l) /\ hex_value (f_end l) <= UINT64_MAX
  /\ length (f_perms l) = 4%nat
  /\ Forall (fun c => isspace c = false) (f_perms l)
  /\ digit_run hex_digit (f_offset l)
  /\ hex_value (f_offset l) <= UINT64_MAX
  /\ digit_run hex_digit (f_major l)
  /\ digit_run hex_digit (f_minor l)
  /\ digit_run dec_digit (f_inode l)
  /\ Forall (fun c => c = " "%char) (f_pad l)
  /\ (NL ∉ f_path l)
  /\ (f_path l <> [] ->
      f_pad l <> []
      /\ exists c path, f_path l = c :: path /\ isspace c = false).

(** What the parser has to deliver for a line. *)
Definition parsed_of_line (l : map_line_t) (rest : list ascii)
  : sentry_parsed_module_t :=
  mk_parsed (hex_value (f_start l)) (hex_value (f_end l))
    (hex_value (f_offset l)) (f_perms l ++ [NUL])
    (match f_path l with
     | [] => mk_slice None 0
     | _ => mk_slice (Some (f_path l ++ NL :: rest)) (length (f_path l))
     end).

(** What the scanner accepts.  A number is an optional sign and then a
    digit run or, for [%x], the prefix [0x] with digits behind it or with
    none; a field is a number after any white space, newlines included. *)
Definition space_run (w : list ascii) : Prop :=
  Forall (fun c => isspace c = true) w.

Definition number_text (digit : ascii -> option Z) (prefix : bool)
    (t : list ascii) : Prop :=
  exists sign pre ds,
    t = sign ++ pre ++ ds
    /\ (sign = [] \/ sign = ["-"%char] \/ sign = ["+"%char])
    /\ Forall (fun c => is_Some (digit c)) ds
    /\ ((pre = [] /\ ds <> [])
        \/ (prefix = true
            /\ (pre = ["0"%char; "x"%char] \/ pre = ["0"%char; "X"%char]))).

Definition field_text (digit : ascii -> option Z) (prefix : bool)
    (f : list ascii) : Prop :=
  exists w t, f = w ++ t /\ space_run w /\ number_text digit prefix t.

(** A buffer from which the seven fields can be scanned: it starts with
    [start-end perms offset major:minor inode], white space and newlines
    being allowed in front of every field. *)
Definition scannable (buffer : list ascii) : Prop :=
  exists f1 f2 w perms f3 f4 f5 f6 rest,
    buffer = f1 ++ "-"%char :: f2 ++ w ++ perms ++ f3 ++ f4
             ++ ":"%char :: f5 ++ f6 ++ rest
    /\ field_text hex_digit true f1 /\ field_text hex_digit true f2
    /\ space_run w /\ length perms = 4%nat
    /\ field_text hex_digit true f3 /\ field_text hex_digit true f4
    /\ field_text hex_digit true f5 /\ field_text dec_digit false f6.



(** ** Further sample data *)

(** Two regions that follow one another in memory but not in the file: the
    second one maps the file from offset 0x2000 on. *)
Definition file_gap_module : sentry_module_t :=
  mk_module sample_file
    (mk_region 0 4096 65536 :: mk_region 8192 4096 69632
     :: replicate 3 zero_region) 2.

(** Fragments that follow one another without a gap, in memory from
    [addr_end] on and in the file from [offset_end] on. *)
Fixpoint contiguous_run (addr_end offset_end : Z)
    (fragments : list sentry_parsed_module_t) : Prop :=
  match fragments with
  | [] => True
  | g :: rest =>
      parsed_start g = addr_end /\ parsed_offset g = offset_end
      /\ addr_end <= parsed_end g < 2 ^ 64
      /\ offset_end + (parsed_end g - addr_end) < 2 ^ 64
      /\ contiguous_run (parsed_end g)
           (offset_end + (parsed_end g - addr_end)) rest
  end.

(** The end address of the last fragment of a run that starts with [f]. *)
Definition run_end (f : sentry_parsed_module_t)
    (fragments : list sentry_parsed_module_t) : Z :=
  parsed_end (List.last fragments f).

(** The second and the third of three fragments of one file that follow
    one another, the first being [fragment 65536 69632 0]. *)
Definition three_fragments : list sentry_parsed_module_t :=
  [fragment 69632 73728 4096; fragment 73728 81920 8192].

(** Where the note scan goes on after the note at [note]: behind the
    aligned name and the aligned descriptor. *)
Definition next_note (host : byte_order) (mem : memory) (alignment note : Z)
  : Z :=
  align alignment
    (align alignment (note + sizeof_Elf64_Nhdr + n_namesz host mem note)
     + n_descsz host mem note).

(** A note segment of two notes, the first of another type (1) with the
    name "GNU" and a descriptor of 4 bytes, the second the build id of
    [note_image]. *)
Definition two_notes : list Z :=
  le_bytes 4 4 ++ le_bytes 4 4 ++ le_bytes 4 1 ++ [71; 78; 85; 0]
  ++ [9; 9; 9; 9]
  ++ le_bytes 4 4 ++ le_bytes 4 20 ++ le_bytes 4 3 ++ [71; 78; 85; 0]
  ++ List.map Z.of_nat (seq 1 20).
Definition two_notes_memory : memory := image_at 4096 two_notes.

(** The class of an ELF image as the module finder reads it: the 64-bit
    structures for [ELFCLASS64], the 32-bit ones for every other class
    byte. *)
Definition class_of (mem : memory) (e_ident : Z) : elf_class :=
  if load8 mem (e_ident + EI_CLASS) =? ELFCLASS64 then ELF64 else ELF32.

Definition sizeof_Ehdr (c : elf_class) : Z :=
  match c with ELF64 => sizeof_Elf64_Ehdr | ELF32 => sizeof_Elf32_Ehdr end.

(** The address of program header [i], if it can be translated. *)
Definition program_header (host : byte_order) (mem : memory)
    (c : elf_class) (module : sentry_module_t) (elf : Z) (i : nat)
  : option Z :=
  sentry__module_get_addr module
    (table_entry c (e_phoff host mem c elf) (e_phentsize host mem c elf)
       (Z.of_nat i))
    (e_phentsize host mem c elf).

(** The image [note_image] with only its first 100 bytes mapped: the ELF
    header can be read, the program header at offset 64 cannot. *)
Definition short_module : sentry_module_t :=
  mk_module sample_file
    (mk_region 0 100 65536 :: replicate 4 zero_region) 1.

Definition be_bytes (n : nat) (v : Z) : list Z := rev (le_bytes n v).

(** A field of the identifier put in network byte order: the value that
    its bytes have on the host, written most significant byte first. *)
Definition host_value (host : byte_order) (bs : list Z) : Z :=
  match host with
  | LittleEndian => le_value bs
  | BigEndian => be_value bs
  end.
Definition network_order (host : byte_order) (bs : list Z) : list Z :=
  be_bytes (length bs) (host_value host bs).

(** The debug id of a code id on a host of either byte order: the first
    16 bytes, filled up with zeros, the fields of bytes 0-3, 4-5 and 6-7
    each put in network byte order, bytes 8-15 as they are. *)
Definition debug_id_in_network_order (host : byte_order)
    (code_id : list Z) : list Z :=
  let p := pad16 code_id in
  network_order host (take 4 p) ++ network_order host (take 2 (drop 4 p))
  ++ network_order host (take 2 (drop 6 p)) ++ drop 8 p.

(** The image [note_image] as a big-endian machine stores it. *)
Definition note_image_be : list Z :=
  [127; 69; 76; 70; 2] ++ zeros 27 ++ be_bytes 8 64 ++ zeros 14
  ++ be_bytes 2 56 ++ be_bytes 2 1 ++ zeros 6
  ++ be_bytes 4 4 ++ zeros 4 ++ be_bytes 8 120 ++ zeros 16
  ++ be_bytes 8 36 ++ zeros 8 ++ be_bytes 8 4
  ++ be_bytes 4 4 ++ be_bytes 4 20 ++ be_bytes 4 3 ++ [71; 78; 85; 0]
  ++ List.map Z.of_nat (seq 1 20).
Definition note_memory_be : memory := image_at 65536 note_image_be.

(** An auxiliary vector: [AT_PAGESZ], [AT_SYSINFO_EHDR], [AT_NULL]. *)
Definition sample_auxv : list (Z * Z) :=
  [(6, 4096); (33, 140737354125312); (0, 0)].

(** The line of the specification's example, as text. *)
Definition libc_line : map_line_t :=
  mk_map_line (str "7f1234560000") (str "7f1234580000") (str "r-xp")
    (str "00000000") (str "08") (str "01") (str "131073")
    (str "                    ") (str "/lib/x86_64-linux-gnu/libc.so.6").

(** An anonymous mapping: padding and no path. *)
Definition anonymous_line : map_line_t :=
  mk_map_line (str "7ffd1000") (str "7ffd3000") (str "rw-p")
    (str "00000000") (str "00") (str "00") (str "0") (str " ") [].

(** A value that is a descriptor of an ELF module. *)
Definition is_elf_descriptor (v : sentry_value_t) : Prop :=
  sentry_value_get_by_key v (str "type") = VString (str "elf").

(** The address of section header [i], if it can be translated. *)
Definition section_header (host : byte_order) (mem : memory)
    (c : elf_class) (module : sentry_module_t) (elf : Z) (i : Z)
  : option Z :=
  sentry__module_get_addr module
    (table_entry c (e_shoff host mem c elf) (e_shentsize host mem c elf) i)
    (e_shentsize host mem c elf).


(** * Properties *)

Ltac u64_norm :=
  unfold u64, UINT64_MAX in *;
  change (2 ^ 64) with 18446744073709551616 in *.

Lemma u64_small (x : Z) : 0 <= x < 2 ^ 64 -> u64 x = x.
Proof. intros H. unfold u64. apply Z.mod_small. exact H. Qed.

Lemma u64_wrapped (x : Z) :
  2 ^ 64 <= x < 2 * 2 ^ 64 -> u64 x = x - 2 ^ 64.
Proof.
  intros H. u64_norm. symmetry.
  apply (Z.mod_unique_pos _ _ 1). - lia. - lia.
Qed.

Lemma u64_range (x : Z) : 0 <= u64 x < 2 ^ 64.
Proof. unfold u64. apply Z.mod_pos_bound. reflexivity. Qed.

(** ** Address translation *)

Lemma get_addr_loop_sound (all : list sentry_mapped_region_t)
    (start_offset size : Z) (Hwf : forall r, r ∈ all -> region_wf r)
    (mappings : list sentry_mapped_region_t) :
  forall addr addr_end A,
    (forall r, r ∈ mappings -> r ∈ all) ->
    0 <= start_offset < 2 ^ 64 -> 0 <= size ->
    translate_inv all start_offset addr addr_end ->
    get_addr_loop mappings addr addr_end start_offset size = Some A ->
    A + size < 2 ^ 64 ->
    (exists r, r ∈ all /\ in_file_range r start_offset
               /\ A = start_offset - region_offset r + region_addr r)
    /\ range_mapped all A size.
Proof.
  induction mappings as [|m rest IH]; intros addr addr_end A Hin Hoff Hsz Hinv Hrun HA.
  - discriminate.
  - assert (Hmall : m ∈ all) by (apply Hin; left).
    destruct (Hwf m Hmall) as (Hmo & Hms & Hma & Hme).
    assert (Hrest : forall r, r ∈ rest -> r ∈ all)
      by (intros r Hr; apply Hin; right; exact Hr).
    simpl in Hrun.
    destruct (negb (addr =? 0) && (addr_end <? region_addr m)) eqn:Hgap;
      [discriminate|].
    set (hit := (region_offset m <=? start_offset)
                && (start_offset
                    <? u64 (region_offset m + region_size m))) in Hrun.
    assert (Hstep : translate_inv all start_offset
              (if hit then u64 (u64 (start_offset - region_offset m)
                                + region_addr m) else addr)
              (u64 (region_addr m + region_size m))).
    { destruct hit eqn:Hhit; subst hit.
      - apply andb_true_iff in Hhit as [H1 H2].
        apply Z.leb_le in H1. apply Z.ltb_lt in H2.
        right.
        assert (Hno : region_offset m + region_size m < 2 ^ 64).
        { destruct (Z_lt_ge_dec (region_offset m + region_size m) (2 ^ 64));
            [assumption|].
          rewrite u64_wrapped in H2 by lia. lia. }
        rewrite (u64_small (region_offset m + region_size m)) in H2 by lia.
        rewrite (u64_small (start_offset - region_offset m)) by lia.
        rewrite (u64_small (start_offset - region_offset m + region_addr m))
          by lia.
        rewrite (u64_small (region_addr m + region_size m)) by lia.
        split.
        + exists m. unfold in_file_range. repeat split; auto; lia.
        + intros x Hx. exists m. unfold in_mapped_range. split; auto. lia.
      - destruct Hinv as [H0 | [Hcand Hcov]]; [left; exact H0|].
        destruct (Z.eqb_spec addr 0) as [H0 | Hn0]; [left; exact H0|].
        right. split; [exact Hcand|].
        destruct (addr =? 0) eqn:E; [apply Z.eqb_eq in E; contradiction|].
        simpl in Hgap. apply Z.ltb_ge in Hgap.
        rewrite (u64_small (region_addr m + region_size m)) by lia.
        intros x Hx.
        destruct (Z_lt_ge_dec x addr_end) as [Hlt | Hge].
        + apply Hcov. lia.
        + exists m. unfold in_mapped_range. split; auto. lia. }
    destruct (negb ((if hit then _ else addr) =? 0)
              && (u64 ((if hit then _ else addr) + size)
                  <=? u64 (region_addr m + region_size m))) eqn:Hfit.
    + injection Hrun as HA'. rewrite HA' in Hfit, Hstep.
      apply andb_true_iff in Hfit as [Hnz Hle].
      apply negb_true_iff, Z.eqb_neq in Hnz. apply Z.leb_le in Hle.
      destruct Hstep as [H0 | [Hcand Hcov]]; [contradiction|].
      split; [exact Hcand|].
      intros x Hx. apply Hcov.
      destruct Hcand as (r & Hrall & Hr & Heq). unfold in_file_range in Hr.
      destruct (Hwf r Hrall) as (? & ? & ? & ?).
      rewrite (u64_small (A + size)) in Hle by lia. lia.
    + eapply IH; eauto.
Qed.

(** Without wrap-around the translation is sound: the address comes from a
    region whose file range holds the offset, and all the bytes asked for
    are mapped. *)
Lemma get_addr_sound_without_overflow (module : sentry_module_t)
    (start_offset size A : Z) :
  (forall r, r ∈ stored_regions module -> region_wf r) ->
  0 <= start_offset < 2 ^ 64 -> 0 <= size ->
  sentry__module_get_addr module start_offset size = Some A ->
  A + size < 2 ^ 64 ->
  (exists r, r ∈ stored_regions module /\ in_file_range r start_offset
             /\ A = start_offset - region_offset r + region_addr r)
  /\ range_mapped (stored_regions module) A size.
Proof.
  intros Hwf Hoff Hsz Hrun HA.
  eapply (get_addr_loop_sound (stored_regions module) start_offset size Hwf
            (stored_regions module) 0 UINT64_MAX A); auto.
  left. reflexivity.
Qed.

(** C1 (fails on the code): the translation has to refuse every request
    whose bytes are not all mapped.  For a region of 4096 bytes the request
    (2048, 2^64 - 16) is answered with an address although the range from it
    runs out of the region: the sum [addr + size] wraps around. *)
Theorem C1_get_addr_accepts_wrapped_range :
  sentry__module_get_addr wrap_module wrap_offset wrap_size
  = Some 139637976729600
  /\ ~ range_mapped (stored_regions wrap_module) 139637976729600 wrap_size.
Proof.
  split; [reflexivity|].
  intros Hmapped.
  destruct (Hmapped 139637976736000) as (r & Hr & Hx).
  - unfold wrap_size. lia.
  - unfold stored_regions, wrap_module in Hr. simpl in Hr.
    apply list_elem_of_singleton in Hr. subst r.
    unfold in_mapped_range in Hx. simpl in Hx. lia.
Qed.

(** ** Coalescing *)

Lemma contiguous_with_spec (last_mapping : sentry_mapped_region_t)
    (parsed : sentry_parsed_module_t) :
  contiguous_with last_mapping parsed = true
  <-> (u64 (region_addr last_mapping + region_size last_mapping)
       = parsed_start parsed
       /\ u64 (region_offset last_mapping + region_size last_mapping)
          = parsed_offset parsed).
Proof.
  unfold contiguous_with. rewrite andb_true_iff, !Z.eqb_eq. reflexivity.
Qed.

Lemma stored_regions_length (module : sentry_module_t) :
  module_wf module ->
  length (stored_regions module) = module_num_mappings module.
Proof.
  intros [Hlen Hn]. unfold stored_regions. rewrite length_take. lia.
Qed.

Lemma last_stored_region (module : sentry_module_t) :
  module_wf module ->
  last (stored_regions module)
  = if (0 <? module_num_mappings module)%nat
    then module_mappings module !! (module_num_mappings module - 1)%nat
    else None.
Proof.
  intros Hwf. pose proof (stored_regions_length module Hwf) as Hlen.
  rewrite last_lookup, Hlen.
  destruct (module_num_mappings module) as [|n] eqn:Hn; simpl.
  - apply lookup_ge_None_2. lia.
  - unfold stored_regions. rewrite Hn. rewrite lookup_take_lt by lia.
    f_equal. lia.
Qed.

(** A new entry, when there is room, goes behind the stored regions. *)
Lemma stored_push_new_entry (module : sentry_module_t)
    (parsed : sentry_parsed_module_t) :
  module_wf module -> (module_num_mappings module < MAX_MAPPINGS)%nat ->
  stored_regions (push_new_entry module parsed)
  = stored_regions module ++ [region_of_parsed parsed].
Proof.
  intros [Hlen Hn] Hlt. unfold push_new_entry.
  destruct (Nat.ltb_spec (module_num_mappings module) MAX_MAPPINGS); [|lia].
  unfold stored_regions. simpl.
  rewrite (take_S_r _ _ (region_of_parsed parsed)).
  - rewrite take_insert_ge by lia. reflexivity.
  - apply list_lookup_insert_eq. lia.
Qed.

(** Without room the module is left as it is. *)
Lemma push_new_entry_full (module : sentry_module_t)
    (parsed : sentry_parsed_module_t) :
  (MAX_MAPPINGS <= module_num_mappings module)%nat ->
  push_new_entry module parsed = module.
Proof.
  intros Hge. unfold push_new_entry.
  destruct (Nat.ltb_spec (module_num_mappings module) MAX_MAPPINGS);
    [lia | reflexivity].
Qed.

Lemma push_with_last (module : sentry_module_t)
    (parsed : sentry_parsed_module_t)
    (last_mapping : sentry_mapped_region_t) :
  module_wf module ->
  last (stored_regions module) = Some last_mapping ->
  sentry__module_mapping_push module parsed
  = if contiguous_with last_mapping parsed
    then mk_module (module_file module)
           (<[(module_num_mappings module - 1)%nat :=
                grow_region last_mapping
                  (u64 (parsed_end parsed - parsed_start parsed))]>
              (module_mappings module))
           (module_num_mappings module)
    else push_new_entry module parsed.
Proof.
  intros Hwf Hlast. rewrite last_stored_region in Hlast by exact Hwf.
  unfold sentry__module_mapping_push.
  destruct (0 <? module_num_mappings module)%nat; [|discriminate].
  rewrite Hlast. reflexivity.
Qed.

(** C2: with a last stored region, the fragment is merged into it exactly
    when it continues it both in memory and in the file; the merge grows the
    size of that region and nothing else; otherwise, under the cap, the
    fragment becomes a new region behind the stored ones. *)
Theorem C2_push_merges_iff_contiguous (module : sentry_module_t)
    (parsed : sentry_parsed_module_t)
    (last_mapping : sentry_mapped_region_t) :
  module_wf module ->
  last (stored_regions module) = Some last_mapping ->
  let contiguous :=
    u64 (region_addr last_mapping + region_size last_mapping)
    = parsed_start parsed
    /\ u64 (region_offset last_mapping + region_size last_mapping)
       = parsed_offset parsed in
  let pushed := sentry__module_mapping_push module parsed in
  (contiguous ->
     stored_regions pushed = merged_regions module last_mapping parsed
     /\ module_num_mappings pushed = module_num_mappings module)
  /\ (~ contiguous -> (module_num_mappings module < MAX_MAPPINGS)%nat ->
        stored_regions pushed
        = stored_regions module ++ [region_of_parsed parsed]
        /\ module_num_mappings pushed = S (module_num_mappings module))
  /\ ((module_num_mappings module < MAX_MAPPINGS)%nat ->
        (stored_regions pushed = merged_regions module last_mapping parsed
         <-> contiguous)).
Proof.
  intros Hwf Hlast contiguous pushed.
  pose proof (stored_regions_length module Hwf) as Hlen.
  pose proof (push_with_last module parsed last_mapping Hwf Hlast) as Hpush.
  assert (Hpos : (0 < module_num_mappings module)%nat).
  { rewrite <- Hlen. destruct (stored_regions module); [discriminate|].
    simpl. lia. }
  assert (Hspec : contiguous_with last_mapping parsed = true <-> contiguous)
    by apply contiguous_with_spec.
  assert (Hmerge : contiguous ->
            stored_regions pushed = merged_regions module last_mapping parsed
            /\ module_num_mappings pushed = module_num_mappings module).
  { intros Hc. apply Hspec in Hc.
    subst pushed. rewrite Hpush, Hc.
    unfold merged_regions, stored_regions at 1. simpl.
    rewrite Hlen. split; [|reflexivity].
    rewrite take_insert_lt by lia. reflexivity. }
  assert (Hnew : ~ contiguous ->
            (module_num_mappings module < MAX_MAPPINGS)%nat ->
            stored_regions pushed
            = stored_regions module ++ [region_of_parsed parsed]
            /\ module_num_mappings pushed = S (module_num_mappings module)).
  { intros Hc Hlt. rewrite <- Hspec in Hc.
    apply not_true_is_false in Hc.
    subst pushed. rewrite Hpush, Hc.
    split; [apply stored_push_new_entry; assumption|].
    unfold push_new_entry.
    destruct (Nat.ltb_spec (module_num_mappings module) MAX_MAPPINGS);
      [reflexivity | lia]. }
  split; [exact Hmerge|]. split; [exact Hnew|].
  intros Hlt. split; [|apply Hmerge].
  intros Heq.
  destruct (contiguous_with last_mapping parsed) eqn:Hc.
  - apply Hspec. reflexivity.
  - exfalso.
    assert (Hn : ~ contiguous) by (intros X; apply Hspec in X; discriminate).
    destruct (Hnew Hn Hlt) as [Happ _].
    rewrite Happ in Heq. apply (f_equal length) in Heq.
    unfold merged_regions in Heq.
    rewrite length_app, length_insert in Heq. simpl in Heq. lia.
Qed.

Lemma push_new_entry_wf (module : sentry_module_t)
    (parsed : sentry_parsed_module_t) :
  module_wf module -> module_wf (push_new_entry module parsed).
Proof.
  intros [Hlen Hn]. unfold push_new_entry.
  destruct (Nat.ltb_spec (module_num_mappings module) MAX_MAPPINGS).
  - split; simpl; [rewrite length_insert; exact Hlen | lia].
  - split; assumption.
Qed.

Lemma push_wf (module : sentry_module_t) (parsed : sentry_parsed_module_t) :
  module_wf module -> module_wf (sentry__module_mapping_push module parsed).
Proof.
  intros Hwf. unfold sentry__module_mapping_push.
  destruct (0 <? module_num_mappings module)%nat;
    [|apply push_new_entry_wf; exact Hwf].
  destruct (module_mappings module !! _) as [l|];
    [|apply push_new_entry_wf; exact Hwf].
  destruct (contiguous_with l parsed); [|apply push_new_entry_wf; exact Hwf].
  destruct Hwf as [Hlen Hn]. split; simpl;
    [rewrite length_insert; exact Hlen | exact Hn].
Qed.

(** A push that does not merge is a push of a new entry. *)
Lemma push_not_contiguous (module : sentry_module_t)
    (parsed : sentry_parsed_module_t) :
  module_wf module ->
  (forall l, last (stored_regions module) = Some l ->
             contiguous_with l parsed = false) ->
  sentry__module_mapping_push module parsed = push_new_entry module parsed.
Proof.
  intros Hwf Hnc.
  destruct (last (stored_regions module)) as [l|] eqn:Hlast.
  - rewrite (push_with_last module parsed l Hwf Hlast).
    rewrite (Hnc l eq_refl). reflexivity.
  - rewrite last_stored_region in Hlast by exact Hwf.
    unfold sentry__module_mapping_push.
    destruct (0 <? module_num_mappings module)%nat; [|reflexivity].
    rewrite Hlast. reflexivity.
Qed.

Lemma non_mergeable_snoc (fragments : list sentry_parsed_module_t)
    (g : sentry_parsed_module_t) :
  non_mergeable (fragments ++ [g]) = true ->
  non_mergeable fragments = true
  /\ forall f, f ∈ fragments ->
       contiguous_with (region_of_parsed f) g = false.
Proof.
  induction fragments as [|f0 rest IH]; simpl; intros H.
  - split; [reflexivity|]. intros f Hf. inversion Hf.
  - apply andb_true_iff in H as [Hall Hrest].
    rewrite forallb_app in Hall. apply andb_true_iff in Hall as [Hall Hg].
    simpl in Hg. rewrite andb_true_r in Hg. apply negb_true_iff in Hg.
    destruct (IH Hrest) as [IH1 IH2].
    split; [rewrite Hall, IH1; reflexivity|].
    intros f Hf. apply elem_of_cons in Hf as [-> | Hf]; [exact Hg|].
    apply IH2. exact Hf.
Qed.

(** Pushing fragments none of which continues an earlier one keeps the
    first [MAX_MAPPINGS] of them. *)
Lemma push_all_non_mergeable (fragments : list sentry_parsed_module_t) :
  non_mergeable fragments = true ->
  let module := fold_left sentry__module_mapping_push fragments zero_module in
  module_wf module
  /\ stored_regions module
     = take MAX_MAPPINGS (List.map region_of_parsed fragments).
Proof.
  induction fragments as [|g fs IH] using rev_ind; intros Hnm.
  - simpl. split; [split; simpl; [reflexivity | unfold MAX_MAPPINGS; lia]
                  | reflexivity].
  - apply non_mergeable_snoc in Hnm as [Hfs Hg].
    specialize (IH Hfs). simpl in IH. destruct IH as [Hwf Hst].
    simpl. rewrite fold_left_app. simpl.
    set (m := fold_left sentry__module_mapping_push fs zero_module) in *.
    split; [apply push_wf; exact Hwf|].
    pose proof (stored_regions_length m Hwf) as Hlen.
    rewrite push_not_contiguous; [|exact Hwf|].
    + rewrite List.map_app. simpl.
      rewrite Hst, length_take, length_map in Hlen.
      destruct (Nat.lt_ge_cases (module_num_mappings m) MAX_MAPPINGS)
        as [Hlt | Hge].
      * rewrite stored_push_new_entry by assumption.
        rewrite Hst. rewrite take_app_ge by (rewrite length_map; lia).
        rewrite !take_ge by (simpl; rewrite ?length_map; lia).
        reflexivity.
      * rewrite push_new_entry_full by exact Hge.
        rewrite Hst. rewrite take_app_le by (rewrite length_map; lia).
        reflexivity.
    + intros l Hl. rewrite Hst in Hl.
      assert (Hin : l ∈ take MAX_MAPPINGS (List.map region_of_parsed fs)).
      { rewrite last_lookup in Hl. eapply list_elem_of_lookup_2. exact Hl. }
      apply elem_of_take in Hin as (i & Hi & _).
      apply list_elem_of_lookup_2 in Hi.
      apply list_elem_of_In, in_map_iff in Hi as (f & <- & Hf).
      apply Hg. apply list_elem_of_In. exact Hf.
Qed.

Lemma zero_module_wf : module_wf zero_module.
Proof. split; simpl; [reflexivity | unfold MAX_MAPPINGS; lia]. Qed.

(** The module that any sequence of pushes builds keeps the array and the
    bound on the count. *)
Lemma push_all_wf (fragments : list sentry_parsed_module_t)
    (module : sentry_module_t) :
  module_wf module ->
  module_wf (fold_left sentry__module_mapping_push fragments module).
Proof.
  revert module. induction fragments as [|g fs IH]; intros module Hwf;
    [exact Hwf|].
  simpl. apply IH, push_wf, Hwf.
Qed.

(** C3: the count of stored regions never exceeds five: a push onto a
    module whose count is at most five leaves it at most five, and so does
    any sequence of pushes from the zeroed module on; a fragment pushed
    onto five stored regions that does not continue the last one leaves the
    module as it is; six fragments none of which continues another leave
    a count of exactly five, the regions stored being those of the first
    five. *)
Theorem C3_at_most_five_regions (module : sentry_module_t)
    (parsed : sentry_parsed_module_t)
    (any fragments : list sentry_parsed_module_t) :
  module_wf module ->
  non_mergeable fragments = true ->
  let pushed := fold_left sentry__module_mapping_push fragments zero_module in
  (module_num_mappings (sentry__module_mapping_push module parsed)
   <= MAX_MAPPINGS)%nat
  /\ (module_num_mappings
        (fold_left sentry__module_mapping_push any zero_module)
      <= MAX_MAPPINGS)%nat
  /\ (module_num_mappings module = MAX_MAPPINGS ->
      (forall l, last (stored_regions module) = Some l ->
                 contiguous_with l parsed = false) ->
      sentry__module_mapping_push module parsed = module)
  /\ stored_regions pushed
     = take MAX_MAPPINGS (List.map region_of_parsed fragments)
  /\ (length fragments = 6%nat ->
      module_num_mappings pushed = 5%nat
      /\ length (stored_regions pushed) = 5%nat).
Proof.
  intros Hwf Hnm pushed.
  destruct (push_all_non_mergeable fragments Hnm) as [Hpwf Hst].
  fold pushed in Hpwf, Hst.
  split; [apply (push_wf module parsed Hwf)|].
  split; [apply (push_all_wf any zero_module zero_module_wf)|].
  split.
  { intros Hfull Hnc. rewrite push_not_contiguous by assumption.
    apply push_new_entry_full. lia. }
  split; [exact Hst|].
  intros Hsix.
  assert (Hlen : length (stored_regions pushed) = 5%nat)
    by (rewrite Hst, length_take, length_map, Hsix; reflexivity).
  split; [|exact Hlen].
  rewrite <- (stored_regions_length pushed Hpwf). exact Hlen.
Qed.

Lemma C2_push_merges_witness :
  (stored_regions
     (sentry__module_mapping_push one_region_module
        (fragment 69632 73728 4096))
   = [mk_region 0 8192 65536])
  /\ (stored_regions
        (sentry__module_mapping_push one_region_module
           (fragment 69632 73728 8192))
      = [mk_region 0 4096 65536; mk_region 8192 4096 69632]).
Proof.
  assert (Hwf : module_wf one_region_module)
    by (split; simpl; [reflexivity | unfold MAX_MAPPINGS; lia]).
  assert (Hlast : last (stored_regions one_region_module)
                  = Some (mk_region 0 4096 65536)) by reflexivity.
  split.
  - pose proof (C2_push_merges_iff_contiguous one_region_module
                  (fragment 69632 73728 4096) (mk_region 0 4096 65536)
                  Hwf Hlast) as H.
    cbv zeta in H. destruct H as [H _].
    destruct H as [H _]; [split; reflexivity | vm_compute in H; exact H].
  - pose proof (C2_push_merges_iff_contiguous one_region_module
                  (fragment 69632 73728 8192) (mk_region 0 4096 65536)
                  Hwf Hlast) as H.
    cbv zeta in H. destruct H as [_ [H _]].
    destruct H as [H _];
      [ | vm_compute; lia | vm_compute in H; exact H].
    intros [_ Hoff]. vm_compute in Hoff. discriminate.
Defined.

Lemma C3_at_most_five_regions_witness :
  sentry__module_mapping_push five_region_module (fragment 393216 397312 40960)
  = five_region_module
  /\ module_num_mappings
       (fold_left sentry__module_mapping_push six_fragments zero_module)
     = 5%nat.
Proof.
  assert (Hwf : module_wf five_region_module)
    by (split; vm_compute; [reflexivity | lia]).
  assert (Hnm : non_mergeable six_fragments = true) by reflexivity.
  pose proof (C3_at_most_five_regions five_region_module
                (fragment 393216 397312 40960) six_fragments six_fragments
                Hwf Hnm) as H.
  cbv zeta in H. destruct H as (_ & _ & Hfull & _ & Hsix).
  split.
  - apply Hfull; [reflexivity|].
    intros l Hl. vm_compute in Hl. injection Hl as <-. reflexivity.
  - apply Hsix. reflexivity.
Defined.

(** ** Conversion of a module to a descriptor *)

Lemma is_elf_module_magic (host : byte_order) (mem : memory)
    (module : sentry_module_t) (e_ident : Z) :
  sentry__module_get_addr module 0 EI_NIDENT = Some e_ident ->
  is_elf_module mem module
  = bool_decide (read_bytes mem e_ident 4
                 = [ELFMAG0; ELFMAG1; ELFMAG2; ELFMAG3]).
Proof.
  intros He. unfold is_elf_module. rewrite He.
  unfold read_bytes. simpl. rewrite !Z.add_0_r.
  change (Z.of_nat 1) with 1. change (Z.of_nat 2) with 2.
  change (Z.of_nat 3) with 3.
  destruct (Z.eqb_spec (load8 mem e_ident) ELFMAG0) as [-> | N0];
    [|rewrite bool_decide_eq_false_2; [reflexivity | congruence]].
  destruct (Z.eqb_spec (load8 mem (e_ident + 1)) ELFMAG1) as [-> | N1];
    [|rewrite bool_decide_eq_false_2; [reflexivity | congruence]].
  destruct (Z.eqb_spec (load8 mem (e_ident + 2)) ELFMAG2) as [-> | N2];
    [|rewrite bool_decide_eq_false_2; [reflexivity | congruence]].
  destruct (Z.eqb_spec (load8 mem (e_ident + 3)) ELFMAG3) as [-> | N3];
    [|rewrite bool_decide_eq_false_2; [reflexivity | congruence]].
  rewrite bool_decide_eq_true_2; reflexivity.
Qed.

(** C8: a module whose first bytes cannot be translated, or are not the
    ELF magic, is converted to the null value, and appending it leaves the
    list of modules as it is; the turn of the enumeration that is done with
    such a module goes on with the list as it was. *)
Theorem C8_non_elf_module_is_dropped (host : byte_order) (mem : memory)
    (module : sentry_module_t) (modules : sentry_value_t) :
  (sentry__module_get_addr module 0 EI_NIDENT = None
   \/ exists e_ident,
        sentry__module_get_addr module 0 EI_NIDENT = Some e_ident
        /\ read_bytes mem e_ident 4 <> [127; 69; 76; 70]) ->
  sentry__procmaps_module_to_value host mem module = VNull
  /\ try_append_module host mem modules module = modules
  /\ (forall linux_vdso parsed,
        fst (load_step host mem linux_vdso (modules, module) parsed)
        = modules).
Proof.
  intros Hbad.
  assert (Helf : is_elf_module mem module = false).
  { destruct Hbad as [Hnone | (e & He & Hmagic)].
    - unfold is_elf_module. rewrite Hnone. reflexivity.
    - rewrite (is_elf_module_magic host mem module e He).
      apply bool_decide_eq_false_2. exact Hmagic. }
  assert (Hnull : sentry__procmaps_module_to_value host mem module = VNull).
  { unfold sentry__procmaps_module_to_value. rewrite Helf. reflexivity. }
  assert (Happend : try_append_module host mem modules module = modules).
  { unfold try_append_module. rewrite Hnull.
    destruct (slice_ptr (module_file module)); reflexivity. }
  split; [exact Hnull|]. split; [exact Happend|].
  intros linux_vdso parsed. unfold load_step.
  destruct (filter_line parsed linux_vdso) as [kept|]; [|reflexivity].
  destruct (_ && _); simpl; [exact Happend | reflexivity].
Qed.

Lemma C8_non_elf_module_witness :
  sentry__procmaps_module_to_value LittleEndian (fun _ => 0)
    one_region_module = VNull
  /\ try_append_module LittleEndian (fun _ => 0) sentry_value_new_list
       one_region_module = sentry_value_new_list.
Proof.
  destruct (C8_non_elf_module_is_dropped LittleEndian (fun _ => 0)
              one_region_module sentry_value_new_list) as (H1 & H2 & _).
  - right. exists 65536. split; [reflexivity|].
    vm_compute. discriminate.
  - split; [exact H1 | exact H2].
Defined.

Lemma to_int32_spec (z : Z) :
  - 2 ^ 31 <= to_int32 z < 2 ^ 31 /\ to_int32 z mod 2 ^ 32 = z mod 2 ^ 32.
Proof.
  unfold to_int32.
  pose proof (Z.mod_pos_bound z (2 ^ 32) eq_refl) as Hb.
  destruct (Z.ltb_spec (z mod 2 ^ 32) (2 ^ 31)).
  - split; [lia|]. apply Z.mod_mod. discriminate.
  - split; [lia|].
    replace (z mod 2 ^ 32 - 2 ^ 32) with (z mod 2 ^ 32 + (-1) * 2 ^ 32)
      by ring.
    rewrite Z.mod_add by discriminate. apply Z.mod_mod. discriminate.
Qed.

Lemma u64_mod_32 (z : Z) : u64 z mod 2 ^ 32 = z mod 2 ^ 32.
Proof.
  unfold u64. apply Z.mod_mod_divide. exists (2 ^ 32). reflexivity.
Qed.

Lemma elf_module_has_region (mem : memory) (module : sentry_module_t) :
  is_elf_module mem module = true ->
  (0 < module_num_mappings module)%nat.
Proof.
  unfold is_elf_module, sentry__module_get_addr, stored_regions.
  intros H. destruct (module_num_mappings module); [|lia].
  simpl in H. discriminate H.
Qed.

Lemma descriptor_fields (host : byte_order) (mem : memory)
    (module : sentry_module_t) :
  is_elf_module mem module = true ->
  let v := sentry__procmaps_module_to_value host mem module in
  sentry_value_get_by_key v (str "image_addr")
  = VAddr (region_addr (mapping_at module 0))
  /\ sentry_value_get_by_key v (str "image_size")
     = VInt32 (to_int32
                 (u64 (region_offset
                         (mapping_at module (module_num_mappings module - 1))
                       + region_size
                           (mapping_at module
                              (module_num_mappings module - 1))))).
Proof.
  intros Helf. unfold sentry__procmaps_module_to_value. rewrite Helf.
  unfold sentry__procmaps_read_ids_from_elf.
  destruct (get_code_id_from_elf host mem module) as [[code_id sz]|];
    split; reflexivity.
Qed.

(** C10: in the descriptor of a module, [image_addr] is the address of the
    first stored region, and [image_size] is the 32-bit signed integer that
    agrees modulo 2^32 with the file offset plus the size of the last
    stored region. *)
Theorem C10_image_addr_and_size (host : byte_order) (mem : memory)
    (module : sentry_module_t) :
  module_wf module ->
  sentry__procmaps_module_to_value host mem module <> VNull ->
  exists first_region last_region image_size,
    head (stored_regions module) = Some first_region
    /\ last (stored_regions module) = Some last_region
    /\ sentry_value_get_by_key
         (sentry__procmaps_module_to_value host mem module)
         (str "image_addr")
       = VAddr (region_addr first_region)
    /\ sentry_value_get_by_key
         (sentry__procmaps_module_to_value host mem module)
         (str "image_size")
       = VInt32 image_size
    /\ - 2 ^ 31 <= image_size < 2 ^ 31
    /\ image_size mod 2 ^ 32
       = (region_offset last_region + region_size last_region) mod 2 ^ 32.
Proof.
  intros Hwf Hval.
  assert (Helf : is_elf_module mem module = true).
  { unfold sentry__procmaps_module_to_value in Hval.
    destruct (is_elf_module mem module); [reflexivity|].
    exfalso. apply Hval. reflexivity. }
  pose proof (elf_module_has_region mem module Helf) as Hpos.
  destruct (descriptor_fields host mem module Helf) as [Haddr Hsize].
  destruct Hwf as [Hlen Hn].
  assert (Hfirst : exists r, module_mappings module !! 0%nat = Some r).
  { apply lookup_lt_is_Some_2. lia. }
  assert (Hlast : exists r, module_mappings module
                            !! (module_num_mappings module - 1)%nat = Some r).
  { apply lookup_lt_is_Some_2. lia. }
  destruct Hfirst as [r0 Hr0]. destruct Hlast as [rl Hrl].
  exists r0, rl.
  eexists. split; [|split; [|split; [|split; [|split]]]].
  - rewrite head_lookup. unfold stored_regions.
    rewrite lookup_take_lt by lia. exact Hr0.
  - rewrite last_stored_region by (split; assumption).
    destruct (Nat.ltb_spec 0 (module_num_mappings module)); [exact Hrl | lia].
  - rewrite Haddr. unfold mapping_at. rewrite Hr0. reflexivity.
  - rewrite Hsize. unfold mapping_at. rewrite Hrl. reflexivity.
  - apply to_int32_spec.
  - simpl. destruct (to_int32_spec
      (u64 (region_offset rl + region_size rl))) as [_ ->].
    apply u64_mod_32.
Qed.

Lemma C10_image_addr_and_size_witness :
  exists first_region last_region image_size,
    head (stored_regions one_region_module) = Some first_region
    /\ last (stored_regions one_region_module) = Some last_region
    /\ sentry_value_get_by_key
         (sentry__procmaps_module_to_value LittleEndian note_memory
            one_region_module)
         (str "image_addr")
       = VAddr (region_addr first_region)
    /\ sentry_value_get_by_key
         (sentry__procmaps_module_to_value LittleEndian note_memory
            one_region_module)
         (str "image_size")
       = VInt32 image_size
    /\ - 2 ^ 31 <= image_size < 2 ^ 31
    /\ image_size mod 2 ^ 32
       = (region_offset last_region + region_size last_region) mod 2 ^ 32.
Proof.
  apply (C10_image_addr_and_size LittleEndian note_memory one_region_module).
  - split; simpl; [reflexivity | unfold MAX_MAPPINGS; lia].
  - vm_compute. discriminate.
Defined.

(** ** The debug id *)

Lemma byte_cons_split (b v : Z) :
  is_byte b -> (b + 2 ^ 8 * v) mod 2 ^ 8 = b /\ (b + 2 ^ 8 * v) / 2 ^ 8 = v.
Proof.
  unfold is_byte. change (2 ^ 8) with 256. intros Hb.
  Z.div_mod_to_equations. lia.
Qed.

Lemma le_bytes_le_value (bs : list Z) :
  Forall is_byte bs -> le_bytes (length bs) (le_value bs) = bs.
Proof.
  induction 1 as [|b bs Hb Hbs IH]; [reflexivity|].
  cbn [length le_bytes le_value fold_right].
  change (fold_right (fun b acc => b + 2 ^ 8 * acc) 0 bs) with (le_value bs).
  destruct (byte_cons_split b (le_value bs) Hb) as [-> ->].
  rewrite IH. reflexivity.
Qed.

Lemma be_value_rev (bs : list Z) : be_value bs = le_value (rev bs).
Proof.
  induction bs as [|b bs IH] using rev_ind; [reflexivity|].
  unfold be_value. rewrite fold_left_app.
  cbn [fold_left]. fold (be_value bs). rewrite IH.
  rewrite rev_unit. cbn [le_value fold_right]. fold (le_value (rev bs)).
  ring.
Qed.

Lemma le_bytes_length (n : nat) (v : Z) : length (le_bytes n v) = n.
Proof.
  revert v. induction n as [|n IH]; intros v; [reflexivity|].
  simpl. rewrite IH. reflexivity.
Qed.

Lemma hton_bytes_little_endian (bs : list Z) :
  Forall is_byte bs ->
  host_to_bytes LittleEndian (length bs)
    (hton LittleEndian (length bs) (bytes_to_host LittleEndian bs))
  = rev bs.
Proof.
  intros Hbs. unfold host_to_bytes, hton, bytes_to_host.
  change (fold_right (fun b acc => b + 2 ^ 8 * acc) 0 bs) with (le_value bs).
  rewrite le_bytes_le_value by exact Hbs.
  change (fold_left (fun acc b => 2 ^ 8 * acc + b) bs 0) with (be_value bs).
  rewrite be_value_rev, <- (length_rev bs).
  apply le_bytes_le_value, Forall_rev, Hbs.
Qed.

Lemma hton_bytes_big_endian (bs : list Z) :
  Forall is_byte bs ->
  host_to_bytes BigEndian (length bs)
    (hton BigEndian (length bs) (bytes_to_host BigEndian bs))
  = bs.
Proof.
  intros Hbs. unfold host_to_bytes, hton, bytes_to_host.
  change (fold_left (fun acc b => 2 ^ 8 * acc + b) bs 0) with (be_value bs).
  rewrite be_value_rev, <- (length_rev bs).
  rewrite le_bytes_le_value by (apply Forall_rev, Hbs).
  apply rev_involutive.
Qed.

(** On a little-endian host, passing an [n]-byte object through [hton]
    reverses its bytes. *)
Lemma flip_field_little_endian (uuid : list Z) (at_ n : nat) :
  Forall is_byte uuid -> (at_ + n <= length uuid)%nat ->
  flip_field LittleEndian uuid at_ n
  = take at_ uuid ++ rev (take n (drop at_ uuid)) ++ drop (at_ + n) uuid.
Proof.
  intros Hbytes Hlen. unfold flip_field. f_equal. f_equal.
  set (bs := take n (drop at_ uuid)).
  assert (Hbs : Forall is_byte bs)
    by (apply Forall_take, Forall_drop; exact Hbytes).
  assert (Hn : length bs = n)
    by (unfold bs; rewrite length_take, length_drop; lia).
  rewrite <- Hn. apply hton_bytes_little_endian, Hbs.
Qed.

(** On a big-endian host the bytes stay as they are. *)
Lemma flip_field_big_endian (uuid : list Z) (at_ n : nat) :
  Forall is_byte uuid -> (at_ + n <= length uuid)%nat ->
  flip_field BigEndian uuid at_ n = uuid.
Proof.
  intros Hbytes Hlen. unfold flip_field.
  set (bs := take n (drop at_ uuid)).
  assert (Hbs : Forall is_byte bs)
    by (apply Forall_take, Forall_drop; exact Hbytes).
  assert (Hn : length bs = n)
    by (unfold bs; rewrite length_take, length_drop; lia).
  assert (Hflip : host_to_bytes BigEndian n
                    (hton BigEndian n (bytes_to_host BigEndian bs)) = bs)
    by (rewrite <- Hn; apply hton_bytes_big_endian, Hbs).
  rewrite Hflip. unfold bs.
  rewrite <- drop_drop, take_drop, take_drop. reflexivity.
Qed.

Lemma read_bytes_is_byte (mem : memory) (a : Z) (n : nat) :
  Forall is_byte (read_bytes mem a n).
Proof.
  unfold read_bytes. apply Forall_forall. intros b Hb.
  apply list_elem_of_In, in_map_iff in Hb as (i & <- & _).
  unfold load8, u8, is_byte. apply Z.mod_pos_bound. reflexivity.
Qed.

Lemma read_bytes_length (mem : memory) (a : Z) (n : nat) :
  length (read_bytes mem a n) = n.
Proof. unfold read_bytes. rewrite length_map, length_seq. reflexivity. Qed.

Lemma read_bytes_take (mem : memory) (a : Z) (n k : nat) :
  (k <= n)%nat -> take k (read_bytes mem a n) = read_bytes mem a k.
Proof.
  intros Hk. unfold read_bytes.
  rewrite List.firstn_map, take_seq.
  replace (Nat.min k n) with k by lia. reflexivity.
Qed.

Ltac split_bytes H :=
  repeat match type of H with
         | Forall _ (_ :: _) =>
             let Hb := fresh "Hb" in
             apply Forall_cons in H as [Hb H]
         end.

Ltac all_bytes :=
  repeat (apply Forall_cons_2; [assumption|]); apply Forall_nil_2.

Lemma flip_uuid_little_endian (uuid : list Z) :
  Forall is_byte uuid -> length uuid = 16%nat ->
  flip_uuid LittleEndian uuid
  = rev (take 4 uuid) ++ rev (take 2 (drop 4 uuid))
    ++ rev (take 2 (drop 6 uuid)) ++ drop 8 uuid.
Proof.
  intros Hbytes Hlen.
  do 16 (destruct uuid as [|? uuid]; [discriminate Hlen|]).
  destruct uuid; [|discriminate Hlen].
  split_bytes Hbytes.
  unfold flip_uuid.
  rewrite (flip_field_little_endian _ 0 4)
    by first [simpl; lia | all_bytes].
  cbn [take drop rev app Nat.add].
  rewrite (flip_field_little_endian _ 4 2)
    by first [simpl; lia | all_bytes].
  cbn [take drop rev app Nat.add].
  rewrite (flip_field_little_endian _ 6 2)
    by first [simpl; lia | all_bytes].
  reflexivity.
Qed.

Lemma flip_uuid_big_endian (uuid : list Z) :
  Forall is_byte uuid -> length uuid = 16%nat ->
  flip_uuid BigEndian uuid = uuid.
Proof.
  intros Hbytes Hlen. unfold flip_uuid.
  rewrite (flip_field_big_endian uuid 0 4) by first [assumption | lia].
  rewrite (flip_field_big_endian uuid 4 2) by first [assumption | lia].
  rewrite (flip_field_big_endian uuid 6 2) by first [assumption | lia].
  reflexivity.
Qed.

Lemma to_nat_MIN (a b : Z) :
  Z.to_nat (MIN a b) = Nat.min (Z.to_nat a) (Z.to_nat b).
Proof. unfold MIN. destruct (Z.ltb_spec a b); lia. Qed.

(** [memcpy] of at most 16 bytes into the nil UUID: the code id cut to 16
    bytes or filled up with zeros. *)
Lemma memcpy_uuid_pad16 (mem : memory) (code_id code_id_size : Z) :
  memcpy_uuid mem nil_uuid code_id (Z.to_nat (MIN code_id_size 16))
  = pad16 (read_bytes mem code_id (Z.to_nat code_id_size)).
Proof.
  unfold memcpy_uuid, pad16, nil_uuid. rewrite to_nat_MIN.
  change (Z.to_nat 16) with 16%nat.
  set (n := Z.to_nat code_id_size).
  destruct (Nat.le_gt_cases n 16) as [Hle | Hgt].
  - replace (Nat.min n 16) with n by lia.
    rewrite take_app_ge by (rewrite read_bytes_length; lia).
    rewrite read_bytes_length, take_replicate, drop_replicate.
    replace (Nat.min (16 - n) 16) with (16 - n)%nat by lia. reflexivity.
  - replace (Nat.min n 16) with 16%nat by lia.
    rewrite take_app_le by (rewrite read_bytes_length; lia).
    rewrite read_bytes_take by lia. rewrite drop_replicate. simpl.
    reflexivity.
Qed.

Lemma pad16_length (bytes : list Z) : length (pad16 bytes) = 16%nat.
Proof.
  unfold pad16. rewrite length_take, length_app, length_replicate. lia.
Qed.

Lemma pad16_is_byte (bytes : list Z) :
  Forall is_byte bytes -> Forall is_byte (pad16 bytes).
Proof.
  intros H. unfold pad16. apply Forall_take, Forall_app. split; [exact H|].
  apply Forall_replicate. unfold is_byte. lia.
Qed.

Lemma list_ascii_eqb_eq (a b : list ascii) :
  list_ascii_eqb a b = true <-> a = b.
Proof.
  unfold list_ascii_eqb. rewrite String.eqb_eq. split; [|congruence].
  intros H. apply (f_equal list_ascii_of_string) in H.
  rewrite !list_ascii_of_string_of_list_ascii in H. exact H.
Qed.

Lemma get_set_field_same (fields : list (list ascii * sentry_value_t))
    (k : list ascii) (v : sentry_value_t) :
  get_field (set_field fields k v) k = v.
Proof.
  induction fields as [|[k' v'] rest IH]; simpl.
  - rewrite (proj2 (list_ascii_eqb_eq k k) eq_refl). reflexivity.
  - destruct (list_ascii_eqb k' k) eqn:E; simpl.
    + rewrite (proj2 (list_ascii_eqb_eq k k) eq_refl). reflexivity.
    + rewrite E. exact IH.
Qed.

Lemma get_set_field_other (fields : list (list ascii * sentry_value_t))
    (k k0 : list ascii) (v : sentry_value_t) :
  k <> k0 -> get_field (set_field fields k v) k0 = get_field fields k0.
Proof.
  intros Hne. induction fields as [|[k' v'] rest IH]; simpl.
  - destruct (list_ascii_eqb k k0) eqn:E; [|reflexivity].
    apply list_ascii_eqb_eq in E. contradiction.
  - destruct (list_ascii_eqb k' k) eqn:E; simpl.
    + apply list_ascii_eqb_eq in E. subst k'.
      destruct (list_ascii_eqb k k0) eqn:E0; [|reflexivity].
      apply list_ascii_eqb_eq in E0. contradiction.
    + destruct (list_ascii_eqb k' k0); [reflexivity | exact IH].
Qed.

Lemma hex_encode_length (bytes : list Z) :
  length (hex_encode bytes) = (2 * length bytes)%nat.
Proof.
  unfold hex_encode. induction bytes as [|b bs IH]; [reflexivity|].
  simpl. rewrite IH. lia.
Qed.

Lemma network_order_little_endian (bs : list Z) :
  Forall is_byte bs -> network_order LittleEndian bs = rev bs.
Proof.
  intros Hbs. unfold network_order, host_value, be_bytes.
  rewrite le_bytes_le_value by exact Hbs. reflexivity.
Qed.

Lemma network_order_big_endian (bs : list Z) :
  Forall is_byte bs -> network_order BigEndian bs = bs.
Proof.
  intros Hbs. unfold network_order, host_value, be_bytes.
  rewrite be_value_rev, <- (length_rev bs).
  rewrite le_bytes_le_value by (apply Forall_rev, Hbs).
  apply rev_involutive.
Qed.

(** The byte flipping of the code gives the fields in network byte
    order. *)
Lemma flip_uuid_network_order (host : byte_order) (bytes : list Z) :
  Forall is_byte bytes ->
  flip_uuid host (pad16 bytes) = debug_id_in_network_order host bytes.
Proof.
  intros Hbytes. unfold debug_id_in_network_order. cbv zeta.
  pose proof (pad16_is_byte bytes Hbytes) as Hp.
  pose proof (pad16_length bytes) as Hlen.
  remember (pad16 bytes) as p eqn:Ep. clear Ep.
  assert (H04 : Forall is_byte (take 4 p)) by (apply Forall_take, Hp).
  assert (H42 : Forall is_byte (take 2 (drop 4 p)))
    by (apply Forall_take, Forall_drop, Hp).
  assert (H62 : Forall is_byte (take 2 (drop 6 p)))
    by (apply Forall_take, Forall_drop, Hp).
  destruct host.
  - rewrite flip_uuid_little_endian by assumption.
    rewrite !network_order_little_endian by assumption.
    reflexivity.
  - rewrite flip_uuid_big_endian by assumption.
    rewrite !network_order_big_endian by assumption.
    rewrite <- (take_drop 4 p) at 1.
    rewrite <- (take_drop 2 (drop 4 p)) at 1.
    rewrite drop_drop. change (4 + 2)%nat with 6%nat.
    rewrite <- (take_drop 2 (drop 6 p)) at 1.
    rewrite drop_drop. reflexivity.
Qed.

(** C6: the debug id of a code id is its first 16 bytes, zero-padded, with
    the fields of bytes 0-3, 4-5 and 6-7 put in network byte order and bytes
    8-15 kept; on a little-endian host that is the reversal of the bytes of
    each of the three fields, on a big-endian host, where they are in
    network byte order as they stand, it changes nothing; [code_id] is the
    hex string of all the bytes of the code id, two characters a byte. *)
Theorem C6_debug_id_reformats_code_id (host : byte_order) (mem : memory)
    (module : sentry_module_t)
    (fields : list (list ascii * sentry_value_t))
    (code_id code_id_size : Z) :
  get_code_id_from_elf host mem module = Some (code_id, code_id_size) ->
  let bytes := read_bytes mem code_id (Z.to_nat code_id_size) in
  let value := sentry__procmaps_read_ids_from_elf host mem
                 (VObject false fields) module in
  sentry_value_get_by_key value (str "debug_id")
  = VUuid (debug_id_in_network_order host bytes)
  /\ debug_id_in_network_order LittleEndian bytes
     = debug_id_of_code_id bytes
  /\ debug_id_in_network_order BigEndian bytes = pad16 bytes
  /\ sentry_value_get_by_key value (str "code_id")
     = VString (hex_encode bytes)
  /\ length (hex_encode bytes) = (2 * Z.to_nat code_id_size)%nat.
Proof.
  intros Hid bytes value.
  assert (Hbytes : Forall is_byte bytes) by apply read_bytes_is_byte.
  subst value. unfold sentry__procmaps_read_ids_from_elf, selected_uuid.
  rewrite Hid. fold bytes.
  unfold sentry_value_set_by_key, sentry_value_get_by_key,
    sentry__value_new_hexstring, sentry__value_new_uuid.
  split; [|split; [|split; [|split]]].
  - rewrite get_set_field_same. f_equal.
    rewrite memcpy_uuid_pad16. fold bytes.
    apply flip_uuid_network_order, Hbytes.
  - rewrite <- flip_uuid_network_order by exact Hbytes.
    apply flip_uuid_little_endian;
      [apply pad16_is_byte, Hbytes | apply pad16_length].
  - rewrite <- flip_uuid_network_order by exact Hbytes.
    apply flip_uuid_big_endian;
      [apply pad16_is_byte, Hbytes | apply pad16_length].
  - rewrite get_set_field_other by (intros H; discriminate H).
    apply get_set_field_same.
  - rewrite hex_encode_length. unfold bytes. rewrite read_bytes_length.
    reflexivity.
Qed.

Lemma C6_debug_id_witness :
  sentry_value_get_by_key
    (sentry__procmaps_read_ids_from_elf LittleEndian note_memory
       (VObject false []) one_region_module)
    (str "debug_id")
  = VUuid (debug_id_in_network_order LittleEndian
             (read_bytes note_memory 65672 (Z.to_nat 20))).
Proof.
  apply (C6_debug_id_reformats_code_id LittleEndian note_memory
           one_region_module [] 65672 20).
  reflexivity.
Defined.

(** The build id 1, 2, ..., 20 of [note_image] and its debug id on a
    little-endian host. *)
Example debug_id_of_note_image :
  debug_id_in_network_order LittleEndian (List.map Z.of_nat (seq 1 20))
  = [4; 3; 2; 1; 6; 5; 8; 7; 9; 10; 11; 12; 13; 14; 15; 16].
Proof. reflexivity. Qed.

(** ** The fallback identity *)

Lemma xor_into_length (uuid : list Z) (i : nat) (b : Z) :
  length (xor_into uuid i b) = length uuid.
Proof. unfold xor_into. apply length_alter. Qed.

Lemma fold_left_zip_map {A B C : Type} (g : C -> A -> B -> C) (f : A -> B)
    (l : list A) :
  forall acc,
    fold_left (fun acc ib => g acc (fst ib) (snd ib)) (zip l (List.map f l))
      acc
    = fold_left (fun acc i => g acc i (f i)) l acc.
Proof.
  induction l as [|x l IH]; intros acc; [reflexivity|].
  simpl. apply IH.
Qed.

(** The loop over memory folds the bytes it reads. *)
Lemma xor_fold_text_bytes (mem : memory) (text : Z) (max : nat) :
  xor_fold_text mem text max nil_uuid
  = xor_fold_bytes (read_bytes mem text max).
Proof.
  unfold xor_fold_text, xor_fold_bytes. rewrite read_bytes_length.
  unfold read_bytes. rewrite fold_left_zip_map. reflexivity.
Qed.

Lemma indexed_snoc (bytes : list Z) (b : Z) :
  zip (seq 0 (length (bytes ++ [b]))) (bytes ++ [b])
  = zip (seq 0 (length bytes)) bytes ++ [(length bytes, b)].
Proof.
  rewrite length_app. simpl. rewrite Nat.add_1_r, seq_S. simpl.
  rewrite zip_with_app by (rewrite length_seq; reflexivity).
  reflexivity.
Qed.

Lemma xor_fold_bytes_snoc (bytes : list Z) (b : Z) :
  xor_fold_bytes (bytes ++ [b])
  = xor_into (xor_fold_bytes bytes) (length bytes) b.
Proof.
  unfold xor_fold_bytes. rewrite indexed_snoc, fold_left_app. reflexivity.
Qed.

Lemma xor_fold_bytes_length (bytes : list Z) :
  length (xor_fold_bytes bytes) = 16%nat.
Proof.
  induction bytes as [|b bytes IH] using rev_ind; [reflexivity|].
  rewrite xor_fold_bytes_snoc, xor_into_length. exact IH.
Qed.






Example fallback_identity_of_text_image :
  text_bytes LittleEndian text_memory one_region_module
  = List.map Z.of_nat (seq 1 20)
  /\ selected_uuid LittleEndian text_memory one_region_module
     = [16; 16; 16; 16; 5; 6; 7; 8; 9; 10; 11; 12; 13; 14; 15; 16].
Proof. split; reflexivity. Qed.

Lemma load8_range (mem : memory) (a : Z) : 0 <= load8 mem a < 2 ^ 8.
Proof. unfold load8, u8. apply Z.mod_pos_bound. reflexivity. Qed.

Lemma load32_nonneg (host : byte_order) (mem : memory) (a : Z) :
  0 <= load32 host mem a.
Proof.
  unfold load32, load16.
  pose proof (load8_range mem a). pose proof (load8_range mem (a + 1)).
  pose proof (load8_range mem (a + 2)).
  pose proof (load8_range mem (a + 2 + 1)).
  destruct host; lia.
Qed.

(** ** The module cache *)

Lemma try_append_open_list (host : byte_order) (mem : memory)
    (modules : sentry_value_t) (module : sentry_module_t) :
  is_open_list modules = true ->
  is_open_list (try_append_module host mem modules module) = true.
Proof.
  intros Hopen. unfold try_append_module.
  destruct (slice_ptr (module_file module)); [|exact Hopen].
  destruct (negb _); [|exact Hopen].
  destruct modules as [| | | | |[|] items|]; try discriminate Hopen.
  reflexivity.
Qed.

Lemma load_step_open_list (host : byte_order) (mem : memory)
    (linux_vdso : Z) (st : sentry_value_t * sentry_module_t)
    (module : sentry_parsed_module_t) :
  is_open_list (fst st) = true ->
  is_open_list (fst (load_step host mem linux_vdso st module)) = true.
Proof.
  intros Hopen. unfold load_step.
  destruct (filter_line module linux_vdso); [|exact Hopen].
  destruct st as [modules last_module]. simpl in Hopen.
  destruct (_ && _); simpl; [|exact Hopen].
  apply try_append_open_list. exact Hopen.
Qed.

Lemma load_loop_open_list (host : byte_order) (mem : memory)
    (linux_vdso : Z) (fuel : nat) :
  forall current_line st,
    is_open_list (fst st) = true ->
    is_open_list (fst (load_loop host mem fuel linux_vdso current_line st))
    = true.
Proof.
  induction fuel as [|fuel IH]; intros current_line st Hopen;
    [exact Hopen|].
  simpl.
  destruct (sentry__procmaps_parse_module_line current_line zero_parsed)
    as [read module].
  destruct (read =? 0); [exact Hopen|].
  apply IH, load_step_open_list, Hopen.
Qed.

Lemma build_modules_frozen (p : process_t) :
  is_frozen_list (build_modules p) = true.
Proof.
  unfold build_modules.
  assert (Hopen : is_open_list
            (load_modules (proc_host p) (proc_mem p) (proc_maps p)
               (proc_auxv p) sentry_value_new_list) = true).
  { unfold load_modules. destruct (proc_maps p) as [contents|];
      [|reflexivity].
    pose proof (load_loop_open_list (proc_host p) (proc_mem p)
                  (get_linux_vdso (proc_auxv p)) (S (length contents))
                  contents (sentry_value_new_list, zero_module) eq_refl)
      as Hloop.
    destruct (load_loop _ _ _ _ _ _) as [modules last_module].
    apply try_append_open_list. exact Hloop. }
  destruct (load_modules _ _ _ _ _) as [| | | | |[|] items|];
    try discriminate Hopen.
  reflexivity.
Qed.

(** While the cache is initialized it holds the frozen list of a build. *)
Lemma cache_reachable_inv (zero_value : sentry_value_t) (c : cache_t) :
  cache_reachable zero_value c ->
  g_initialized c = true -> exists p, g_modules c = build_modules p.
Proof.
  induction 1 as [|p c Hc IH|c Hc IH]; intros Hinit.
  - discriminate Hinit.
  - unfold sentry_get_modules_list in *. simpl in *.
    destruct (g_initialized c); simpl in *.
    + apply IH. reflexivity.
    + exists p. reflexivity.
  - discriminate Hinit.
Qed.

(** C9: two calls of [sentry_get_modules_list] without a clear in between
    return the same frozen list, and the second call builds nothing: it
    leaves the globals alone whatever the process looks like by then; the
    call after [sentry_clear_modulecache] returns a new build. *)
Theorem C9_cache_returns_same_snapshot (zero_value : sentry_value_t)
    (c : cache_t) (p1 p2 p3 : process_t) :
  cache_reachable zero_value c ->
  let first_call := sentry_get_modules_list p1 c in
  let second_call := sentry_get_modules_list p2 (fst first_call) in
  let cleared := sentry_clear_modulecache (fst second_call) in
  let third_call := sentry_get_modules_list p3 cleared in
  snd second_call = snd first_call
  /\ fst second_call = fst first_call
  /\ is_frozen_list (snd first_call) = true
  /\ (g_initialized c = false -> snd first_call = build_modules p1)
  /\ snd third_call = build_modules p3
  /\ fst third_call = mk_cache true (build_modules p3).
Proof.
  intros Hreach first_call second_call cleared third_call.
  assert (Hinit : g_initialized (fst first_call) = true).
  { unfold first_call, sentry_get_modules_list. simpl.
    destruct (g_initialized c) eqn:E; simpl; [exact E | reflexivity]. }
  assert (Hsecond : second_call = (fst first_call, g_modules (fst first_call))).
  { unfold second_call, sentry_get_modules_list at 1. rewrite Hinit.
    reflexivity. }
  assert (Hfrozen : is_frozen_list (snd first_call) = true).
  { destruct (cache_reachable_inv zero_value (fst first_call)) as [p Hp].
    - apply reach_get. exact Hreach.
    - exact Hinit.
    - change (snd first_call) with (g_modules (fst first_call)).
      rewrite Hp. apply build_modules_frozen. }
  assert (Hfresh : g_initialized c = false ->
                   snd first_call = build_modules p1).
  { intros Hc. unfold first_call, sentry_get_modules_list. rewrite Hc.
    reflexivity. }
  rewrite Hsecond.
  split; [reflexivity|]. split; [reflexivity|].
  split; [exact Hfrozen|]. split; [exact Hfresh|].
  split; reflexivity.
Qed.

Lemma C9_cache_witness :
  let first_call :=
    sentry_get_modules_list sample_process (initial_cache (VInt32 0)) in
  let second_call := sentry_get_modules_list changed_process (fst first_call) in
  snd second_call = snd first_call
  /\ fst second_call = fst first_call.
Proof.
  intros first_call second_call.
  pose proof (C9_cache_returns_same_snapshot (VInt32 0)
                (initial_cache (VInt32 0)) sample_process changed_process
                changed_process (reach_initial (VInt32 0))) as H.
  cbv zeta in H. destruct H as (H1 & H2 & _).
  split; [exact H1 | exact H2].
Defined.

(** ** The filter on the lines of the memory map *)

Lemma strchr_Some (s : list ascii) (c : ascii) (i : nat) :
  strchr s c = Some i ->
  (i < length s)%nat /\ char_at s i = c /\ c ∉ take i s.
Proof.
  revert i. induction s as [|c' s IH]; intros i H; [discriminate H|].
  simpl in H. destruct (Ascii.eqb_spec c' c) as [-> | Hne].
  - injection H as <-. simpl. split; [lia|]. split; [reflexivity|].
    apply not_elem_of_nil.
  - destruct (strchr s c) as [k|]; [|discriminate H].
    injection H as <-. destruct (IH k eq_refl) as (Hk & Hc & Hnot).
    simpl. split; [lia|]. split; [exact Hc|].
    intros Hin. apply elem_of_cons in Hin as [-> | Hin]; [congruence|].
    contradiction.
Qed.

Lemma strchr_None (s : list ascii) (c : ascii) :
  strchr s c = None -> c ∉ s.
Proof.
  induction s as [|c' s IH]; intros H; [apply not_elem_of_nil|].
  simpl in H. destruct (Ascii.eqb_spec c' c) as [-> | Hne];
    [discriminate H|].
  destruct (strchr s c); [discriminate H|].
  intros Hin. apply elem_of_cons in Hin as [-> | Hin]; [congruence|].
  exact (IH eq_refl Hin).
Qed.

Lemma char_at_lookup (s : list ascii) (i : nat) (c : ascii) :
  s !! i = Some c -> char_at s i = c.
Proof. intros H. unfold char_at. apply nth_lookup_Some with (d := NUL), H. Qed.

Lemma parsed_path_shape (line : list ascii) (m0 : sentry_parsed_module_t) :
  fst (sentry__procmaps_parse_module_line line m0) <> 0 ->
  path_shape (parsed_file (snd (sentry__procmaps_parse_module_line line m0))).
Proof.
  unfold sentry__procmaps_parse_module_line.
  destruct (sscanf_maps_line line m0) as [[n module] consumed].
  destruct (n <? 7); [intros H; exfalso; apply H; reflexivity|].
  intros _.
  destruct ((0 <? consumed)%nat
            && Ascii.eqb (char_at line (consumed - 1)) NL).
  - left. reflexivity.
  - right. destruct (strchr (drop consumed line) NL) as [k|] eqn:Hnl.
    + apply strchr_Some in Hnl as (Hk & Hc & _).
      exists (drop consumed line), k. simpl.
      split; [reflexivity|]. split; [lia|]. left. exact Hc.
    + exists (drop consumed line), (length (drop consumed line)). simpl.
      split; [reflexivity|]. split; [lia|]. right.
      unfold char_at. apply nth_overflow. lia.
Qed.

Lemma slash_test (rest : list ascii) (k : nat) :
  (k <= length rest)%nat ->
  (char_at rest k = NL \/ char_at rest k = NUL) ->
  match strchr rest "/" with
  | None => true
  | Some slash => (k <? slash)%nat
  end
  = bool_decide ("/"%char ∉ take k rest).
Proof.
  intros Hk Hend. destruct (strchr rest "/") as [slash|] eqn:Hs.
  - apply strchr_Some in Hs as (Hlt & Hc & Hnot).
    destruct (Nat.ltb_spec k slash) as [Hks | Hks].
    + symmetry. apply bool_decide_eq_true_2. intros Hin. apply Hnot.
      apply elem_of_take in Hin as (i & Hi & Hik).
      apply elem_of_take. exists i. split; [exact Hi | lia].
    + symmetry. apply bool_decide_eq_false_2. intros Hnin. apply Hnin.
      assert (Hne : slash <> k).
      { intros ->. rewrite Hc in Hend. destruct Hend; discriminate. }
      apply elem_of_take. exists slash. split; [|lia].
      destruct (nth_lookup_or_length rest slash NUL) as [Hl | Hl]; [|lia].
      unfold char_at in Hc. rewrite Hc in Hl. exact Hl.
  - symmetry. apply bool_decide_eq_true_2. intros Hin.
    apply (strchr_None _ _ Hs).
    apply elem_of_take in Hin as (i & Hi & _).
    eapply list_elem_of_lookup_2, Hi.
Qed.

Lemma last_char_test (rest : list ascii) (k : nat) :
  (0 < k <= length rest)%nat ->
  Ascii.eqb (char_at rest (k - 1)) ")"
  = bool_decide (last (take k rest) = Some ")"%char).
Proof.
  intros Hk. rewrite last_lookup, length_take.
  replace (Init.Nat.pred (Nat.min k (length rest))) with (k - 1)%nat by lia.
  rewrite lookup_take_lt by lia.
  destruct (nth_lookup_or_length rest (k - 1) NUL) as [Hl | Hl]; [|lia].
  rewrite Hl. fold (char_at rest (k - 1)).
  destruct (Ascii.eqb_spec (char_at rest (k - 1)) ")") as [-> | Hne].
  - symmetry. apply bool_decide_eq_true_2. reflexivity.
  - symmetry. apply bool_decide_eq_false_2. congruence.
Qed.

Lemma dev_prefix_test (rest : list ascii) (k : nat) :
  (k <= length rest)%nat ->
  (5 <=? k)%nat && list_ascii_eqb (str "/dev/") (take 5 rest)
  = bool_decide (take 5 (take k rest) = str "/dev/").
Proof.
  intros Hk. rewrite take_take.
  destruct (Nat.leb_spec 5 k) as [H5 | H5];
    cbn [andb].
  - replace (Nat.min 5 k) with 5%nat by lia.
    destruct (list_ascii_eqb (str "/dev/") (take 5 rest)) eqn:E.
    + apply list_ascii_eqb_eq in E. symmetry.
      apply bool_decide_eq_true_2. congruence.
    + symmetry. apply bool_decide_eq_false_2. intros H.
      rewrite H in E.
      rewrite (proj2 (list_ascii_eqb_eq _ _) eq_refl) in E. discriminate E.
  - symmetry. apply bool_decide_eq_false_2. intros H.
    apply (f_equal length) in H. rewrite length_take in H.
    change (length (str "/dev/")) with 5%nat in H. lia.
Qed.

Lemma empty_path_test (rest : list ascii) (k : nat) :
  (k <= length rest)%nat ->
  (k =? 0)%nat = bool_decide (take k rest = []).
Proof.
  intros Hk. destruct (Nat.eqb_spec k 0) as [-> | Hne].
  - symmetry. apply bool_decide_eq_true_2. reflexivity.
  - symmetry. apply bool_decide_eq_false_2. intros H.
    apply (f_equal length) in H. rewrite length_take in H. simpl in H. lia.
Qed.

(** The filter of the code is the filter of the specification on every
    line whose path has the shape the parser gives it. *)
Lemma filter_line_refines (module : sentry_parsed_module_t)
    (linux_vdso : Z) :
  path_shape (parsed_file module) ->
  filter_line module linux_vdso = filter_line_spec module linux_vdso.
Proof.
  intros Hshape. unfold filter_line, filter_line_spec.
  assert (Hvdso : negb (parsed_start module =? 0)
                  && (parsed_start module =? linux_vdso)
                  = bool_decide (parsed_start module <> 0
                                 /\ parsed_start module = linux_vdso)).
  { destruct (Z.eqb_spec (parsed_start module) 0) as [H0 | H0];
      destruct (Z.eqb_spec (parsed_start module) linux_vdso) as [Hv | Hv];
      simpl; symmetry;
      first [apply bool_decide_eq_true_2; tauto
            | apply bool_decide_eq_false_2; tauto]. }
  rewrite Hvdso. destruct (bool_decide _); [reflexivity|].
  assert (Hdisc :
    (parsed_start module =? 0)
    || (slice_len (parsed_file module) =? 0)%nat
    || negb (Ascii.eqb (char_at (parsed_permissions module) 0) "r")
    || Ascii.eqb (char_at (default [] (slice_ptr (parsed_file module)))
                    (slice_len (parsed_file module) - 1)) ")"
    || match strchr (default [] (slice_ptr (parsed_file module))) "/" with
       | None => true
       | Some slash => (slice_len (parsed_file module) <? slash)%nat
       end
    || ((5 <=? slice_len (parsed_file module))%nat
        && list_ascii_eqb (str "/dev/")
             (take 5 (default [] (slice_ptr (parsed_file module)))))
    = line_discarded module).
  { unfold line_discarded, slice_chars.
    destruct Hshape as [-> | (rest & k & -> & Hk & Hend)];
      cbn [slice_len slice_ptr default from_option id].
    - simpl. rewrite !orb_true_r. reflexivity.
    - rewrite (slash_test rest k Hk Hend), (dev_prefix_test rest k Hk),
        (empty_path_test rest k Hk).
      destruct (Nat.eq_dec k 0%nat) as [-> | Hne].
      + simpl. rewrite !orb_true_r. reflexivity.
      + rewrite (last_char_test rest k) by lia. reflexivity. }
  rewrite Hdisc. reflexivity.
Qed.

(** C5: a parsed line that starts at the nonzero vDSO base goes on under
    the name "linux-gate.so"; any other parsed line is dropped exactly when
    the specification's list of reasons says so; a line that goes on is
    pushed onto the module being built, which is a fresh one when the path
    has changed. *)
Theorem C5_line_filter (host : byte_order) (mem : memory)
    (line : list ascii) (linux_vdso : Z) (modules : sentry_value_t)
    (last_module : sentry_module_t) :
  let module := snd (sentry__procmaps_parse_module_line line zero_parsed) in
  fst (sentry__procmaps_parse_module_line line zero_parsed) <> 0 ->
  filter_line module linux_vdso = filter_line_spec module linux_vdso
  /\ slice_chars LINUX_GATE = str "linux-gate.so"
  /\ load_step host mem linux_vdso (modules, last_module) module
     = match filter_line_spec module linux_vdso with
       | None => (modules, last_module)
       | Some kept =>
           let changed :=
             (0 <? slice_len (module_file last_module))%nat
             && negb (sentry__slice_eq (module_file last_module)
                        (parsed_file kept)) in
           (if changed
            then try_append_module host mem modules last_module
            else modules,
            sentry__module_mapping_push
              (set_module_file
                 (if changed then zero_module else last_module)
                 (parsed_file kept))
              kept)
       end.
Proof.
  intros module Hread.
  assert (Hfilter : filter_line module linux_vdso
                    = filter_line_spec module linux_vdso).
  { apply filter_line_refines. apply parsed_path_shape. exact Hread. }
  split; [exact Hfilter|]. split; [reflexivity|].
  unfold load_step. rewrite Hfilter.
  destruct (filter_line_spec module linux_vdso) as [kept|]; [|reflexivity].
  cbv zeta. destruct (_ && _); reflexivity.
Qed.

Lemma C5_line_filter_witness :
  filter_line
    (snd (sentry__procmaps_parse_module_line
            (str "10000-11000 r-xp 00000000 08:01 42 /dev/zero
")
            zero_parsed)) 0
  = filter_line_spec
      (snd (sentry__procmaps_parse_module_line
              (str "10000-11000 r-xp 00000000 08:01 42 /dev/zero
")
              zero_parsed)) 0.
Proof.
  assert (Hread : fst (sentry__procmaps_parse_module_line
                         (str "10000-11000 r-xp 00000000 08:01 42 /dev/zero
")
                         zero_parsed) <> 0)
    by (vm_compute; discriminate).
  exact (proj1 (C5_line_filter LittleEndian note_memory _ 0
                  sentry_value_new_list zero_module Hread)).
Defined.

Example filter_examples :
  let parse s := snd (sentry__procmaps_parse_module_line (str s) zero_parsed) in
  filter_line (parse "10000-11000 r-xp 00000000 08:01 42 /dev/zero
") 0 = None
  /\ filter_line (parse "10000-11000 r-xp 00000000 08:01 42 /lib/a.so (deleted)
") 0 = None
  /\ filter_line (parse "10000-11000 r-xp 00000000 00:00 0 [heap]
") 0 = None
  /\ filter_line (parse "10000-11000 -w-p 00000000 08:01 42 /lib/a.so
") 0 = None
  /\ filter_line (parse "10000-11000 r-xp 00000000 00:00 0 
") 0 = None
  /\ option_map parsed_file
       (filter_line (parse "10000-11000 r-xp 00000000 00:00 0 [vdso]
") 65536)
     = Some LINUX_GATE
  /\ option_map (fun m => slice_chars (parsed_file m))
       (filter_line (parse "10000-11000 r-xp 00000000 08:01 42 /lib/a.so
") 0)
     = Some (str "/lib/a.so").
Proof. repeat split; reflexivity. Qed.

(** ** The parser of a line *)

Lemma hex_digit_char (c : ascii) :
  is_Some (hex_digit c) ->
  isspace c = false /\ c <> "-"%char /\ c <> "+"%char /\ c <> "x"%char
  /\ c <> "X"%char.
Proof.
  intros [d Hd].
  assert (Hne : forall c', hex_digit c' = None -> c <> c')
    by (intros c' Hc' ->; rewrite Hd in Hc'; discriminate).
  split; [|repeat split; apply Hne; reflexivity].
  unfold hex_digit in Hd. unfold isspace.
  destruct ((48 <=? char_code c) && (char_code c <=? 57)) eqn:E1;
    [lia|].
  destruct ((97 <=? char_code c) && (char_code c <=? 102)) eqn:E2;
    [lia|].
  destruct ((65 <=? char_code c) && (char_code c <=? 70)) eqn:E3;
    [lia | discriminate Hd].
Qed.

Lemma dec_digit_char (c : ascii) :
  is_Some (dec_digit c) ->
  isspace c = false /\ c <> "-"%char /\ c <> "+"%char.
Proof.
  intros [d Hd].
  assert (Hne : forall c', dec_digit c' = None -> c <> c')
    by (intros c' Hc' ->; rewrite Hd in Hc'; discriminate).
  split; [|split; apply Hne; reflexivity].
  unfold dec_digit in Hd. unfold isspace.
  destruct ((48 <=? char_code c) && (char_code c <=? 57)) eqn:E1;
    [lia | discriminate Hd].
Qed.

Lemma scan_digits_run (digit : ascii -> option Z) (base : Z)
    (ds tail : list ascii) :
  Forall (fun c => is_Some (digit c)) ds ->
  match tail with [] => True | c :: _ => digit c = None end ->
  forall acc,
    scan_digits digit base acc (ds ++ tail)
    = (fold_left (fun acc c => acc * base + default 0 (digit c)) ds acc,
       tail).
Proof.
  intros Hds Htail. induction Hds as [|c ds [d Hd] Hds IH]; intros acc.
  - simpl. destruct tail as [|c t]; [reflexivity|].
    simpl. rewrite Htail. reflexivity.
  - simpl. rewrite Hd. simpl. apply IH.
Qed.

(** A digit run that is followed by something else than a digit (and, for
    [%x], than an [x]) is scanned as a whole. *)
Lemma scan_number_run (digit : ascii -> option Z) (base : Z) (prefix : bool)
    (max : Z) (ds : list ascii) (c : ascii) (tail : list ascii) :
  digit_run digit ds ->
  (forall c', is_Some (digit c') ->
     isspace c' = false /\ c' <> "-"%char /\ c' <> "+"%char
     /\ (prefix = true -> c' <> "x"%char /\ c' <> "X"%char)) ->
  digit c = None ->
  (prefix = true -> c <> "x"%char /\ c <> "X"%char) ->
  scan_number digit base prefix max (ds ++ c :: tail)
  = Some (strtoul_value max false (digits_value digit base ds), c :: tail).
Proof.
  intros [Hne Hds] Hchar Hc Hcx.
  destruct ds as [|d0 ds]; [contradiction|].
  apply Forall_cons in Hds as Hd0. destruct Hd0 as [Hd0 Hds'].
  destruct (Hchar d0 Hd0) as (Hsp & Hminus & Hplus & Hx).
  unfold scan_number. simpl app. cbn [skip_space]. rewrite Hsp.
  unfold scan_sign.
  destruct (Ascii.eqb_spec d0 "-") as [E | _]; [contradiction|].
  destruct (Ascii.eqb_spec d0 "+") as [E | _]; [contradiction|].
  assert (Hskip : (if prefix then skip_0x (d0 :: ds ++ c :: tail) else None)
                  = None).
  { destruct prefix; [|reflexivity].
    unfold skip_0x.
    assert (Hsecond : forall c1 t, ds ++ c :: tail = c1 :: t ->
              c1 <> "x"%char /\ c1 <> "X"%char).
    { intros c1 t Heq. destruct ds as [|d1 ds]; simpl in Heq.
      - injection Heq as <- _. apply Hcx. reflexivity.
      - injection Heq as <- _. apply Forall_cons in Hds' as [Hd1 _].
        apply (Hchar d1 Hd1). reflexivity. }
    destruct (ds ++ c :: tail) as [|c1 t] eqn:Heq; [reflexivity|].
    destruct (Hsecond c1 t eq_refl) as [Hx1 HX1].
    destruct (Ascii.eqb_spec c1 "x"); [contradiction|].
    destruct (Ascii.eqb_spec c1 "X"); [contradiction|].
    rewrite andb_false_r. reflexivity. }
  rewrite Hskip. destruct Hd0 as [v0 Hv0]. rewrite Hv0.
  change (d0 :: ds ++ c :: tail) with ((d0 :: ds) ++ c :: tail).
  rewrite (scan_digits_run digit base (d0 :: ds) (c :: tail) Hds Hc 0).
  reflexivity.
Qed.

Lemma strtoul_value_small (max v : Z) :
  v <= max -> strtoul_value max false v = v.
Proof.
  intros Hv. unfold strtoul_value.
  destruct (Z.ltb_spec max v); [lia | reflexivity].
Qed.

Lemma scan_x64_run (ds : list ascii) (c : ascii) (tail : list ascii) :
  digit_run hex_digit ds -> hex_digit c = None ->
  c <> "x"%char -> c <> "X"%char ->
  scan_x64 (ds ++ c :: tail)
  = Some (strtoul_value UINT64_MAX false (hex_value ds), c :: tail).
Proof.
  intros Hds Hc Hx HX. unfold scan_x64.
  apply scan_number_run; auto.
  intros c' Hc'. destruct (hex_digit_char c' Hc') as (? & ? & ? & ? & ?).
  auto.
Qed.

Lemma scan_hhx_run (ds : list ascii) (c : ascii) (tail : list ascii) :
  digit_run hex_digit ds -> hex_digit c = None ->
  c <> "x"%char -> c <> "X"%char ->
  exists v, scan_hhx (ds ++ c :: tail) = Some (v, c :: tail).
Proof.
  intros Hds Hc Hx HX. unfold scan_hhx.
  fold scan_x64. rewrite scan_x64_run by assumption. eexists. reflexivity.
Qed.

Lemma scan_u64_run (ds : list ascii) (c : ascii) (tail : list ascii) :
  digit_run dec_digit ds -> dec_digit c = None ->
  exists v, scan_u64 (ds ++ c :: tail) = Some (v, c :: tail).
Proof.
  intros Hds Hc. unfold scan_u64.
  rewrite scan_number_run; [eexists; reflexivity | exact Hds | | exact Hc |].
  - intros c' Hc'. destruct (dec_digit_char c' Hc') as (? & ? & ?).
    repeat split; auto; discriminate.
  - discriminate.
Qed.

(** White space before a digit run is skipped up to the run. *)
Lemma skip_space_run (digit : ascii -> option Z) (ds tail : list ascii) :
  digit_run digit ds ->
  (forall c', is_Some (digit c') -> isspace c' = false) ->
  skip_space (" "%char :: ds ++ tail) = ds ++ tail.
Proof.
  intros [Hne Hds] Hchar. destruct ds as [|d0 ds]; [contradiction|].
  apply Forall_cons in Hds as [Hd0 _].
  simpl. rewrite (Hchar d0 Hd0). reflexivity.
Qed.

Lemma skip_space_pad (pad s : list ascii) :
  Forall (fun c => c = " "%char) pad ->
  skip_space (pad ++ s) = skip_space s.
Proof.
  induction 1 as [|c pad -> Hpad IH]; [reflexivity|].
  simpl. exact IH.
Qed.

Lemma after_inode (l : map_line_t) (rest : list ascii) :
  well_formed_line l ->
  exists c tail,
    f_pad l ++ f_path l ++ NL :: rest = c :: tail /\ dec_digit c = None.
Proof.
  intros (_ & _ & _ & _ & _ & _ & _ & _ & _ & _ & _ & Hpad & _ & Hpath).
  destruct (f_pad l) as [|c pad].
  - destruct (f_path l) as [|c path].
    + exists NL, rest. split; reflexivity.
    + destruct Hpath as [Hp _]; [discriminate | contradiction].
  - apply Forall_cons in Hpad as [-> _].
    eexists _, _. split; reflexivity.
Qed.

(** The [sscanf] call on a well-formed line: all seven conversions, the
    values of the line, and everything up to the path consumed. *)
Lemma sscanf_well_formed (l : map_line_t) (rest : list ascii) :
  well_formed_line l ->
  sscanf_maps_line (line_text l ++ rest) zero_parsed
  = (7,
     mk_parsed (hex_value (f_start l)) (hex_value (f_end l))
       (hex_value (f_offset l)) (f_perms l ++ [NUL]) null_slice,
     (length (line_text l ++ rest)
      - length (skip_space (f_pad l ++ f_path l ++ NL :: rest)))%nat).
Proof.
  intros Hwf.
  destruct (after_inode l rest Hwf) as (c & tail & Htail & Hc).
  destruct Hwf as (Hs & Hsv & He & Hev & Hplen & Hpsp & Ho & Hov & Hmaj
                   & Hmin & Hino & Hpad & Hnl & Hpath).
  unfold sscanf_maps_line.
  remember (length (line_text l ++ rest)) as total eqn:Htotal.
  unfold line_text, line_fields.
  repeat rewrite <- ?app_assoc, <- ?app_comm_cons.
  cbn [app].
  rewrite scan_x64_run by first [assumption | reflexivity | discriminate].
  rewrite strtoul_value_small by assumption.
  cbn [scan_literal Ascii.eqb Bool.eqb].
  rewrite scan_x64_run by first [assumption | reflexivity | discriminate].
  rewrite strtoul_value_small by assumption.
  destruct (f_perms l) as [|p0 [|p1 [|p2 [|p3 [|p4 perms]]]]];
    try discriminate Hplen.
  apply Forall_cons in Hpsp as [Hp0 _].
  cbn [app skip_space]. change (isspace " ") with true. cbv iota.
  rewrite Hp0. cbn [scan_4c firstn skipn].
  rewrite (skip_space_run hex_digit)
    by first [assumption | intros c' Hc'; apply hex_digit_char, Hc'].
  rewrite scan_x64_run by first [assumption | reflexivity | discriminate].
  rewrite strtoul_value_small by assumption.
  rewrite (skip_space_run hex_digit)
    by first [assumption | intros c' Hc'; apply hex_digit_char, Hc'].
  destruct (scan_hhx_run (f_major l) ":"
              (f_minor l ++ " "%char :: f_inode l ++ f_pad l ++ f_path l
               ++ NL :: rest) Hmaj) as [vmaj ->];
    [reflexivity | discriminate | discriminate |].
  cbn [scan_literal Ascii.eqb Bool.eqb].
  destruct (scan_hhx_run (f_minor l) " "
              (f_inode l ++ f_pad l ++ f_path l ++ NL :: rest) Hmin)
    as [vmin ->]; [reflexivity | discriminate | discriminate |].
  rewrite (skip_space_run dec_digit)
    by first [assumption | intros c' Hc'; apply dec_digit_char, Hc'].
  rewrite Htail.
  destruct (scan_u64_run (f_inode l) c tail Hino Hc) as [vino ->].
  reflexivity.
Qed.

Lemma strchr_first (s : list ascii) (c : ascii) (t : list ascii) :
  c ∉ s -> strchr (s ++ c :: t) c = Some (length s).
Proof.
  induction s as [|c' s IH]; intros Hnot; simpl.
  - rewrite Ascii.eqb_refl. reflexivity.
  - destruct (Ascii.eqb_spec c' c) as [-> | Hne].
    + exfalso. apply Hnot. left.
    + rewrite IH; [reflexivity|]. intros Hin. apply Hnot. right. exact Hin.
Qed.

(** The parser on the text of a well-formed line, from the [sscanf] call
    on: the newline of a line without a path is white space that [%n]
    counts, the path of a line with one ends at the first newline. *)
Lemma parse_line_text (l : map_line_t) (rest : list ascii) :
  well_formed_line l ->
  (f_path l = [] -> skip_space rest = rest) ->
  sentry__procmaps_parse_module_line (line_text l ++ rest) zero_parsed
  = (Z.of_nat (length (line_text l)), parsed_of_line l rest).
Proof.
  intros Hwf Hrest.
  unfold sentry__procmaps_parse_module_line.
  rewrite (sscanf_well_formed l rest Hwf).
  change (7 <? 7) with false. cbv iota.
  destruct Hwf as (_ & _ & _ & _ & _ & _ & _ & _ & _ & _ & _ & Hpad & Hnl
                   & Hpath).
  rewrite (skip_space_pad _ _ Hpad).
  unfold parsed_of_line, line_text.
  destruct (f_path l) as [|c path] eqn:Hp.
  - (* no path: the newline is consumed by the scanner *)
    clear Hpath. specialize (Hrest eq_refl). cbn [app skip_space].
    change (isspace NL) with true. cbv iota. rewrite Hrest.
    set (before := line_fields l ++ f_pad l).
    replace ((line_fields l ++ f_pad l ++ [NL]) ++ rest)
      with (before ++ NL :: rest)
      by (unfold before; rewrite <- !app_assoc; reflexivity).
    replace (line_fields l ++ f_pad l ++ [NL]) with (before ++ [NL])
      by (unfold before; rewrite <- !app_assoc; reflexivity).
    rewrite !length_app. cbn [length].
    replace (length before + S (length rest) - length rest)%nat
      with (S (length before)) by lia.
    replace (S (length before) - 1)%nat with (length before) by lia.
    rewrite (char_at_lookup _ _ NL)
      by (rewrite lookup_app_r, Nat.sub_diag by lia; reflexivity).
    rewrite Nat.add_1_r. reflexivity.
  - (* a path: the scanner stops in front of it *)
    destruct Hpath as (Hpadne & c' & path' & Heq & Hsp); [discriminate|].
    injection Heq as <- <-. rewrite <- Hp in *.
    assert (Hskip : skip_space (f_path l ++ NL :: rest)
                    = f_path l ++ NL :: rest)
      by (rewrite Hp; simpl; rewrite Hsp; reflexivity).
    rewrite Hskip.
    set (before := line_fields l ++ f_pad l).
    set (after := f_path l ++ NL :: rest).
    replace ((line_fields l ++ f_pad l ++ f_path l ++ [NL]) ++ rest)
      with (before ++ after)
      by (unfold before, after; rewrite <- !app_assoc; reflexivity).
    rewrite length_app.
    replace (length before + length after - length after)%nat
      with (length before) by lia.
    rewrite drop_app_length.
    assert (Hlast : char_at (before ++ after) (length before - 1)
                    = " "%char).
    { assert (Hpadlen : (0 < length (f_pad l))%nat)
        by (destruct (f_pad l); [contradiction | simpl; lia]).
      apply char_at_lookup. unfold before.
      rewrite lookup_app_l by (rewrite length_app; lia).
      rewrite lookup_app_r by (rewrite length_app; lia).
      replace (length (line_fields l ++ f_pad l) - 1
               - length (line_fields l))%nat
        with (length (f_pad l) - 1)%nat by (rewrite length_app; lia).
      destruct (f_pad l !! (length (f_pad l) - 1)%nat) as [x|] eqn:Hx.
      - rewrite (Forall_lookup_1 _ _ _ _ Hpad Hx). reflexivity.
      - apply lookup_ge_None in Hx. lia. }
    rewrite Hlast. change (Ascii.eqb " " NL) with false.
    rewrite andb_false_r.
    unfold after at 1 2. rewrite (strchr_first _ _ _ Hnl).
    rewrite Hp at 3.
    f_equal.
    + replace (line_fields l ++ f_pad l ++ f_path l ++ [NL])
        with (before ++ f_path l ++ [NL])
        by (unfold before; rewrite <- !app_assoc; reflexivity).
      rewrite !length_app. cbn [length]. lia.
    + rewrite <- Hp. reflexivity.
Qed.

(** On a well-formed line the parser delivers the values of the line and
    the length of the line; after a line without a path the buffer has to
    go on with something else than white space (or to end). *)
Theorem parse_well_formed (l : map_line_t) (rest : list ascii) :
  well_formed_line l ->
  (f_path l = [] -> skip_space rest = rest) ->
  sentry__procmaps_parse_module_line (line_text l ++ rest) zero_parsed
  = (Z.of_nat (length (line_text l)), parsed_of_line l rest).
Proof. apply parse_line_text. Qed.

(** *** What the scanner accepts *)

Lemma skip_space_split (s : list ascii) :
  exists w, s = w ++ skip_space s /\ space_run w.
Proof.
  induction s as [|c s (w & Hw & Hsp)].
  - exists []. split; [reflexivity | constructor].
  - simpl. destruct (isspace c) eqn:Hc.
    + exists (c :: w). split; [simpl; rewrite <- Hw; reflexivity|].
      constructor; assumption.
    + exists []. split; [reflexivity | constructor].
Qed.

Lemma scan_digits_split (digit : ascii -> option Z) (base : Z)
    (s : list ascii) :
  forall acc v rest,
    scan_digits digit base acc s = (v, rest) ->
    exists ds, s = ds ++ rest /\ Forall (fun c => is_Some (digit c)) ds.
Proof.
  induction s as [|c s IH]; intros acc v rest H; simpl in H.
  - injection H as _ <-. exists []. split; [reflexivity | constructor].
  - destruct (digit c) as [d|] eqn:Hd.
    + destruct (IH _ _ _ H) as (ds & -> & Hds).
      exists (c :: ds). split; [reflexivity|].
      constructor; [rewrite Hd; eexists; reflexivity | exact Hds].
    + injection H as _ <-. exists []. split; [reflexivity | constructor].
Qed.

Lemma scan_sign_split (s : list ascii) (neg : bool) (s2 : list ascii) :
  scan_sign s = (neg, s2) ->
  exists sign,
    s = sign ++ s2
    /\ (sign = [] \/ sign = ["-"%char] \/ sign = ["+"%char]).
Proof.
  unfold scan_sign. intros Hsign. destruct s as [|c t].
  - injection Hsign as _ <-. exists []. auto.
  - destruct (Ascii.eqb_spec c "-") as [-> | _].
    + injection Hsign as _ <-. exists ["-"%char]. auto.
    + destruct (Ascii.eqb_spec c "+") as [-> | _].
      * injection Hsign as _ <-. exists ["+"%char]. auto.
      * injection Hsign as _ <-. exists []. auto.
Qed.

Lemma skip_0x_split (s t : list ascii) :
  skip_0x s = Some t ->
  s = "0"%char :: "x"%char :: t \/ s = "0"%char :: "X"%char :: t.
Proof.
  unfold skip_0x. destruct s as [|c0 [|c1 t']]; try discriminate.
  destruct (Ascii.eqb_spec c0 "0") as [-> | _]; [|discriminate].
  destruct (Ascii.eqb_spec c1 "x") as [-> | _].
  - intros H. injection H as <-. left. reflexivity.
  - destruct (Ascii.eqb_spec c1 "X") as [-> | _]; [|discriminate].
    intros H. injection H as <-. right. reflexivity.
Qed.

Lemma scan_number_inv (digit : ascii -> option Z) (base : Z) (prefix : bool)
    (max : Z) (s : list ascii) (v : Z) (rest : list ascii) :
  scan_number digit base prefix max s = Some (v, rest) ->
  exists f, s = f ++ rest /\ field_text digit prefix f.
Proof.
  unfold scan_number. intros H.
  destruct (skip_space_split s) as (w & Hw & Hsp).
  destruct (scan_sign (skip_space s)) as [neg s2] eqn:Hsign.
  destruct (scan_sign_split _ _ _ Hsign) as (sign & Hsign' & Hsigns).
  assert (Hnum : exists pre ds,
            s2 = pre ++ ds ++ rest
            /\ Forall (fun c => is_Some (digit c)) ds
            /\ ((pre = [] /\ ds <> [])
                \/ (prefix = true
                    /\ (pre = ["0"%char; "x"%char]
                        \/ pre = ["0"%char; "X"%char])))).
  { destruct (if prefix then skip_0x s2 else None) as [t|] eqn:Hpre.
    - destruct prefix; [|discriminate Hpre].
      destruct (scan_digits digit base 0 t) as [v' rest'] eqn:Hscan.
      injection H as _ <-.
      destruct (scan_digits_split _ _ _ _ _ _ Hscan) as (ds & Hds & Hall).
      destruct (skip_0x_split _ _ Hpre) as [-> | ->].
      + exists ["0"%char; "x"%char], ds. rewrite Hds.
        split; [reflexivity|]. split; [exact Hall|]. right. auto.
      + exists ["0"%char; "X"%char], ds. rewrite Hds.
        split; [reflexivity|]. split; [exact Hall|]. right. auto.
    - destruct s2 as [|c t]; [discriminate H|].
      destruct (digit c) as [d|] eqn:Hd; [|discriminate H].
      destruct (scan_digits digit base 0 (c :: t)) as [v' rest'] eqn:Hscan.
      injection H as _ <-.
      destruct (scan_digits_split _ _ _ _ _ _ Hscan) as (ds & Hds & Hall).
      exists [], ds. split; [exact Hds|]. split; [exact Hall|].
      left. split; [reflexivity|].
      intros ->. simpl in Hds. subst rest'.
      simpl in Hscan. rewrite Hd in Hscan.
      destruct (scan_digits_split _ _ _ _ _ _ Hscan) as (ds' & Hlen & _).
      apply (f_equal length) in Hlen. rewrite length_app in Hlen.
      simpl in Hlen. lia. }
  destruct Hnum as (pre & ds & Hs2 & Hall & Hshape).
  exists (w ++ sign ++ pre ++ ds). split.
  - rewrite Hw at 1. rewrite Hsign', Hs2.
    rewrite <- !app_assoc. reflexivity.
  - exists w, (sign ++ pre ++ ds). split; [reflexivity|].
    split; [exact Hsp|].
    exists sign, pre, ds. auto.
Qed.

Lemma field_after_space (digit : ascii -> option Z) (prefix : bool)
    (s f rest : list ascii) :
  skip_space s = f ++ rest -> field_text digit prefix f ->
  exists f', s = f' ++ rest /\ field_text digit prefix f'.
Proof.
  intros Hs (w & t & -> & Hw & Ht).
  destruct (skip_space_split s) as (w0 & Hw0 & Hsp0).
  exists (w0 ++ w ++ t). split.
  - rewrite Hw0 at 1. rewrite Hs, <- !app_assoc. reflexivity.
  - exists (w0 ++ w), t. split; [rewrite <- app_assoc; reflexivity|].
    split; [apply Forall_app; split; assumption | exact Ht].
Qed.

Lemma scan_hhx_inv (s : list ascii) (v : Z) (rest : list ascii) :
  scan_hhx s = Some (v, rest) ->
  exists f, s = f ++ rest /\ field_text hex_digit true f.
Proof.
  unfold scan_hhx. intros H.
  destruct (scan_number hex_digit 16 true UINT64_MAX s) as [[v' rest']|]
    eqn:Hs; [|discriminate H].
  injection H as _ <-. eapply scan_number_inv, Hs.
Qed.

Lemma scan_literal_inv (c : ascii) (s rest : list ascii) :
  scan_literal c s = Some rest -> s = c :: rest.
Proof.
  unfold scan_literal. destruct s as [|c' t]; [discriminate|].
  destruct (Ascii.eqb_spec c' c) as [-> | _]; [|discriminate].
  intros H. injection H as <-. reflexivity.
Qed.

Lemma scan_4c_inv (s perms rest : list ascii) :
  scan_4c s = Some (perms, rest) ->
  s = perms ++ rest /\ (length perms = 4%nat \/ rest = []).
Proof.
  unfold scan_4c. destruct s as [|c0 [|c1 [|c2 [|c3 t]]]]; try discriminate;
    intros H; injection H as <- <-; split; auto.
Qed.

(** Seven conversions are stored only for a buffer of the shape that
    [scannable] describes. *)
Lemma sscanf_seven_scannable (buffer : list ascii)
    (module : sentry_parsed_module_t) :
  fst (fst (sscanf_maps_line buffer module)) = 7 -> scannable buffer.
Proof.
  unfold sscanf_maps_line.
  destruct (scan_x64 buffer) as [[v1 s1]|] eqn:H1;
    [|destruct (skip_space buffer); discriminate].
  destruct (scan_literal "-" s1) as [s2|] eqn:H2; [|discriminate].
  destruct (scan_x64 s2) as [[v2 s3]|] eqn:H3; [|discriminate].
  destruct (scan_4c (skip_space s3)) as [[perms s4]|] eqn:H4; [|discriminate].
  destruct (scan_x64 (skip_space s4)) as [[v3 s5]|] eqn:H5; [|discriminate].
  destruct (scan_hhx (skip_space s5)) as [[v4 s6]|] eqn:H6; [|discriminate].
  destruct (scan_literal ":" s6) as [s7|] eqn:H7; [|discriminate].
  destruct (scan_hhx s7) as [[v5 s8]|] eqn:H8; [|discriminate].
  destruct (scan_u64 (skip_space s8)) as [[v6 s9]|] eqn:H9; [|discriminate].
  intros _.
  apply scan_number_inv in H1 as (f1 & E1 & F1).
  apply scan_literal_inv in H2 as E2.
  apply scan_number_inv in H3 as (f2 & E3 & F2).
  apply scan_4c_inv in H4 as (E4 & [Hperms | ->]);
    [|cbv in H5; discriminate H5].
  destruct (skip_space_split s3) as (w & Ew & Hw).
  apply scan_number_inv in H5 as (f3' & E5 & F3').
  destruct (field_after_space _ _ _ _ _ E5 F3') as (f3 & E5' & F3).
  apply scan_hhx_inv in H6 as (f4' & E6 & F4').
  destruct (field_after_space _ _ _ _ _ E6 F4') as (f4 & E6' & F4).
  apply scan_literal_inv in H7 as E7.
  apply scan_hhx_inv in H8 as (f5 & E8 & F5).
  apply scan_number_inv in H9 as (f6' & E9 & F6').
  destruct (field_after_space _ _ _ _ _ E9 F6') as (f6 & E9' & F6).
  exists f1, f2, w, perms, f3, f4, f5, f6, s9.
  split; [|repeat split; assumption].
  rewrite E1, E2, E3, Ew, E4, E5', E6', E7, E8, E9'.
  rewrite <- ?app_assoc. reflexivity.
Qed.

(** The parser returns 0 exactly when fewer than seven conversions are
    stored. *)
Lemma parse_zero_iff (buffer : list ascii)
    (module : sentry_parsed_module_t) :
  fst (sentry__procmaps_parse_module_line buffer module) = 0
  <-> fst (fst (sscanf_maps_line buffer module)) < 7.
Proof.
  unfold sentry__procmaps_parse_module_line.
  destruct (sscanf_maps_line buffer module) as [[n m] consumed] eqn:Hscan.
  simpl. destruct (Z.ltb_spec n 7) as [Hlt | Hge]; [tauto|].
  split; [|lia]. intros Hzero. exfalso.
  assert (Hne : buffer <> []).
  { intros ->. unfold sscanf_maps_line in Hscan. simpl in Hscan.
    injection Hscan as <- _ _. lia. }
  assert (Hcons : (consumed <= length buffer)%nat).
  { unfold sscanf_maps_line in Hscan.
    repeat match type of Hscan with
           | match ?x with _ => _ end = _ =>
               destruct x as [[? ?]|] || destruct x as [?|]
               || destruct x
           end;
      injection Hscan as _ _ <-; lia. }
  destruct ((0 <? consumed)%nat
            && Ascii.eqb (char_at buffer (consumed - 1)) NL) eqn:Hb.
  - apply andb_true_iff in Hb as [Hpos _]. apply Nat.ltb_lt in Hpos.
    simpl in Hzero. lia.
  - destruct (strchr (drop consumed buffer) NL); simpl in Hzero; [lia|].
    rewrite length_drop in Hzero.
    destruct buffer; [contradiction | simpl in *; lia].
Qed.

(** ** More on the address translation *)

(** The test of the loop on a region, for values without wrap-around. *)
Lemma file_range_test (r : sentry_mapped_region_t) (start_offset : Z) :
  0 <= region_offset r -> 0 <= region_size r ->
  region_offset r + region_size r < 2 ^ 64 ->
  ((region_offset r <=? start_offset)
   && (start_offset <? u64 (region_offset r + region_size r)) = true
   <-> in_file_range r start_offset).
Proof.
  intros Ho Hs He. rewrite u64_small by lia.
  unfold in_file_range. rewrite andb_true_iff, Z.leb_le, Z.ltb_lt.
  reflexivity.
Qed.

Lemma get_addr_loop_nonzero (mappings : list sentry_mapped_region_t)
    (start_offset size : Z) :
  forall addr addr_end A,
    get_addr_loop mappings addr addr_end start_offset size = Some A ->
    A <> 0.
Proof.
  induction mappings as [|m rest IH]; intros addr addr_end A H;
    [discriminate H|].
  simpl in H.
  destruct (negb (addr =? 0) && (addr_end <? region_addr m));
    [discriminate H|].
  match type of H with
  | (if negb (?a =? 0) && _ then _ else _) = _ =>
      destruct (Z.eqb_spec a 0) as [E | E]; simpl in H
  end.
  - eapply IH, H.
  - match type of H with
    | (if ?b then _ else _) = _ => destruct b
    end.
    + injection H as <-. exact E.
    + eapply IH, H.
Qed.

(** The translation never answers with the address 0: an answer is a
    pointer that the callers test against [NULL]. *)
Theorem get_addr_never_null (module : sentry_module_t)
    (start_offset size : Z) :
  sentry__module_get_addr module start_offset size <> Some 0.
Proof.
  intros H. apply get_addr_loop_nonzero in H. contradiction.
Qed.

Lemma get_addr_loop_no_candidate (mappings : list sentry_mapped_region_t)
    (start_offset size x y : Z) :
  get_addr_loop mappings 0 x start_offset size
  = get_addr_loop mappings 0 y start_offset size.
Proof. destruct mappings; reflexivity. Qed.

Lemma file_range_test_sound (r : sentry_mapped_region_t) (start_offset : Z) :
  region_wf r ->
  (region_offset r <=? start_offset)
  && (start_offset <? u64 (region_offset r + region_size r)) = true ->
  in_file_range r start_offset.
Proof.
  intros (Ho & Hs & _) H. apply andb_true_iff in H as [H1 H2].
  apply Z.leb_le in H1. apply Z.ltb_lt in H2. unfold in_file_range.
  split; [exact H1|].
  destruct (Z_lt_ge_dec (region_offset r + region_size r) (2 ^ 64)).
  - rewrite u64_small in H2 by lia. exact H2.
  - rewrite u64_wrapped in H2 by lia. lia.
Qed.

(** Regions whose file range does not hold the offset are passed over
    while there is no candidate. *)
Lemma get_addr_loop_skip (pre rest : list sentry_mapped_region_t)
    (start_offset size : Z) :
  (forall r, r ∈ pre -> region_wf r /\ ~ in_file_range r start_offset) ->
  forall addr_end,
    get_addr_loop (pre ++ rest) 0 addr_end start_offset size
    = get_addr_loop rest 0 addr_end start_offset size.
Proof.
  induction pre as [|m pre IH]; intros Hpre addr_end; [reflexivity|].
  destruct (Hpre m) as [Hwf Hout]; [left|].
  simpl.
  destruct ((region_offset m <=? start_offset)
            && (start_offset <? u64 (region_offset m + region_size m)))
    eqn:Hhit.
  - exfalso. apply Hout. apply file_range_test_sound; assumption.
  - simpl. rewrite IH by (intros r Hr; apply Hpre; right; exact Hr).
    apply get_addr_loop_no_candidate.
Qed.

(** The step of the loop on the region that holds the offset, with the
    address computed without wrap-around. *)
Lemma candidate_address (r : sentry_mapped_region_t) (start_offset : Z) :
  region_wf r -> in_file_range r start_offset ->
  u64 (u64 (start_offset - region_offset r) + region_addr r)
  = start_offset - region_offset r + region_addr r.
Proof.
  intros (Ho & Hs & Ha & He) [H1 H2].
  rewrite (u64_small (start_offset - region_offset r)) by lia.
  apply u64_small. lia.
Qed.

(** A request that lies in a single stored region is translated: when the
    offset is in the file range of a region and of none before it, and the
    bytes asked for end inside that region, the answer is the address of the
    offset in that region. *)
Theorem get_addr_within_one_region (module : sentry_module_t)
    (pre post : list sentry_mapped_region_t) (r : sentry_mapped_region_t)
    (start_offset size : Z) :
  stored_regions module = pre ++ r :: post ->
  (forall r', r' ∈ stored_regions module -> region_wf r') ->
  (forall r', r' ∈ pre -> ~ in_file_range r' start_offset) ->
  in_file_range r start_offset ->
  region_offset r + region_size r < 2 ^ 64 ->
  0 < region_addr r -> 0 <= size ->
  start_offset - region_offset r + size <= region_size r ->
  sentry__module_get_addr module start_offset size
  = Some (start_offset - region_offset r + region_addr r).
Proof.
  intros Hst Hwf Hpre Hin Hno Haddr Hsize Hfit.
  assert (Hr : region_wf r)
    by (apply Hwf; rewrite Hst; apply elem_of_app; right; left).
  unfold sentry__module_get_addr. rewrite Hst.
  rewrite get_addr_loop_skip.
  2:{ intros r' Hr'. split; [|apply Hpre; exact Hr'].
      apply Hwf. rewrite Hst. apply elem_of_app. left. exact Hr'. }
  simpl.
  rewrite (proj2 (file_range_test r start_offset
                    (proj1 (proj1 Hr)) (proj1 (proj1 (proj2 Hr))) Hno) Hin).
  rewrite (candidate_address r start_offset Hr Hin).
  destruct Hr as (Ho & Hs & Ha & He). destruct Hin as [H1 H2].
  rewrite (u64_small (start_offset - region_offset r + region_addr r + size))
    by lia.
  rewrite (u64_small (region_addr r + region_size r)) by lia.
  destruct (Z.eqb_spec (start_offset - region_offset r + region_addr r) 0);
    [lia|].
  destruct (Z.leb_spec
              (start_offset - region_offset r + region_addr r + size)
              (region_addr r + region_size r)); [reflexivity | lia].
Qed.

(** The loop after the region [r1] that gave the candidate, in front of the
    next region [r2], when the request runs over the end of [r1]. *)
Lemma get_addr_two_regions (module : sentry_module_t)
    (pre post : list sentry_mapped_region_t)
    (r1 r2 : sentry_mapped_region_t) (start_offset size : Z) :
  stored_regions module = pre ++ r1 :: r2 :: post ->
  (forall r', r' ∈ stored_regions module -> region_wf r') ->
  (forall r', r' ∈ pre -> ~ in_file_range r' start_offset) ->
  in_file_range r1 start_offset ->
  region_offset r1 + region_size r1 < 2 ^ 64 ->
  0 < region_addr r1 -> 0 <= size ->
  let A := start_offset - region_offset r1 + region_addr r1 in
  A + size < 2 ^ 64 ->
  region_addr r1 + region_size r1 < A + size ->
  sentry__module_get_addr module start_offset size
  = get_addr_loop (r2 :: post) A (region_addr r1 + region_size r1)
      start_offset size.
Proof.
  intros Hst Hwf Hpre Hin Hno Haddr Hsize A HA Hover.
  assert (Hr : region_wf r1)
    by (apply Hwf; rewrite Hst; apply elem_of_app; right; left).
  unfold sentry__module_get_addr. rewrite Hst.
  rewrite get_addr_loop_skip.
  2:{ intros r' Hr'. split; [|apply Hpre; exact Hr'].
      apply Hwf. rewrite Hst. apply elem_of_app. left. exact Hr'. }
  cbn [get_addr_loop]. change (negb (0 =? 0)) with false. cbn [andb].
  rewrite (proj2 (file_range_test r1 start_offset
                    (proj1 (proj1 Hr)) (proj1 (proj1 (proj2 Hr))) Hno) Hin).
  rewrite (candidate_address r1 start_offset Hr Hin). fold A.
  destruct Hr as (Ho & Hs & Ha & He). destruct Hin as [H1 H2].
  rewrite (u64_small (A + size)) by (unfold A in *; lia).
  rewrite (u64_small (region_addr r1 + region_size r1)) by lia.
  destruct (Z.leb_spec (A + size) (region_addr r1 + region_size r1)); [lia|].
  rewrite andb_false_r. reflexivity.
Qed.

(** Contiguity is tested on the addresses alone.  A request that starts in
    one region and ends in the next is translated to the address in the
    first region when the next region starts no later than the first one
    ends and its file range does not hold the offset itself; the file
    offsets of the next region need not follow those of the first.  (Where
    the file range of the next region holds the offset too, the candidate is
    taken anew from that region.) *)
Theorem get_addr_spans_adjacent_regions (module : sentry_module_t)
    (pre post : list sentry_mapped_region_t)
    (r1 r2 : sentry_mapped_region_t) (start_offset size : Z) :
  stored_regions module = pre ++ r1 :: r2 :: post ->
  (forall r', r' ∈ stored_regions module -> region_wf r') ->
  (forall r', r' ∈ pre -> ~ in_file_range r' start_offset) ->
  in_file_range r1 start_offset ->
  region_offset r1 + region_size r1 < 2 ^ 64 ->
  ~ in_file_range r2 start_offset ->
  0 < region_addr r1 -> 0 <= size ->
  let A := start_offset - region_offset r1 + region_addr r1 in
  region_addr r1 + region_size r1 < A + size ->
  region_addr r2 <= region_addr r1 + region_size r1 ->
  A + size <= region_addr r2 + region_size r2 ->
  sentry__module_get_addr module start_offset size = Some A.
Proof.
  intros Hst Hwf Hpre Hin Hno Hout Haddr Hsize A Hover Hnogap Hfit.
  assert (Hr2 : region_wf r2).
  { apply Hwf. rewrite Hst. apply elem_of_app. right. right. left. }
  assert (HA : A + size < 2 ^ 64) by (destruct Hr2 as (_ & _ & _ & ?); lia).
  rewrite (get_addr_two_regions module pre post r1 r2 start_offset size)
    by assumption.
  fold A. cbn [get_addr_loop].
  destruct (Z.ltb_spec (region_addr r1 + region_size r1) (region_addr r2));
    [lia|].
  rewrite andb_false_r.
  destruct ((region_offset r2 <=? start_offset)
            && (start_offset <? u64 (region_offset r2 + region_size r2)))
    eqn:Hhit.
  { exfalso. apply Hout. apply file_range_test_sound; assumption. }
  destruct Hr2 as (Ho & Hs & Ha & He).
  rewrite (u64_small (A + size)) by (unfold A, in_file_range in *; lia).
  rewrite (u64_small (region_addr r2 + region_size r2)) by lia.
  destruct (Z.eqb_spec A 0); [unfold A, in_file_range in *; lia|].
  destruct (Z.leb_spec (A + size) (region_addr r2 + region_size r2));
    [reflexivity | lia].
Qed.

(** A gap in the addresses is never bridged: when the request runs over
    the end of the region of its offset and the next stored region starts
    behind that end, the translation fails. *)
Theorem get_addr_refuses_gap (module : sentry_module_t)
    (pre post : list sentry_mapped_region_t)
    (r1 r2 : sentry_mapped_region_t) (start_offset size : Z) :
  stored_regions module = pre ++ r1 :: r2 :: post ->
  (forall r', r' ∈ stored_regions module -> region_wf r') ->
  (forall r', r' ∈ pre -> ~ in_file_range r' start_offset) ->
  in_file_range r1 start_offset ->
  region_offset r1 + region_size r1 < 2 ^ 64 ->
  0 < region_addr r1 -> 0 <= size ->
  let A := start_offset - region_offset r1 + region_addr r1 in
  A + size < 2 ^ 64 ->
  region_addr r1 + region_size r1 < A + size ->
  region_addr r1 + region_size r1 < region_addr r2 ->
  sentry__module_get_addr module start_offset size = None.
Proof.
  intros Hst Hwf Hpre Hin Hno Haddr Hsize A HA Hover Hgap.
  rewrite (get_addr_two_regions module pre post r1 r2 start_offset size)
    by assumption.
  fold A. cbn [get_addr_loop].
  destruct (Z.eqb_spec A 0); [unfold A, in_file_range in *; lia|].
  destruct (Z.ltb_spec (region_addr r1 + region_size r1) (region_addr r2));
    [reflexivity | lia].
Qed.

Ltac regions_wf :=
  apply Forall_forall;
  repeat (apply Forall_cons_2; [unfold region_wf; simpl; lia|]);
  apply Forall_nil_2.

Ltac no_region :=
  let r := fresh "r" in
  let H := fresh "H" in
  intros r H; inversion H.

Lemma get_addr_sound_witness :
  (exists r, r ∈ stored_regions file_gap_module /\ in_file_range r 8192
             /\ 69632 = 8192 - region_offset r + region_addr r)
  /\ range_mapped (stored_regions file_gap_module) 69632 4096.
Proof.
  apply (get_addr_sound_without_overflow file_gap_module 8192 4096 69632).
  - change (stored_regions file_gap_module)
      with [mk_region 0 4096 65536; mk_region 8192 4096 69632]. regions_wf.
  - lia.
  - lia.
  - reflexivity.
  - lia.
Defined.

Lemma get_addr_within_one_region_witness :
  sentry__module_get_addr file_gap_module 8292 100 = Some 69732.
Proof.
  apply (get_addr_within_one_region file_gap_module
           [mk_region 0 4096 65536] [] (mk_region 8192 4096 69632) 8292 100).
  - reflexivity.
  - change (stored_regions file_gap_module)
      with [mk_region 0 4096 65536; mk_region 8192 4096 69632]. regions_wf.
  - intros r' Hr'. apply list_elem_of_singleton in Hr'. subst r'.
    unfold in_file_range. simpl. lia.
  - unfold in_file_range. simpl. lia.
  - simpl. lia.
  - simpl. lia.
  - lia.
  - simpl. lia.
Defined.

Lemma get_addr_spans_adjacent_regions_witness :
  sentry__module_get_addr file_gap_module 0 6144 = Some 65536.
Proof.
  apply (get_addr_spans_adjacent_regions file_gap_module []
           [] (mk_region 0 4096 65536) (mk_region 8192 4096 69632) 0 6144).
  - reflexivity.
  - change (stored_regions file_gap_module)
      with [mk_region 0 4096 65536; mk_region 8192 4096 69632]. regions_wf.
  - no_region.
  - unfold in_file_range. simpl. lia.
  - simpl. lia.
  - unfold in_file_range. simpl. lia.
  - simpl. lia.
  - lia.
  - simpl. lia.
  - simpl. lia.
  - simpl. lia.
Defined.

(** Two regions that both map the file from offset 0 on: the second one
    replaces the candidate of the first, and a request of 6144 bytes fits
    neither. *)
Example candidate_taken_anew :
  sentry__module_get_addr
    (mk_module sample_file
       (mk_region 0 4096 65536 :: mk_region 0 4096 69632
        :: replicate 3 zero_region) 2) 0 6144 = None.
Proof. reflexivity. Qed.

Lemma get_addr_refuses_gap_witness :
  sentry__module_get_addr
    (mk_module sample_file
       (mk_region 0 4096 65536 :: mk_region 4096 4096 73728
        :: replicate 3 zero_region) 2) 0 6144 = None.
Proof.
  apply (get_addr_refuses_gap _ [] [] (mk_region 0 4096 65536)
           (mk_region 4096 4096 73728) 0 6144).
  - reflexivity.
  - change (stored_regions _)
      with [mk_region 0 4096 65536; mk_region 4096 4096 73728]. regions_wf.
  - no_region.
  - unfold in_file_range. simpl. lia.
  - simpl. lia.
  - simpl. lia.
  - lia.
  - simpl. lia.
  - simpl. lia.
  - simpl. lia.
Defined.

(** ** More on the coalescing *)

(** A push leaves the path of the module and all stored regions but the
    last one as they are, and adds at most one region. *)
Theorem push_keeps_earlier_regions (module : sentry_module_t)
    (parsed : sentry_parsed_module_t) :
  module_wf module ->
  let n := module_num_mappings module in
  let pushed := sentry__module_mapping_push module parsed in
  module_file pushed = module_file module
  /\ take (n - 1) (stored_regions pushed)
     = take (n - 1) (stored_regions module)
  /\ (n <= module_num_mappings pushed <= n + 1)%nat.
Proof.
  intros Hwf n pushed.
  assert (Hnew : module_file (push_new_entry module parsed)
                 = module_file module
                 /\ take (n - 1) (stored_regions (push_new_entry module parsed))
                    = take (n - 1) (stored_regions module)
                 /\ (n <= module_num_mappings (push_new_entry module parsed)
                     <= n + 1)%nat).
  { destruct (Nat.lt_ge_cases n MAX_MAPPINGS) as [Hlt | Hge].
    - rewrite stored_push_new_entry by assumption.
      rewrite take_app_le
        by (rewrite stored_regions_length by exact Hwf; fold n; lia).
      unfold push_new_entry. fold n.
      destruct (Nat.ltb_spec n MAX_MAPPINGS); [|lia].
      simpl. repeat split; lia.
    - rewrite push_new_entry_full by exact Hge. fold n.
      repeat split; lia. }
  subst pushed. unfold sentry__module_mapping_push. fold n.
  destruct (0 <? n)%nat eqn:Hpos; [|exact Hnew].
  destruct (module_mappings module !! (n - 1)%nat) as [l|]; [|exact Hnew].
  destruct (contiguous_with l parsed); [|exact Hnew].
  unfold stored_regions. simpl. fold n.
  split; [reflexivity|]. split; [|lia].
  rewrite !take_take.
  replace (Nat.min (n - 1) n) with (n - 1)%nat by lia.
  apply take_insert_ge. lia.
Qed.

Lemma push_keeps_earlier_regions_witness :
  take 4 (stored_regions
            (sentry__module_mapping_push five_region_module
               (fragment 331776 335872 36864)))
  = take 4 (stored_regions five_region_module).
Proof.
  assert (Hwf : module_wf five_region_module)
    by (split; vm_compute; [reflexivity | lia]).
  pose proof (push_keeps_earlier_regions five_region_module
                (fragment 331776 335872 36864) Hwf) as H.
  cbv zeta in H. destruct H as (_ & H & _). exact H.
Defined.

Lemma last_of_cons {A : Type} (l : list A) :
  forall x d, List.last (x :: l) d = List.last l x.
Proof.
  induction l as [|y l IH]; intros x d; [reflexivity|].
  change (List.last (x :: y :: l) d) with (List.last (y :: l) d).
  rewrite !IH. reflexivity.
Qed.

Lemma push_merges_run (fragments : list sentry_parsed_module_t) :
  forall (module : sentry_module_t) (o sz a : Z)
         (d : sentry_parsed_module_t),
    module_wf module -> module_num_mappings module = 1%nat ->
    module_mappings module !! 0%nat = Some (mk_region o sz a) ->
    0 <= a -> 0 <= sz -> a + sz < 2 ^ 64 -> 0 <= o -> o + sz < 2 ^ 64 ->
    parsed_end d = a + sz ->
    contiguous_run (a + sz) (o + sz) fragments ->
    stored_regions (fold_left sentry__module_mapping_push fragments module)
    = [mk_region o (parsed_end (List.last fragments d) - a) a].
Proof.
  induction fragments as [|g rest IH];
    intros module o sz a d Hwf Hnum Hreg Ha Hsz Hend Ho Hoend Hd Hrun.
  - simpl. unfold stored_regions. rewrite Hnum.
    rewrite (take_S_r _ _ _ Hreg). simpl. rewrite Hd. f_equal. f_equal. lia.
  - destruct Hrun as (Hstart & Hoff & Hgend & Hgoff & Hrest).
    assert (Hpush : sentry__module_mapping_push module g
                    = mk_module (module_file module)
                        (<[0%nat := mk_region o (parsed_end g - a) a]>
                           (module_mappings module)) 1).
    { unfold sentry__module_mapping_push. rewrite Hnum. simpl.
      rewrite Hreg. unfold contiguous_with. simpl.
      rewrite (u64_small (a + sz)), (u64_small (o + sz)) by lia.
      rewrite Hstart, Hoff, !Z.eqb_refl. simpl.
      unfold grow_region. simpl.
      rewrite (u64_small (parsed_end g - (a + sz))) by lia.
      rewrite u64_small by lia.
      do 3 f_equal. lia. }
    change (fold_left sentry__module_mapping_push (g :: rest) module)
      with (fold_left sentry__module_mapping_push rest
              (sentry__module_mapping_push module g)).
    rewrite Hpush.
    assert (Hlast : List.last (g :: rest) d = List.last rest g)
      by apply last_of_cons.
    rewrite Hlast.
    destruct Hwf as [Hlen Hn].
    apply (IH _ o (parsed_end g - a) a g); simpl; try lia.
    + split; simpl; [rewrite length_insert; exact Hlen | unfold MAX_MAPPINGS; lia].
    + apply list_lookup_insert_eq. unfold MAX_MAPPINGS in Hlen. lia.
    + replace (a + (parsed_end g - a)) with (parsed_end g) by lia.
      replace (o + (parsed_end g - a))
        with (o + sz + (parsed_end g - (a + sz))) by lia.
      exact Hrest.
Qed.

(** Fragments of one file that follow one another without a gap, in memory
    and in the file, are stored as a single region that reaches from the
    start of the first to the end of the last. *)
Theorem push_coalesces_run (f : sentry_parsed_module_t)
    (fragments : list sentry_parsed_module_t) :
  0 <= parsed_start f <= parsed_end f -> parsed_end f < 2 ^ 64 ->
  0 <= parsed_offset f ->
  parsed_offset f + (parsed_end f - parsed_start f) < 2 ^ 64 ->
  contiguous_run (parsed_end f)
    (parsed_offset f + (parsed_end f - parsed_start f)) fragments ->
  stored_regions
    (fold_left sentry__module_mapping_push (f :: fragments) zero_module)
  = [mk_region (parsed_offset f) (run_end f fragments - parsed_start f)
       (parsed_start f)].
Proof.
  intros Hse Hend Ho Hoend Hrun.
  change (fold_left sentry__module_mapping_push (f :: fragments) zero_module)
    with (fold_left sentry__module_mapping_push fragments
            (sentry__module_mapping_push zero_module f)).
  unfold run_end.
  apply (push_merges_run fragments _ (parsed_offset f)
           (parsed_end f - parsed_start f) (parsed_start f) f).
  - split; [reflexivity | simpl; unfold MAX_MAPPINGS; lia].
  - reflexivity.
  - simpl. unfold region_of_parsed. rewrite u64_small by lia. reflexivity.
  - lia.
  - lia.
  - lia.
  - lia.
  - lia.
  - lia.
  - replace (parsed_start f + (parsed_end f - parsed_start f))
      with (parsed_end f) by lia.
    exact Hrun.
Qed.

Lemma push_coalesces_run_witness :
  stored_regions
    (fold_left sentry__module_mapping_push
       (fragment 65536 69632 0 :: three_fragments) zero_module)
  = [mk_region 0 16384 65536].
Proof.
  apply (push_coalesces_run (fragment 65536 69632 0) three_fragments).
  - simpl. lia.
  - simpl. lia.
  - simpl. lia.
  - simpl. lia.
  - simpl. repeat split; lia.
Defined.

(** ** The note scan *)

Lemma align_no_wrap (alignment offset : Z) :
  0 < alignment -> 0 <= offset -> offset + alignment <= 2 ^ 64 ->
  align alignment offset mod alignment = 0
  /\ offset <= align alignment offset < offset + alignment.
Proof.
  intros Ha H0 Hend. unfold align.
  pose proof (Z.mod_pos_bound offset alignment Ha) as Hm.
  destruct (Z.eqb_spec (offset mod alignment) 0) as [E | E]; simpl.
  - split; [exact E | lia].
  - rewrite u64_small by lia. split; [|lia].
    rewrite (Z.div_mod offset alignment) at 1 by lia.
    replace (alignment * (offset / alignment) + offset mod alignment
             + (alignment - offset mod alignment))
      with ((offset / alignment + 1) * alignment) by ring.
    apply Z.mod_mul. lia.
Qed.

(** Where its sum does not pass the end of the address space, [align]
    moves an offset up to the next multiple of the alignment, and leaves a
    multiple where it is. *)
Theorem align_rounds_up (alignment offset : Z) :
  0 < alignment -> 0 <= offset -> offset + alignment <= 2 ^ 64 ->
  align alignment offset mod alignment = 0
  /\ offset <= align alignment offset < offset + alignment
  /\ (offset mod alignment = 0 -> align alignment offset = offset).
Proof.
  intros Ha H0 Hend.
  destruct (align_no_wrap alignment offset Ha H0 Hend) as [Hmul Hbounds].
  split; [exact Hmul|]. split; [exact Hbounds|].
  intros E. unfold align. rewrite E. reflexivity.
Qed.

Lemma align_rounds_up_witness :
  align 4 13 mod 4 = 0 /\ 13 <= align 4 13 < 13 + 4
  /\ (13 mod 4 = 0 -> align 4 13 = 13).
Proof. apply (align_rounds_up 4 13); lia. Defined.

(** At the end of the address space the sum wraps around: the offset
    [2 ^ 64 - 4] is aligned to 8 at the address 0. *)
Example align_wraps : align 8 (2 ^ 64 - 4) = 0.
Proof. reflexivity. Qed.

Lemma load16_range (host : byte_order) (mem : memory) (a : Z) :
  0 <= load16 host mem a < 2 ^ 16.
Proof.
  unfold load16.
  pose proof (load8_range mem a). pose proof (load8_range mem (a + 1)).
  destruct host; lia.
Qed.

Lemma load32_range (host : byte_order) (mem : memory) (a : Z) :
  0 <= load32 host mem a < 2 ^ 32.
Proof.
  unfold load32.
  pose proof (load16_range host mem a).
  pose proof (load16_range host mem (a + 2)).
  destruct host; lia.
Qed.

(** One turn of the scan on a note that lies [note_reach] bytes below the
    end of the address space: no sum wraps around, and the pointer moves
    forward. *)
Lemma note_turn (host : byte_order) (mem : memory) (alignment note : Z) :
  0 < alignment <= 8 -> 0 <= note -> note + note_reach <= 2 ^ 64 ->
  align alignment
    (u64 (u64 (note + sizeof_Elf64_Nhdr) + n_namesz host mem note))
  = align alignment (note + 12 + n_namesz host mem note)
  /\ align alignment
       (u64 (align alignment
               (u64 (u64 (note + sizeof_Elf64_Nhdr) + n_namesz host mem note))
             + n_descsz host mem note))
     = next_note host mem alignment note
  /\ (align alignment (note + 12 + n_namesz host mem note)) mod alignment = 0
  /\ note + 12 <= align alignment (note + 12 + n_namesz host mem note)
  /\ align alignment (note + 12 + n_namesz host mem note)
     <= next_note host mem alignment note
  /\ next_note host mem alignment note < note + note_reach.
Proof.
  intros Ha H0 Hend.
  pose proof (load32_range host mem note) as Hname.
  pose proof (load32_range host mem (note + 4)) as Hdesc.
  unfold next_note, sizeof_Elf64_Nhdr, note_reach in *.
  unfold n_namesz, n_descsz in *.
  set (nm := load32 host mem note) in *.
  set (ds := load32 host mem (note + 4)) in *.
  rewrite (u64_small (note + 12)) by lia.
  rewrite (u64_small (note + 12 + nm)) by lia.
  destruct (align_no_wrap alignment (note + 12 + nm)) as [M1 B1];
    [lia | lia | lia |].
  set (o1 := align alignment (note + 12 + nm)) in *.
  rewrite (u64_small (o1 + ds)) by lia.
  destruct (align_no_wrap alignment (o1 + ds)) as [M2 B2];
    [lia | lia | lia |].
  repeat split; try reflexivity; try assumption; lia.
Qed.

(** The note scan does not stop for lack of fuel: below the end of the
    address space, the fuel that [get_code_id_from_notes] provides is as
    good as any larger one. *)
Lemma notes_loop_fuel (host : byte_order) (mem : memory)
    (alignment end_ : Z) :
  0 < alignment <= 8 -> end_ + note_reach <= 2 ^ 64 ->
  forall fuel fuel' offset,
    0 <= offset ->
    (Z.to_nat (end_ - offset) < fuel)%nat -> (fuel <= fuel')%nat ->
    notes_loop host mem fuel alignment offset end_
    = notes_loop host mem fuel' alignment offset end_.
Proof.
  intros Ha Hend. induction fuel as [|fuel IH];
    intros fuel' offset H0 Hfuel Hle; [lia|].
  destruct fuel' as [|fuel']; [lia|]. cbn [notes_loop].
  destruct (Z.ltb_spec offset end_); [|reflexivity].
  destruct (n_type host mem offset =? NT_GNU_BUILD_ID); [reflexivity|].
  destruct (note_turn host mem alignment offset Ha H0)
    as (_ & -> & _ & H1 & H2 & H3); [lia|].
  apply IH; lia.
Qed.

Lemma notes_loop_sound (host : byte_order) (mem : memory)
    (alignment end_ : Z) :
  0 < alignment <= 8 -> end_ + note_reach <= 2 ^ 64 ->
  forall fuel offset ptr size,
    0 <= offset ->
    notes_loop host mem fuel alignment offset end_ = Some (ptr, size) ->
    exists note,
      offset <= note < end_
      /\ n_type host mem note = NT_GNU_BUILD_ID
      /\ ptr = align alignment (note + 12 + n_namesz host mem note)
      /\ size = n_descsz host mem note.
Proof.
  intros Ha Hend. induction fuel as [|fuel IH]; intros offset ptr size H0 H;
    [discriminate H|].
  cbn [notes_loop] in H. destruct (Z.ltb_spec offset end_) as [Hlt | _];
    [|discriminate H].
  destruct (note_turn host mem alignment offset Ha H0)
    as (E1 & E2 & _ & H1 & H2 & H3); [lia|].
  rewrite E2 in H. rewrite E1 in H.
  destruct (Z.eqb_spec (n_type host mem offset) NT_GNU_BUILD_ID) as [E | _].
  - injection H as <- <-. exists offset. repeat split; auto; lia.
  - assert (Hnext : 0 <= next_note host mem alignment offset) by lia.
    destruct (IH _ _ _ Hnext H) as (note & Hnote & Hrest).
    exists note. split; [lia | exact Hrest].
Qed.

(** A build id that the note scan returns belongs to a note of type
    [NT_GNU_BUILD_ID] whose header starts inside the segment; the pointer is
    the aligned end of the name of that note, the size its descriptor size,
    a 32-bit value; the alignment in use is 4 or 8.  The segment lies
    [note_reach] bytes below the end of the address space, so that no sum of
    the scan wraps around. *)
Theorem get_code_id_from_notes_sound (host : byte_order) (mem : memory)
    (alignment start end_ ptr size : Z) :
  0 <= start -> end_ + note_reach <= 2 ^ 64 ->
  get_code_id_from_notes host mem alignment start end_ = Some (ptr, size) ->
  let a := if alignment <? 4 then 4 else alignment in
  (a = 4 \/ a = 8)
  /\ exists note,
       start <= note < end_
       /\ n_type host mem note = NT_GNU_BUILD_ID
       /\ ptr = align a (note + 12 + n_namesz host mem note)
       /\ size = n_descsz host mem note
       /\ ptr mod a = 0 /\ note + 12 <= ptr /\ 0 <= size < 2 ^ 32.
Proof.
  intros H0 Hend H a. unfold get_code_id_from_notes in H.
  assert (Ha : (a = 4 \/ a = 8)
               /\ notes_loop host mem (S (Z.to_nat (end_ - start))) a start
                    end_ = Some (ptr, size)).
  { subst a. destruct (Z.ltb_spec alignment 4); [auto|].
    destruct (Z.eqb_spec alignment 4) as [-> | N4]; [auto|].
    destruct (Z.eqb_spec alignment 8) as [-> | N8]; [auto|].
    discriminate H. }
  destruct Ha as [Ha Hloop]. split; [exact Ha|].
  assert (Hpos : 0 < a <= 8) by lia.
  destruct (notes_loop_sound host mem a end_ Hpos Hend _ _ _ _ H0 Hloop)
    as (note & Hnote & Htype & Hptr & Hsize).
  exists note.
  destruct (note_turn host mem a note Hpos)
    as (_ & _ & Hmod & Hge & _ & _); [lia | lia |].
  pose proof (load32_range host mem (note + 4)) as Hdesc.
  fold (n_descsz host mem note) in Hdesc. rewrite <- Hsize in Hdesc.
  rewrite <- Hptr in Hmod, Hge.
  repeat split; try assumption; lia.
Qed.

Lemma get_code_id_from_notes_sound_witness :
  exists note,
    65656 <= note < 65692
    /\ n_type LittleEndian note_memory note = NT_GNU_BUILD_ID
    /\ 65672 = align 4 (note + 12 + n_namesz LittleEndian note_memory note)
    /\ 20 = n_descsz LittleEndian note_memory note
    /\ 65672 mod 4 = 0 /\ note + 12 <= 65672 /\ 0 <= 20 < 2 ^ 32.
Proof.
  assert (H0 : 0 <= 65656) by lia.
  assert (Hend : 65692 + note_reach <= 2 ^ 64) by (unfold note_reach; lia).
  assert (H : get_code_id_from_notes LittleEndian note_memory 4 65656 65692
              = Some (65672, 20)) by reflexivity.
  exact (proj2 (get_code_id_from_notes_sound LittleEndian note_memory 4
                  65656 65692 65672 20 H0 Hend H)).
Defined.

(** The note scan ends because it reaches the end of the segment: below the
    end of the address space every turn moves on by 12 bytes at least, so
    that the scan gives the same result for every number of turns above
    [end_ - start] that it is allowed. *)
Theorem get_code_id_from_notes_terminates (host : byte_order)
    (mem : memory) (alignment start end_ : Z) (turns : nat) :
  (alignment < 4 \/ alignment = 4 \/ alignment = 8) ->
  0 <= start -> end_ + note_reach <= 2 ^ 64 ->
  (Z.to_nat (end_ - start) < turns)%nat ->
  notes_loop host mem turns (if alignment <? 4 then 4 else alignment)
    start end_
  = get_code_id_from_notes host mem alignment start end_.
Proof.
  intros Ha H0 Hend Hturns. unfold get_code_id_from_notes.
  assert (Hloop : forall a, 0 < a <= 8 ->
            notes_loop host mem turns a start end_
            = notes_loop host mem (S (Z.to_nat (end_ - start))) a start end_).
  { intros a Hpos. symmetry.
    apply notes_loop_fuel; [exact Hpos | exact Hend | exact H0 | lia | lia]. }
  destruct (Z.ltb_spec alignment 4); [apply Hloop; lia|].
  destruct Ha as [Ha | [-> | ->]]; [lia | |]; simpl; apply Hloop; lia.
Qed.

Lemma get_code_id_from_notes_terminates_witness :
  notes_loop LittleEndian note_memory 1000 4 65656 65692
  = get_code_id_from_notes LittleEndian note_memory 4 65656 65692.
Proof.
  apply (get_code_id_from_notes_terminates LittleEndian note_memory 4
           65656 65692 1000).
  - right. left. reflexivity.
  - lia.
  - unfold note_reach. lia.
  - vm_compute. lia.
Defined.

(** A note of another type is skipped: the scan from it is the scan from
    the aligned end of its descriptor (the segment lying [note_reach] bytes
    below the end of the address space). *)
Theorem get_code_id_from_notes_skips (host : byte_order) (mem : memory)
    (alignment start end_ : Z) :
  alignment = 4 \/ alignment = 8 ->
  0 <= start -> end_ + note_reach <= 2 ^ 64 ->
  start < end_ ->
  n_type host mem start <> NT_GNU_BUILD_ID ->
  get_code_id_from_notes host mem alignment start end_
  = get_code_id_from_notes host mem alignment
      (next_note host mem alignment start) end_.
Proof.
  intros Ha H0 Hend Hlt Htype.
  assert (Hpos : 0 < alignment <= 8) by lia.
  destruct (note_turn host mem alignment start Hpos H0)
    as (_ & Estep & _ & H1 & H2 & H3); [lia|].
  unfold get_code_id_from_notes.
  assert (Hstep :
    notes_loop host mem (S (Z.to_nat (end_ - start))) alignment start end_
    = notes_loop host mem
        (S (Z.to_nat (end_ - next_note host mem alignment start))) alignment
        (next_note host mem alignment start) end_).
  { remember (notes_loop host mem
                (S (Z.to_nat (end_ - next_note host mem alignment start)))
                alignment (next_note host mem alignment start) end_)
      as rhs eqn:Hrhs.
    cbn [notes_loop].
    destruct (Z.ltb_spec start end_); [|lia].
    destruct (Z.eqb_spec (n_type host mem start) NT_GNU_BUILD_ID);
      [contradiction|].
    rewrite Estep.
    subst rhs. symmetry.
    apply notes_loop_fuel; [exact Hpos | exact Hend | lia | lia | lia]. }
  destruct Ha as [-> | ->]; simpl; exact Hstep.
Qed.

Lemma get_code_id_from_notes_skips_witness :
  get_code_id_from_notes LittleEndian two_notes_memory 4 4096 4152
  = get_code_id_from_notes LittleEndian two_notes_memory 4
      (next_note LittleEndian two_notes_memory 4 4096) 4152.
Proof.
  apply (get_code_id_from_notes_skips LittleEndian two_notes_memory 4
           4096 4152).
  - left. reflexivity.
  - lia.
  - unfold note_reach. lia.
  - lia.
  - vm_compute. discriminate.
Defined.

Example two_notes_scan :
  next_note LittleEndian two_notes_memory 4 4096 = 4116
  /\ get_code_id_from_notes LittleEndian two_notes_memory 4 4096 4152
     = Some (4132, 20).
Proof. split; reflexivity. Qed.

(** ** The walk over the program headers *)

Lemma get_code_id_from_elf_unfold (host : byte_order) (mem : memory)
    (module : sentry_module_t) :
  get_code_id_from_elf host mem module
  = match sentry__module_get_addr module 0 EI_NIDENT with
    | None => None
    | Some e_ident =>
        let c := class_of mem e_ident in
        match sentry__module_get_addr module 0 (sizeof_Ehdr c) with
        | None => None
        | Some elf =>
            phdr_loop host mem c module elf
              (seq 0 (Z.to_nat (e_phnum host mem c elf)))
        end
    end.
Proof.
  unfold get_code_id_from_elf, class_of.
  destruct (sentry__module_get_addr module 0 EI_NIDENT) as [e_ident|];
    [|reflexivity].
  destruct (load8 mem (e_ident + EI_CLASS) =? ELFCLASS64); reflexivity.
Qed.

Lemma phdr_loop_sound (host : byte_order) (mem : memory) (c : elf_class)
    (module : sentry_module_t) (elf : Z) (indices : list nat)
    (ptr size : Z) :
  phdr_loop host mem c module elf indices = Some (ptr, size) ->
  exists i header segment,
    i ∈ indices
    /\ program_header host mem c module elf i = Some header
    /\ p_type host mem c header = PT_NOTE
    /\ sentry__module_get_addr module (p_offset host mem c header)
         (p_filesz host mem c header) = Some segment
    /\ get_code_id_from_notes host mem (p_align host mem c header) segment
         (u64 (segment + p_filesz host mem c header)) = Some (ptr, size).
Proof.
  induction indices as [|i rest IH]; intros H; [discriminate H|].
  assert (Hrest : phdr_loop host mem c module elf rest = Some (ptr, size) ->
            exists j header segment,
              j ∈ i :: rest
              /\ program_header host mem c module elf j = Some header
              /\ p_type host mem c header = PT_NOTE
              /\ sentry__module_get_addr module (p_offset host mem c header)
                   (p_filesz host mem c header) = Some segment
              /\ get_code_id_from_notes host mem (p_align host mem c header)
                   segment (u64 (segment + p_filesz host mem c header))
                 = Some (ptr, size)).
  { intros H'. destruct (IH H') as (j & header & segment & Hj & Hrest).
    exists j, header, segment. split; [right; exact Hj | exact Hrest]. }
  cbn [phdr_loop] in H. fold (program_header host mem c module elf i) in H.
  destruct (program_header host mem c module elf i) as [header|] eqn:Hh;
    [|discriminate H].
  destruct (Z.eqb_spec (p_type host mem c header) PT_NOTE) as [Ht | _];
    simpl in H; [|apply Hrest, H].
  destruct (sentry__module_get_addr module (p_offset host mem c header)
              (p_filesz host mem c header)) as [segment|] eqn:Hs;
    [|discriminate H].
  destruct (get_code_id_from_notes host mem (p_align host mem c header)
              segment (u64 (segment + p_filesz host mem c header)))
    as [code_id|] eqn:Hn; [|apply Hrest, H].
  injection H as ->.
  exists i, header, segment. split; [left|]. auto.
Qed.

(** A build id is only ever taken from a [PT_NOTE] segment that was
    translated as a whole: the identification bytes, the ELF header of the
    class at hand, one of the [e_phnum] program headers and the segment of
    that header were all translated, and the note scan of that segment gave
    the build id. *)
Theorem get_code_id_from_elf_sound (host : byte_order) (mem : memory)
    (module : sentry_module_t) (ptr size : Z) :
  get_code_id_from_elf host mem module = Some (ptr, size) ->
  exists e_ident elf i header segment,
    sentry__module_get_addr module 0 EI_NIDENT = Some e_ident
    /\ sentry__module_get_addr module 0 (sizeof_Ehdr (class_of mem e_ident))
       = Some elf
    /\ Z.of_nat i < e_phnum host mem (class_of mem e_ident) elf
    /\ program_header host mem (class_of mem e_ident) module elf i
       = Some header
    /\ p_type host mem (class_of mem e_ident) header = PT_NOTE
    /\ sentry__module_get_addr module
         (p_offset host mem (class_of mem e_ident) header)
         (p_filesz host mem (class_of mem e_ident) header) = Some segment
    /\ get_code_id_from_notes host mem
         (p_align host mem (class_of mem e_ident) header) segment
         (u64 (segment + p_filesz host mem (class_of mem e_ident) header))
       = Some (ptr, size).
Proof.
  rewrite get_code_id_from_elf_unfold. intros H.
  destruct (sentry__module_get_addr module 0 EI_NIDENT) as [e_ident|];
    [|discriminate H].
  cbv zeta in H.
  destruct (sentry__module_get_addr module 0
              (sizeof_Ehdr (class_of mem e_ident))) as [elf|] eqn:Helf;
    [|discriminate H].
  destruct (phdr_loop_sound _ _ _ _ _ _ _ _ H)
    as (i & header & segment & Hi & Hrest).
  exists e_ident, elf, i, header, segment.
  split; [reflexivity|]. split; [exact Helf|]. split; [|exact Hrest].
  apply list_elem_of_In, in_seq in Hi. lia.
Qed.

Lemma get_code_id_from_elf_sound_witness :
  exists e_ident elf i header segment,
    sentry__module_get_addr one_region_module 0 EI_NIDENT = Some e_ident
    /\ sentry__module_get_addr one_region_module 0
         (sizeof_Ehdr (class_of note_memory e_ident)) = Some elf
    /\ Z.of_nat i
       < e_phnum LittleEndian note_memory (class_of note_memory e_ident) elf
    /\ program_header LittleEndian note_memory
         (class_of note_memory e_ident) one_region_module elf i
       = Some header
    /\ p_type LittleEndian note_memory (class_of note_memory e_ident) header
       = PT_NOTE
    /\ sentry__module_get_addr one_region_module
         (p_offset LittleEndian note_memory (class_of note_memory e_ident)
            header)
         (p_filesz LittleEndian note_memory (class_of note_memory e_ident)
            header) = Some segment
    /\ get_code_id_from_notes LittleEndian note_memory
         (p_align LittleEndian note_memory (class_of note_memory e_ident)
            header) segment
         (u64 (segment
               + p_filesz LittleEndian note_memory
                   (class_of note_memory e_ident) header))
       = Some (65672, 20).
Proof.
  apply (get_code_id_from_elf_sound LittleEndian note_memory
           one_region_module 65672 20).
  reflexivity.
Defined.

Lemma phdr_loop_aborts (host : byte_order) (mem : memory) (c : elf_class)
    (module : sentry_module_t) (elf : Z) (pre post : list nat) (k : nat) :
  (forall i, i ∈ pre ->
     exists header,
       program_header host mem c module elf i = Some header
       /\ p_type host mem c header <> PT_NOTE) ->
  program_header host mem c module elf k = None ->
  phdr_loop host mem c module elf (pre ++ k :: post) = None.
Proof.
  intros Hpre Hk. induction pre as [|i pre IH]; cbn [app phdr_loop].
  - fold (program_header host mem c module elf k). rewrite Hk. reflexivity.
  - fold (program_header host mem c module elf i).
    destruct (Hpre i) as (header & -> & Hty); [left|].
    destruct (Z.eqb_spec (p_type host mem c header) PT_NOTE);
      [contradiction|].
    simpl. apply IH. intros j Hj. apply Hpre. right. exact Hj.
Qed.

(** The walk gives up at the first program header that cannot be
    translated: when the headers before header [k] are translated and are
    not of type [PT_NOTE], and header [k] is not translated, no build id is
    found, whatever the headers after [k] hold. *)
Theorem get_code_id_from_elf_aborts (host : byte_order) (mem : memory)
    (module : sentry_module_t) (e_ident elf : Z) (k : nat) :
  sentry__module_get_addr module 0 EI_NIDENT = Some e_ident ->
  let c := class_of mem e_ident in
  sentry__module_get_addr module 0 (sizeof_Ehdr c) = Some elf ->
  Z.of_nat k < e_phnum host mem c elf ->
  (forall i, (i < k)%nat ->
     exists header,
       program_header host mem c module elf i = Some header
       /\ p_type host mem c header <> PT_NOTE) ->
  program_header host mem c module elf k = None ->
  get_code_id_from_elf host mem module = None.
Proof.
  intros Hident c Helf Hk Hpre Hnone.
  rewrite get_code_id_from_elf_unfold, Hident. cbv zeta. fold c.
  rewrite Helf.
  replace (Z.to_nat (e_phnum host mem c elf))
    with (k + S (Z.to_nat (e_phnum host mem c elf) - S k))%nat by lia.
  rewrite seq_app. cbn [seq Nat.add].
  apply phdr_loop_aborts; [|exact Hnone].
  intros i Hi. apply Hpre. apply list_elem_of_In, in_seq in Hi. lia.
Qed.

Lemma get_code_id_from_elf_aborts_witness :
  get_code_id_from_elf LittleEndian note_memory short_module = None.
Proof.
  apply (get_code_id_from_elf_aborts LittleEndian note_memory short_module
           65536 65536 0).
  - reflexivity.
  - reflexivity.
  - vm_compute. reflexivity.
  - intros i Hi. lia.
  - reflexivity.
Defined.

(** ** The identifiers of a module that gives none *)

Lemma flip_uuid_nil (host : byte_order) : flip_uuid host nil_uuid = nil_uuid.
Proof. destruct host; reflexivity. Qed.

(** When no build id is found and the fallback has no bytes of a [.text]
    section to fold (the header walk fails, or takes no section, or an empty
    one), the debug id is the nil UUID on every host, and no [code_id] is
    set. *)
Theorem debug_id_nil_without_identity (host : byte_order) (mem : memory)
    (module : sentry_module_t)
    (fields : list (list ascii * sentry_value_t)) :
  get_code_id_from_elf host mem module = None ->
  text_bytes host mem module = [] ->
  let value := sentry__procmaps_read_ids_from_elf host mem
                 (VObject false fields) module in
  sentry_value_get_by_key value (str "debug_id") = VUuid nil_uuid
  /\ sentry_value_get_by_key value (str "code_id")
     = get_field fields (str "code_id").
Proof.
  intros Hnone Htext value. subst value.
  unfold sentry__procmaps_read_ids_from_elf, selected_uuid. rewrite Hnone.
  assert (Hfallback : get_code_id_from_text_fallback host mem module
                      = nil_uuid).
  { unfold get_code_id_from_text_fallback. unfold text_bytes in Htext.
    destruct (locate_text host mem module) as [[text text_size]|];
      [|reflexivity].
    rewrite xor_fold_text_bytes, Htext. reflexivity. }
  rewrite Hfallback, flip_uuid_nil.
  unfold sentry_value_set_by_key, sentry_value_get_by_key,
    sentry__value_new_uuid.
  split; [apply get_set_field_same|].
  apply get_set_field_other. intros H. discriminate H.
Qed.

Lemma debug_id_nil_witness :
  sentry_value_get_by_key
    (sentry__procmaps_read_ids_from_elf BigEndian note_memory
       (VObject false []) short_module)
    (str "debug_id") = VUuid nil_uuid.
Proof.
  assert (Hnone : get_code_id_from_elf BigEndian note_memory short_module
                  = None) by reflexivity.
  assert (Htext : text_bytes BigEndian note_memory short_module = [])
    by reflexivity.
  exact (proj1 (debug_id_nil_without_identity BigEndian note_memory
                  short_module [] Hnone Htext)).
Defined.

(** ** The descriptor of a module *)

Lemma lxor_is_byte (a b : Z) : is_byte a -> is_byte b -> is_byte (Z.lxor a b).
Proof.
  unfold is_byte. intros Ha Hb.
  assert (Hnn : 0 <= Z.lxor a b) by (apply Z.lxor_nonneg; lia).
  split; [exact Hnn|].
  destruct (Z.eq_dec (Z.lxor a b) 0) as [-> | Hne]; [reflexivity|].
  apply Z.log2_lt_pow2; [lia|].
  pose proof (Z.log2_lxor a b (proj1 Ha) (proj1 Hb)) as Hlog.
  assert (Hla : Z.log2 a < 8).
  { destruct (Z.eq_dec a 0) as [-> | Hna]; [reflexivity|].
    apply Z.log2_lt_pow2; lia. }
  assert (Hlb : Z.log2 b < 8).
  { destruct (Z.eq_dec b 0) as [-> | Hnb]; [reflexivity|].
    apply Z.log2_lt_pow2; lia. }
  lia.
Qed.

Lemma xor_fold_bytes_is_byte (bytes : list Z) :
  Forall is_byte bytes -> Forall is_byte (xor_fold_bytes bytes).
Proof.
  induction bytes as [|b bytes IH] using rev_ind; intros Hbytes.
  - apply Forall_replicate. unfold is_byte. lia.
  - apply Forall_app in Hbytes as [Hbs Hb].
    apply Forall_cons in Hb as [Hb _].
    rewrite xor_fold_bytes_snoc. unfold xor_into.
    apply Forall_alter; [apply IH, Hbs|].
    intros x _ Hx. apply lxor_is_byte; assumption.
Qed.

(** The 16 bytes that go into the byte flipping are bytes, whichever way
    they were found. *)
Lemma selected_uuid_bytes (host : byte_order) (mem : memory)
    (module : sentry_module_t) :
  length (selected_uuid host mem module) = 16%nat
  /\ Forall is_byte (selected_uuid host mem module).
Proof.
  unfold selected_uuid.
  destruct (get_code_id_from_elf host mem module) as [[code_id sz]|].
  - rewrite memcpy_uuid_pad16. split; [apply pad16_length|].
    apply pad16_is_byte, read_bytes_is_byte.
  - unfold get_code_id_from_text_fallback.
    destruct (locate_text host mem module) as [[text text_size]|].
    + rewrite xor_fold_text_bytes. split; [apply xor_fold_bytes_length|].
      apply xor_fold_bytes_is_byte, read_bytes_is_byte.
    + split; [reflexivity|]. apply Forall_replicate. unfold is_byte. lia.
Qed.

Lemma flip_uuid_bytes (host : byte_order) (uuid : list Z) :
  length uuid = 16%nat -> Forall is_byte uuid ->
  length (flip_uuid host uuid) = 16%nat
  /\ Forall is_byte (flip_uuid host uuid).
Proof.
  intros Hlen Hbytes. destruct host.
  - rewrite flip_uuid_little_endian by assumption.
    split.
    + rewrite !length_app, !length_rev, !length_take, !length_drop. lia.
    + repeat (apply Forall_app; split);
        repeat first [apply Forall_rev | apply Forall_take
                     | apply Forall_drop]; exact Hbytes.
  - rewrite flip_uuid_big_endian by assumption. split; assumption.
Qed.

(** The descriptor of an ELF module: its type is "elf", its code file is
    the path of the module, its debug id has 16 bytes on every host, and it
    has a code id exactly when a build id was found. *)
Theorem descriptor_of_elf_module (host : byte_order) (mem : memory)
    (module : sentry_module_t) :
  is_elf_module mem module = true ->
  let v := sentry__procmaps_module_to_value host mem module in
  sentry_value_get_by_key v (str "type") = VString (str "elf")
  /\ sentry_value_get_by_key v (str "code_file")
     = VString (slice_chars (module_file module))
  /\ (exists bytes,
        sentry_value_get_by_key v (str "debug_id") = VUuid bytes
        /\ length bytes = 16%nat /\ Forall is_byte bytes)
  /\ (sentry_value_get_by_key v (str "code_id") = VNull
      <-> get_code_id_from_elf host mem module = None).
Proof.
  intros Helf v. subst v.
  unfold sentry__procmaps_module_to_value. rewrite Helf. cbv zeta.
  unfold sentry__procmaps_read_ids_from_elf.
  destruct (selected_uuid_bytes host mem module) as [Hlen Hbytes].
  destruct (flip_uuid_bytes host _ Hlen Hbytes) as [Hflen Hfbytes].
  set (uuid := flip_uuid host (selected_uuid host mem module)) in *.
  destruct (get_code_id_from_elf host mem module) as [[code_id sz]|].
  - split; [reflexivity|]. split; [reflexivity|]. split.
    + exists uuid. split; [reflexivity|]. split; assumption.
    + split; intros H; discriminate H.
  - split; [reflexivity|]. split; [reflexivity|]. split.
    + exists uuid. split; [reflexivity|]. split; assumption.
    + split; reflexivity.
Qed.

Lemma descriptor_of_elf_module_witness :
  sentry_value_get_by_key
    (sentry__procmaps_module_to_value LittleEndian text_memory
       one_region_module) (str "type") = VString (str "elf")
  /\ sentry_value_get_by_key
       (sentry__procmaps_module_to_value LittleEndian text_memory
          one_region_module) (str "code_file")
     = VString (slice_chars (module_file one_region_module)).
Proof.
  assert (Helf : is_elf_module text_memory one_region_module = true)
    by reflexivity.
  pose proof (descriptor_of_elf_module LittleEndian text_memory
                one_region_module Helf) as H.
  cbv zeta in H. destruct H as (H1 & H2 & _).
  split; [exact H1 | exact H2].
Defined.

Lemma module_to_value_not_null (host : byte_order) (mem : memory)
    (module : sentry_module_t) :
  sentry_value_is_null (sentry__procmaps_module_to_value host mem module)
  = negb (is_elf_module mem module).
Proof.
  unfold sentry__procmaps_module_to_value.
  destruct (is_elf_module mem module); [|reflexivity].
  unfold sentry__procmaps_read_ids_from_elf.
  destruct (get_code_id_from_elf host mem module) as [[code_id sz]|];
    reflexivity.
Qed.

(** A module is appended to the list exactly when it has a path pointer and
    starts with the ELF magic; the list then grows by the descriptor of the
    module, and is left as it is otherwise. *)
Theorem try_append_module_appends_elf (host : byte_order) (mem : memory)
    (items : list sentry_value_t) (module : sentry_module_t) :
  try_append_module host mem (VList false items) module
  = if bool_decide (slice_ptr (module_file module) <> None)
       && is_elf_module mem module
    then VList false
           (items ++ [sentry__procmaps_module_to_value host mem module])
    else VList false items.
Proof.
  unfold try_append_module.
  destruct (slice_ptr (module_file module)) as [ptr|].
  - rewrite bool_decide_eq_true_2 by discriminate.
    rewrite module_to_value_not_null, negb_involutive.
    destruct (is_elf_module mem module); reflexivity.
  - rewrite bool_decide_eq_false_2 by (intros H; apply H; reflexivity).
    reflexivity.
Qed.

(** On a big-endian host [htonl] and [htons] change nothing: the debug id
    is the code id cut to 16 bytes or filled up with zeros, in the order of
    the note. *)
Theorem debug_id_on_big_endian_host (mem : memory)
    (module : sentry_module_t)
    (fields : list (list ascii * sentry_value_t))
    (code_id code_id_size : Z) :
  get_code_id_from_elf BigEndian mem module = Some (code_id, code_id_size) ->
  sentry_value_get_by_key
    (sentry__procmaps_read_ids_from_elf BigEndian mem (VObject false fields)
       module) (str "debug_id")
  = VUuid (pad16 (read_bytes mem code_id (Z.to_nat code_id_size))).
Proof.
  intros Hid.
  unfold sentry__procmaps_read_ids_from_elf, selected_uuid. rewrite Hid.
  unfold sentry_value_set_by_key, sentry_value_get_by_key,
    sentry__value_new_uuid, sentry__value_new_hexstring.
  rewrite get_set_field_same, memcpy_uuid_pad16. f_equal.
  apply flip_uuid_big_endian.
  - apply pad16_is_byte, read_bytes_is_byte.
  - apply pad16_length.
Qed.

Lemma debug_id_on_big_endian_host_witness :
  sentry_value_get_by_key
    (sentry__procmaps_read_ids_from_elf BigEndian note_memory_be
       (VObject false []) one_region_module) (str "debug_id")
  = VUuid (pad16 (read_bytes note_memory_be 65672 (Z.to_nat 20))).
Proof.
  apply (debug_id_on_big_endian_host note_memory_be one_region_module []
           65672 20).
  reflexivity.
Defined.

(** ** The vDSO base *)

(** The vDSO base is the value of the first [AT_SYSINFO_EHDR] entry of the
    auxiliary vector, provided no [AT_NULL] entry comes before it; it is 0
    when an [AT_NULL] entry comes first, when the vector ends without
    either, and when the vector cannot be read. *)
Theorem get_linux_vdso_first_entry (pre post : list (Z * Z)) (v : Z) :
  Forall (fun e => fst e <> AT_NULL /\ fst e <> AT_SYSINFO_EHDR) pre ->
  get_linux_vdso (Some (pre ++ (AT_SYSINFO_EHDR, v) :: post)) = u64 v
  /\ get_linux_vdso (Some (pre ++ (AT_NULL, v) :: post)) = 0
  /\ get_linux_vdso (Some pre) = 0
  /\ get_linux_vdso None = 0.
Proof.
  intros Hpre. unfold get_linux_vdso.
  induction Hpre as [|[t x] pre [Hn Hs] Hpre (IH1 & IH2 & IH3 & IH4)].
  - repeat split; reflexivity.
  - simpl in Hn, Hs. cbn [app auxv_loop].
    destruct (Z.eqb_spec t AT_NULL); [contradiction|].
    destruct (Z.eqb_spec t AT_SYSINFO_EHDR); [contradiction|].
    simpl. repeat split; assumption.
Qed.

Lemma get_linux_vdso_first_entry_witness :
  get_linux_vdso (Some sample_auxv) = u64 140737354125312.
Proof.
  assert (Hpre : Forall (fun e : Z * Z =>
                           fst e <> AT_NULL /\ fst e <> AT_SYSINFO_EHDR)
                   [(6, 4096)]).
  { apply Forall_cons_2; [|apply Forall_nil_2].
    split; discriminate. }
  exact (proj1 (get_linux_vdso_first_entry [(6, 4096)] [(0, 0)]
                  140737354125312 Hpre)).
Defined.

(** ** More on the parser of a line *)

Lemma sscanf_consumed_bound (line : list ascii)
    (module : sentry_parsed_module_t) :
  (snd (sscanf_maps_line line module) <= length line)%nat
  /\ fst (fst (sscanf_maps_line line module)) <= 7.
Proof.
  unfold sscanf_maps_line.
  destruct (scan_x64 line) as [[v1 s1]|];
    [|destruct (skip_space line); simpl; lia].
  destruct (scan_literal "-" s1) as [s2|]; [|simpl; lia].
  destruct (scan_x64 s2) as [[v2 s3]|]; [|simpl; lia].
  destruct (scan_4c (skip_space s3)) as [[perms s4]|]; [|simpl; lia].
  destruct (scan_x64 (skip_space s4)) as [[v3 s5]|]; [|simpl; lia].
  destruct (scan_hhx (skip_space s5)) as [[v4 s6]|]; [|simpl; lia].
  destruct (scan_literal ":" s6) as [s7|]; [|simpl; lia].
  destruct (scan_hhx s7) as [[v5 s8]|]; [|simpl; lia].
  destruct (scan_u64 (skip_space s8)) as [[v6 s9]|]; simpl; lia.
Qed.

Lemma parse_read_bound (line : list ascii)
    (module : sentry_parsed_module_t) :
  0 <= fst (sentry__procmaps_parse_module_line line module)
    <= Z.of_nat (length line).
Proof.
  unfold sentry__procmaps_parse_module_line.
  pose proof (sscanf_consumed_bound line module) as [Hc _].
  destruct (sscanf_maps_line line module) as [[n m] consumed].
  simpl in Hc. destruct (n <? 7); [simpl; lia|].
  destruct ((0 <? consumed)%nat
            && Ascii.eqb (char_at line (consumed - 1)) NL); [simpl; lia|].
  destruct (strchr (drop consumed line) NL) as [k|] eqn:Hnl; simpl.
  - apply strchr_Some in Hnl as (Hk & _). rewrite length_drop in Hk. lia.
  - rewrite length_drop. lia.
Qed.

(** The parser never reports more characters than the buffer holds, so
    that the caller, which moves on by the count it gets, stays inside the
    buffer. *)
Theorem parse_consumes_within_buffer (line : list ascii)
    (module : sentry_parsed_module_t) :
  0 <= fst (sentry__procmaps_parse_module_line line module)
    <= Z.of_nat (length line).
Proof. apply parse_read_bound. Qed.

(** The path of a parsed line lies in the buffer and holds no newline. *)
Theorem parsed_path_in_buffer (line : list ascii)
    (module : sentry_parsed_module_t) :
  fst (sentry__procmaps_parse_module_line line module) <> 0 ->
  let file := parsed_file (snd (sentry__procmaps_parse_module_line line
                                  module)) in
  (NL ∉ slice_chars file)
  /\ (slice_ptr file = None -> slice_len file = 0%nat)
  /\ (forall rest, slice_ptr file = Some rest ->
        (slice_len file <= length rest)%nat
        /\ exists before, line = before ++ rest).
Proof.
  unfold sentry__procmaps_parse_module_line.
  destruct (sscanf_maps_line line module) as [[n m] consumed].
  destruct (n <? 7); [intros H; exfalso; apply H; reflexivity|].
  intros _.
  destruct ((0 <? consumed)%nat
            && Ascii.eqb (char_at line (consumed - 1)) NL).
  - simpl. split; [apply not_elem_of_nil|].
    split; [reflexivity|]. intros rest H. discriminate H.
  - assert (Hsuffix : exists before, line = before ++ drop consumed line)
      by (exists (take consumed line); symmetry; apply take_drop).
    destruct (strchr (drop consumed line) NL) as [k|] eqn:Hnl; simpl.
    + apply strchr_Some in Hnl as (Hk & _ & Hnot).
      split; [exact Hnot|]. split; [discriminate|].
      intros rest H. injection H as <-. split; [lia | exact Hsuffix].
    + apply strchr_None in Hnl.
      split; [unfold slice_chars; simpl; rewrite take_ge by lia; exact Hnl|].
      split; [discriminate|].
      intros rest H. injection H as <-. split; [lia | exact Hsuffix].
Qed.

Lemma parsed_path_in_buffer_witness :
  NL ∉ slice_chars
         (parsed_file
            (snd (sentry__procmaps_parse_module_line
                    (line_text libc_line ++ line_text anonymous_line)
                    zero_parsed))).
Proof.
  assert (Hread : fst (sentry__procmaps_parse_module_line
                         (line_text libc_line ++ line_text anonymous_line)
                         zero_parsed) <> 0)
    by (vm_compute; discriminate).
  exact (proj1 (parsed_path_in_buffer _ zero_parsed Hread)).
Defined.

Lemma parse_nonzero_scannable (buffer : list ascii)
    (module : sentry_parsed_module_t) :
  fst (sentry__procmaps_parse_module_line buffer module) <> 0 ->
  scannable buffer.
Proof.
  intros Hread. apply (sscanf_seven_scannable buffer module).
  pose proof (sscanf_consumed_bound buffer module) as [_ Hle].
  pose proof (parse_zero_iff buffer module) as Hzero.
  destruct (Z_lt_ge_dec (fst (fst (sscanf_maps_line buffer module))) 7).
  - exfalso. apply Hread, Hzero. assumption.
  - lia.
Qed.

(** A buffer that the parser accepts has the shape that [sscanf] scans:
    the seven fields, with any white space, newlines included, in front of
    each, a number being a digit run or, in the hexadecimal fields, a [0x]
    with or without digits behind it, after an optional sign; for every
    other buffer the result is 0. *)
Theorem parse_accepts_only_scannable (buffer : list ascii)
    (module : sentry_parsed_module_t) :
  fst (sentry__procmaps_parse_module_line buffer module) <> 0 ->
  scannable buffer.
Proof. apply parse_nonzero_scannable. Qed.

Lemma parse_accepts_only_scannable_witness :
  scannable (line_text anonymous_line).
Proof.
  apply (parse_accepts_only_scannable (line_text anonymous_line) zero_parsed).
  vm_compute. discriminate.
Defined.

Ltac digits_ok :=
  split; [discriminate|];
  repeat (apply Forall_cons_2; [eexists; reflexivity|]); apply Forall_nil_2.

Lemma libc_line_well_formed : well_formed_line libc_line.
Proof.
  unfold well_formed_line, libc_line; cbn [f_start f_end f_perms f_offset
    f_major f_minor f_inode f_pad f_path].
  split; [digits_ok|]. split; [apply Z.leb_le; vm_compute; reflexivity|].
  split; [digits_ok|]. split; [apply Z.leb_le; vm_compute; reflexivity|].
  split; [reflexivity|].
  split; [repeat (apply Forall_cons_2; [reflexivity|]); apply Forall_nil_2|].
  split; [digits_ok|]. split; [apply Z.leb_le; vm_compute; reflexivity|].
  split; [digits_ok|]. split; [digits_ok|]. split; [digits_ok|].
  split; [repeat (apply Forall_cons_2; [reflexivity|]); apply Forall_nil_2|].
  split; [apply (bool_decide_unpack _); vm_compute; exact I|].
  intros _. split; [discriminate|].
  eexists _, _. split; reflexivity.
Qed.

Lemma parse_well_formed_witness :
  sentry__procmaps_parse_module_line
    (line_text libc_line ++ line_text anonymous_line) zero_parsed
  = (Z.of_nat (length (line_text libc_line)),
     parsed_of_line libc_line (line_text anonymous_line)).
Proof.
  apply (parse_well_formed libc_line (line_text anonymous_line)).
  - exact libc_line_well_formed.
  - intros H. discriminate H.
Defined.

Example libc_line_parsed :
  length (line_text libc_line) = 104%nat
  /\ parsed_start (parsed_of_line libc_line []) = 139716164190208
  /\ parsed_end (parsed_of_line libc_line []) = 139716164321280
  /\ slice_chars (parsed_file (parsed_of_line libc_line []))
     = str "/lib/x86_64-linux-gnu/libc.so.6".
Proof. repeat split; reflexivity. Qed.







(** A [0x] without a digit behind it is read as the number 0, and the [-]
    after it as the separator. *)
Example bare_prefix_is_zero :
  sentry__procmaps_parse_module_line
    (str "0x-2 r-xp 0 0:0 0 /a
") zero_parsed
  = (21, mk_parsed 0 2 0 (str "r-xp" ++ [NUL])
           (mk_slice (Some (str "/a
")) 2)).
Proof. reflexivity. Qed.

(** The digits of a number that does not fit 64 bits give the largest
    value, whatever the sign in front of them. *)
Example overflow_saturates :
  scan_x64 (str "-fffffffffffffffff-2") = Some (UINT64_MAX, str "-2")
  /\ scan_x64 (str "-1 ") = Some (UINT64_MAX, str " ")
  /\ scan_hhx (str "1ff:") = Some (255, str ":").
Proof. repeat split; reflexivity. Qed.

(** ** The enumeration pass as a whole *)

Lemma load_loop_fuel (host : byte_order) (mem : memory) (linux_vdso : Z) :
  forall fuel fuel' current_line st,
    (length current_line < fuel)%nat -> (fuel <= fuel')%nat ->
    load_loop host mem fuel linux_vdso current_line st
    = load_loop host mem fuel' linux_vdso current_line st.
Proof.
  induction fuel as [|fuel IH]; intros fuel' current_line st Hlen Hle;
    [lia|].
  destruct fuel' as [|fuel']; [lia|]. simpl.
  pose proof (parse_read_bound current_line zero_parsed) as Hread.
  destruct (sentry__procmaps_parse_module_line current_line zero_parsed)
    as [read module].
  simpl in Hread. destruct (Z.eqb_spec read 0); [reflexivity|].
  apply IH; [|lia]. rewrite length_drop. lia.
Qed.

(** The loop over the lines ends because the text is used up: every turn
    that does not stop moves on by one character at least, so that the
    loop gives the same result for every number of turns above the length of
    the text that it is allowed. *)
Theorem load_loop_terminates (host : byte_order) (mem : memory)
    (linux_vdso : Z) (contents : list ascii)
    (st : sentry_value_t * sentry_module_t) (turns : nat) :
  (length contents < turns)%nat ->
  load_loop host mem turns linux_vdso contents st
  = load_loop host mem (S (length contents)) linux_vdso contents st.
Proof.
  intros Hturns. symmetry. apply load_loop_fuel; lia.
Qed.

Lemma load_loop_terminates_witness :
  load_loop LittleEndian note_memory 500 0
    (line_text libc_line ++ line_text anonymous_line)
    (sentry_value_new_list, zero_module)
  = load_loop LittleEndian note_memory
      (S (length (line_text libc_line ++ line_text anonymous_line))) 0
      (line_text libc_line ++ line_text anonymous_line)
      (sentry_value_new_list, zero_module).
Proof.
  apply (load_loop_terminates LittleEndian note_memory 0
           (line_text libc_line ++ line_text anonymous_line)
           (sentry_value_new_list, zero_module) 500).
  vm_compute. lia.
Defined.

Lemma module_to_value_type (host : byte_order) (mem : memory)
    (module : sentry_module_t) :
  is_elf_module mem module = true ->
  is_elf_descriptor (sentry__procmaps_module_to_value host mem module).
Proof.
  intros Helf. unfold is_elf_descriptor, sentry__procmaps_module_to_value.
  rewrite Helf. cbv zeta. unfold sentry__procmaps_read_ids_from_elf.
  destruct (get_code_id_from_elf host mem module) as [[code_id sz]|];
    reflexivity.
Qed.

Lemma try_append_grows (host : byte_order) (mem : memory)
    (items : list sentry_value_t) (module : sentry_module_t) :
  exists added,
    try_append_module host mem (VList false items) module
    = VList false (items ++ added)
    /\ Forall is_elf_descriptor added.
Proof.
  unfold try_append_module.
  destruct (slice_ptr (module_file module));
    [|exists []; rewrite app_nil_r; split; [reflexivity | constructor]].
  rewrite module_to_value_not_null, negb_involutive.
  destruct (is_elf_module mem module) eqn:Helf.
  - exists [sentry__procmaps_module_to_value host mem module].
    split; [reflexivity|].
    apply Forall_cons_2; [|apply Forall_nil_2].
    apply module_to_value_type, Helf.
  - exists []. rewrite app_nil_r. split; [reflexivity | constructor].
Qed.

Lemma load_step_grows (host : byte_order) (mem : memory) (linux_vdso : Z)
    (items : list sentry_value_t) (last_module : sentry_module_t)
    (module : sentry_parsed_module_t) :
  exists added last_module',
    load_step host mem linux_vdso (VList false items, last_module) module
    = (VList false (items ++ added), last_module')
    /\ Forall is_elf_descriptor added.
Proof.
  unfold load_step.
  destruct (filter_line module linux_vdso) as [kept|].
  - destruct (_ && _).
    + destruct (try_append_grows host mem items last_module)
        as (added & -> & Hadded).
      eexists added, _. split; [reflexivity | exact Hadded].
    + eexists [], _. rewrite app_nil_r. split; [reflexivity | constructor].
  - exists [], last_module. rewrite app_nil_r.
    split; [reflexivity | constructor].
Qed.

Lemma load_loop_grows (host : byte_order) (mem : memory) (linux_vdso : Z)
    (fuel : nat) :
  forall current_line items last_module,
  exists added last_module',
    load_loop host mem fuel linux_vdso current_line
      (VList false items, last_module)
    = (VList false (items ++ added), last_module')
    /\ Forall is_elf_descriptor added.
Proof.
  induction fuel as [|fuel IH]; intros current_line items last_module.
  - exists [], last_module. rewrite app_nil_r.
    split; [reflexivity | constructor].
  - simpl.
    destruct (sentry__procmaps_parse_module_line current_line zero_parsed)
      as [read module].
    destruct (read =? 0).
    + exists [], last_module. rewrite app_nil_r.
      split; [reflexivity | constructor].
    + destruct (load_step_grows host mem linux_vdso items last_module module)
        as (a1 & last1 & -> & Ha1).
      destruct (IH (drop (Z.to_nat read) current_line) (items ++ a1) last1)
        as (a2 & last2 & -> & Ha2).
      exists (a1 ++ a2), last2. rewrite app_assoc.
      split; [reflexivity|]. apply Forall_app. split; assumption.
Qed.

(** A pass only adds to the list, and what it adds are descriptors of type
    "elf": the entries the list had stay in front, in their order, and no
    null value or other value gets into the list. *)
Theorem load_modules_adds_descriptors (host : byte_order) (mem : memory)
    (maps : option (list ascii)) (auxv : option (list (Z * Z)))
    (items : list sentry_value_t) :
  exists added,
    load_modules host mem maps auxv (VList false items)
    = VList false (items ++ added)
    /\ Forall is_elf_descriptor added.
Proof.
  unfold load_modules. destruct maps as [contents|].
  - destruct (load_loop_grows host mem (get_linux_vdso auxv)
                (S (length contents)) contents items zero_module)
      as (a1 & last1 & -> & Ha1).
    destruct (try_append_grows host mem (items ++ a1) last1)
      as (a2 & -> & Ha2).
    exists (a1 ++ a2). rewrite app_assoc.
    split; [reflexivity|]. apply Forall_app. split; assumption.
  - exists []. rewrite app_nil_r. split; [reflexivity | constructor].
Qed.

(** When the map cannot be read, or its text does not start with a line
    that parses (an empty text for one), the pass leaves the list as it
    is. *)
Theorem load_modules_without_lines (host : byte_order) (mem : memory)
    (maps : option (list ascii)) (auxv : option (list (Z * Z)))
    (modules : sentry_value_t) :
  (maps = None
   \/ exists contents,
        maps = Some contents
        /\ fst (sentry__procmaps_parse_module_line contents zero_parsed)
           = 0) ->
  load_modules host mem maps auxv modules = modules.
Proof.
  intros [-> | (contents & -> & Hzero)]; [reflexivity|].
  unfold load_modules. cbn [load_loop].
  destruct (sentry__procmaps_parse_module_line contents zero_parsed)
    as [read module].
  simpl in Hzero. subst read. reflexivity.
Qed.

Lemma load_modules_without_lines_witness :
  load_modules LittleEndian note_memory (Some (str "[no map]")) None
    sentry_value_new_list = sentry_value_new_list.
Proof.
  apply (load_modules_without_lines LittleEndian note_memory
           (Some (str "[no map]")) None sentry_value_new_list).
  right. exists (str "[no map]"). split; reflexivity.
Defined.

(** ** Reading the memory map *)

(** Interrupted reads change nothing; what comes after the end of the file
    or after an error is not read; and the text of a file read in chunks is
    the chunks one after the other. *)
Theorem read_loop_collects_chunks (pre post : list read_result)
    (chunks : list (list ascii)) (sb : list ascii) :
  read_loop (List.filter (fun r => negb (is_retry r)) pre) sb
  = read_loop pre sb
  /\ read_loop (pre ++ ReadEnd :: post) sb = read_loop pre sb
  /\ read_loop (List.map (fun c => ReadData c false) chunks) sb
     = Some (sb ++ concat chunks).
Proof.
  split; [|split].
  - revert sb. induction pre as [|[chunk fails| |] pre IH]; intros sb;
      simpl; auto.
    destruct fails; [reflexivity | apply IH].
  - revert sb. induction pre as [|[chunk fails| |] pre IH]; intros sb;
      simpl; auto.
    destruct fails; [reflexivity | apply IH].
  - revert sb. induction chunks as [|c chunks IH]; intros sb; simpl.
    + rewrite app_nil_r. reflexivity.
    + rewrite IH, app_assoc. reflexivity.
Qed.

(** A failed append gives up the pass: the list is left as it is, whatever
    was read before and whatever the file still holds. *)
Theorem load_modules_gives_up_on_failed_append (host : byte_order)
    (mem : memory) (chunks : list (list ascii)) (chunk : list ascii)
    (post : list read_result) (auxv : option (list (Z * Z)))
    (modules : sentry_value_t) :
  load_modules_from_file host mem
    (Some (List.map (fun c => ReadData c false) chunks
           ++ ReadData chunk true :: post)) auxv modules
  = modules.
Proof.
  unfold load_modules_from_file, read_maps.
  assert (Hread : forall sb,
            read_loop (List.map (fun c => ReadData c false) chunks
                       ++ ReadData chunk true :: post) sb = None).
  { induction chunks as [|c chunks IH]; intros sb; simpl; auto. }
  rewrite Hread. reflexivity.
Qed.

(** ** More on the module cache *)

(** In every state that calls of the two functions lead to, the cache
    either is not initialized, and holds the value it started with or the
    null value that a clear has stored, or is initialized and holds the
    frozen list of some build; a call of [sentry_get_modules_list] in such
    a state returns the frozen list of a build. *)
Theorem cache_state_invariant (zero_value : sentry_value_t) (c : cache_t) :
  cache_reachable zero_value c ->
  (g_initialized c = false ->
   g_modules c = zero_value \/ g_modules c = sentry_value_new_null)
  /\ (g_initialized c = true ->
      exists p, g_modules c = build_modules p
                /\ is_frozen_list (g_modules c) = true)
  /\ (forall p,
        exists p', snd (sentry_get_modules_list p c) = build_modules p'
                   /\ is_frozen_list (snd (sentry_get_modules_list p c))
                      = true).
Proof.
  intros Hreach.
  assert (Hinv : (g_initialized c = false ->
                  g_modules c = zero_value
                  \/ g_modules c = sentry_value_new_null)
                 /\ (g_initialized c = true ->
                     exists p, g_modules c = build_modules p
                               /\ is_frozen_list (g_modules c) = true)).
  { induction Hreach as [|p c Hc [IH1 IH2]|c Hc _].
    - split; [intros _; left; reflexivity | discriminate].
    - unfold sentry_get_modules_list. simpl.
      destruct (g_initialized c) eqn:Hinit; simpl.
      + split; [intros H; rewrite Hinit in H; discriminate H|].
        intros _. apply IH2. reflexivity.
      + split; [discriminate|]. intros _. exists p.
        split; [reflexivity | apply build_modules_frozen].
    - split; [intros _; right; reflexivity | discriminate]. }
  destruct Hinv as [H1 H2]. split; [exact H1|]. split; [exact H2|].
  intros p. unfold sentry_get_modules_list.
  destruct (g_initialized c) eqn:Hinit; simpl.
  - apply H2. reflexivity.
  - exists p. split; [reflexivity | apply build_modules_frozen].
Qed.

Lemma cache_state_invariant_witness :
  exists p,
    g_modules (fst (sentry_get_modules_list sample_process
                      (initial_cache (VInt32 0))))
    = build_modules p
    /\ is_frozen_list
         (g_modules (fst (sentry_get_modules_list sample_process
                            (initial_cache (VInt32 0))))) = true.
Proof.
  destruct (cache_state_invariant (VInt32 0)
              (fst (sentry_get_modules_list sample_process
                      (initial_cache (VInt32 0)))))
    as (_ & H & _).
  - apply reach_get, reach_initial.
  - apply H. reflexivity.
Defined.

(** ** The walk over the section headers *)

Lemma shdr_loop_sound (host : byte_order) (mem : memory) (c : elf_class)
    (module : sentry_module_t) (elf names : Z) (indices : list nat)
    (text text_size : Z) :
  shdr_loop host mem c module elf names indices = Some (text, text_size) ->
  (text = 0 /\ text_size = 0)
  \/ exists i header,
       i ∈ indices
       /\ section_header host mem c module elf (Z.of_nat i) = Some header
       /\ sh_type host mem c header = SHT_PROGBITS
       /\ is_dot_text mem (names + sh_name host mem c header) = true
       /\ sentry__module_get_addr module (sh_offset host mem c header)
            (sh_size host mem c header) = Some text
       /\ text_size = sh_size host mem c header.
Proof.
  induction indices as [|i rest IH]; intros H.
  - injection H as <- <-. left. split; reflexivity.
  - cbn [shdr_loop] in H.
    fold (section_header host mem c module elf (Z.of_nat i)) in H.
    destruct (section_header host mem c module elf (Z.of_nat i))
      as [header|] eqn:Hh; [|discriminate H].
    destruct (Z.eqb_spec (sh_type host mem c header) SHT_PROGBITS)
      as [Ht | _]; simpl in H.
    + destruct (is_dot_text mem (names + sh_name host mem c header))
        eqn:Hname.
      * destruct (sentry__module_get_addr module (sh_offset host mem c header)
                    (sh_size host mem c header)) as [t|] eqn:Ht';
          [|discriminate H].
        injection H as <- <-. right. exists i, header.
        split; [left|]. auto.
      * destruct (IH H) as [Hnil | (j & hd & Hj & Hrest)]; [left; exact Hnil|].
        right. exists j, hd. split; [right; exact Hj | exact Hrest].
    + destruct (IH H) as [Hnil | (j & hd & Hj & Hrest)]; [left; exact Hnil|].
      right. exists j, hd. split; [right; exact Hj | exact Hrest].
Qed.

(** The bytes that the fallback folds come from a translated section: when
    the header walk ends with a text pointer, the identification bytes, the
    ELF header, the header of the string table and the names were
    translated, and one of the [e_shnum] section headers was translated, is
    of type [SHT_PROGBITS], is named [.text] and has its [sh_offset] and
    [sh_size] translated to that pointer; otherwise the walk ends with the
    null pointer and the size 0. *)
Theorem locate_text_sound (host : byte_order) (mem : memory)
    (module : sentry_module_t) (text text_size : Z) :
  locate_text host mem module = Some (text, text_size) ->
  (text = 0 /\ text_size = 0)
  \/ exists e_ident elf strheader names i header,
       sentry__module_get_addr module 0 EI_NIDENT = Some e_ident
       /\ sentry__module_get_addr module 0 sizeof_Elf64_Ehdr = Some elf
       /\ section_header host mem (class_of mem e_ident) module elf
            (e_shstrndx host mem (class_of mem e_ident) elf)
          = Some strheader
       /\ sentry__module_get_addr module
            (sh_offset host mem (class_of mem e_ident) strheader)
            (sh_entsize host mem (class_of mem e_ident) strheader)
          = Some names
       /\ Z.of_nat i < e_shnum host mem (class_of mem e_ident) elf
       /\ section_header host mem (class_of mem e_ident) module elf
            (Z.of_nat i) = Some header
       /\ sh_type host mem (class_of mem e_ident) header = SHT_PROGBITS
       /\ is_dot_text mem
            (names + sh_name host mem (class_of mem e_ident) header) = true
       /\ sentry__module_get_addr module
            (sh_offset host mem (class_of mem e_ident) header)
            (sh_size host mem (class_of mem e_ident) header) = Some text
       /\ text_size = sh_size host mem (class_of mem e_ident) header.
Proof.
  unfold locate_text. intros H.
  destruct (sentry__module_get_addr module 0 EI_NIDENT) as [e_ident|]
    eqn:E1; [|discriminate H].
  fold (class_of mem e_ident) in H. cbv zeta in H.
  destruct (sentry__module_get_addr module 0 sizeof_Elf64_Ehdr) as [elf|]
    eqn:E2; [|discriminate H].
  fold (section_header host mem (class_of mem e_ident) module elf
          (e_shstrndx host mem (class_of mem e_ident) elf)) in H.
  destruct (section_header host mem (class_of mem e_ident) module elf
              (e_shstrndx host mem (class_of mem e_ident) elf))
    as [strheader|] eqn:E3; [|discriminate H].
  destruct (sentry__module_get_addr module
              (sh_offset host mem (class_of mem e_ident) strheader)
              (sh_entsize host mem (class_of mem e_ident) strheader))
    as [names|] eqn:E4; [|discriminate H].
  destruct (shdr_loop_sound _ _ _ _ _ _ _ _ _ H)
    as [Hnil | (i & header & Hi & Hrest)]; [left; exact Hnil|].
  right. exists e_ident, elf, strheader, names, i, header.
  split; [reflexivity|]. split; [reflexivity|].
  split; [exact E3|]. split; [exact E4|].
  split; [|exact Hrest].
  apply list_elem_of_In, in_seq in Hi. lia.
Qed.

Lemma locate_text_sound_witness :
  (65736 = 0 /\ 20 = 0)
  \/ exists e_ident elf strheader names i header,
       sentry__module_get_addr one_region_module 0 EI_NIDENT = Some e_ident
       /\ sentry__module_get_addr one_region_module 0 sizeof_Elf64_Ehdr
          = Some elf
       /\ section_header LittleEndian text_memory
            (class_of text_memory e_ident) one_region_module elf
            (e_shstrndx LittleEndian text_memory
               (class_of text_memory e_ident) elf)
          = Some strheader
       /\ sentry__module_get_addr one_region_module
            (sh_offset LittleEndian text_memory
               (class_of text_memory e_ident) strheader)
            (sh_entsize LittleEndian text_memory
               (class_of text_memory e_ident) strheader)
          = Some names
       /\ Z.of_nat i
          < e_shnum LittleEndian text_memory (class_of text_memory e_ident)
              elf
       /\ section_header LittleEndian text_memory
            (class_of text_memory e_ident) one_region_module elf
            (Z.of_nat i) = Some header
       /\ sh_type LittleEndian text_memory (class_of text_memory e_ident)
            header = SHT_PROGBITS
       /\ is_dot_text text_memory
            (names
             + sh_name LittleEndian text_memory
                 (class_of text_memory e_ident) header) = true
       /\ sentry__module_get_addr one_region_module
            (sh_offset LittleEndian text_memory
               (class_of text_memory e_ident) header)
            (sh_size LittleEndian text_memory
               (class_of text_memory e_ident) header) = Some 65736
       /\ 20 = sh_size LittleEndian text_memory
                 (class_of text_memory e_ident) header.
Proof.
  apply (locate_text_sound LittleEndian text_memory one_region_module
           65736 20).
  reflexivity.
Defined.
